(** * Western Railways simulator: the reconciliation engine of
      [Simulator/src/timetable.py] and the service filter of
      [Simulator/src/simulator.py], as a shallow embedding.

    Python values are modelled as follows.
    - [str] is [string]; only ASCII text is modelled (Python's [\d], [\s],
      [strip] and [upper] also know non-ASCII code points).
    - A service identifier is an [int] or a [str] ([Id]).
    - A float that the code computes from integers and [second / 60] is an
      exact rational [Q]; results are compared with [==].
    - An uncaught exception is [Raise e]; code that can raise lives in the
      [result] monad.
    - A [dict] is an insertion-ordered association list ([Dict]). *)

From Stdlib Require Import ZArith QArith List String Ascii Bool Lia Lqa.
From Stdlib Require Import DecimalString Qabs Qround Permutation Sorted.
Import ListNotations.

Set Implicit Arguments.

Local Open Scope string_scope.
Local Open Scope list_scope.
Local Open Scope Z_scope.

(* ================================================================== *)
(** * Python runtime: exceptions, strings, dictionaries *)
(* ================================================================== *)

Module Py.

Inductive PyExc : Type :=
| IndexError | KeyError | TypeError | AttributeError
| AssertionError | ValueError | UnboundLocalError | RecursionError.

Inductive result (A : Type) : Type :=
| Ok (a : A)
| Raise (e : PyExc).

Arguments Ok {A} a.
Arguments Raise {A} e.

Definition bind {A B} (m : result A) (k : A -> result B) : result B :=
  match m with
  | Ok a => k a
  | Raise e => Raise e
  end.

(** ** Characters *)

Definition code (c : ascii) : nat := nat_of_ascii c.

Definition in_range (lo hi : nat) (c : ascii) : bool :=
  Nat.leb lo (code c) && Nat.leb (code c) hi.

Definition is_digit (c : ascii) : bool := in_range 48 57 c.

Definition digit_val (c : ascii) : Z := Z.of_nat (code c) - 48.

(** [str.isspace] on ASCII: TAB..CR, FS..US and the blank. *)
Definition is_space (c : ascii) : bool :=
  in_range 9 13 c || in_range 28 32 c.

Definition upper_char (c : ascii) : ascii :=
  if in_range 97 122 c then ascii_of_nat (code c - 32)%nat else c.

(** ** [str] methods *)

Fixpoint lstrip (s : string) : string :=
  match s with
  | String c r => if is_space c then lstrip r else s
  | EmptyString => EmptyString
  end.

(** [rstrip] keeps a character when it is not a blank or when something
    that is kept follows it. *)
Fixpoint rstrip (s : string) : string :=
  match s with
  | EmptyString => EmptyString
  | String c r =>
      match rstrip r with
      | EmptyString => if is_space c then EmptyString else String c EmptyString
      | r' => String c r'
      end
  end.

Definition strip (s : string) : string := rstrip (lstrip s).

Fixpoint upper (s : string) : string :=
  match s with
  | EmptyString => EmptyString
  | String c r => String (upper_char c) (upper r)
  end.

(** [sub in s] *)
Fixpoint contains (sub s : string) : bool :=
  String.prefix sub s ||
  match s with
  | EmptyString => false
  | String _ r => contains sub r
  end.

(** [not s] for a [str] *)
Definition str_falsy (s : string) : bool :=
  match s with EmptyString => true | _ => false end.

(** [str(n)] for an [int] *)
Definition str_of_int (n : Z) : string := NilZero.string_of_int (Z.to_int n).

(** [int(s)] for a stripped [str]: an optional sign and decimal digits
    ([None] is [ValueError]; digit-group underscores are not modelled). *)
Definition int_of_str (s : string) : option Z :=
  let digits r := option_map Z.of_uint (NilZero.uint_of_string r) in
  match s with
  | String "+" r => digits r
  | String "-" r => option_map Z.opp (digits r)
  | _ => digits s
  end.

(** ** Sequences: [l[i]] with Python's negative indices *)

Definition index {A} (l : list A) (i : Z) : result A :=
  let n := Z.of_nat (List.length l) in
  let j := if i <? 0 then n + i else i in
  if (0 <=? j) && (j <? n) then
    match nth_error l (Z.to_nat j) with
    | Some a => Ok a
    | None => Raise IndexError
    end
  else Raise IndexError.

(** [l[:-k]] *)
Definition drop_last {A} (k : nat) (l : list A) : list A :=
  firstn (List.length l - k)%nat l.

(** [list.remove(x)]: the first element equal to [x] goes; [ValueError]
    when there is none. *)
Fixpoint remove_first {A} (eqb : A -> A -> bool) (x : A) (l : list A)
  : result (list A) :=
  match l with
  | [] => Raise ValueError
  | y :: r =>
      if eqb y x then Ok r
      else match remove_first eqb x r with
           | Ok r' => Ok (y :: r')
           | Raise e => Raise e
           end
  end.

(** ** [dict]: insertion-ordered, a key that is assigned again keeps its
    place *)

Section Dict.
Context {K V : Type} (eqb : K -> K -> bool).

Definition Dict := list (K * V).

Fixpoint dict_get (k : K) (d : Dict) : option V :=
  match d with
  | [] => None
  | (k', v) :: r => if eqb k' k then Some v else dict_get k r
  end.

Fixpoint dict_set (k : K) (v : V) (d : Dict) : Dict :=
  match d with
  | [] => [(k, v)]
  | (k', v') :: r =>
      if eqb k' k then (k', v) :: r else (k', v') :: dict_set k v r
  end.

Definition dict_keys (d : Dict) : list K := map fst d.
Definition dict_values (d : Dict) : list V := map snd d.
Definition dict_has (k : K) (d : Dict) : bool :=
  match dict_get k d with Some _ => true | None => false end.
End Dict.

End Py.

Import Py.

Declare Scope py_scope.
Delimit Scope py_scope with py.
Notation "x <- m ;; k" := (bind m (fun x => k))
  (at level 61, m at next level, right associativity) : py_scope.
Notation "m ;;; k" := (bind m (fun _ => k))
  (at level 61, right associativity) : py_scope.

(* ================================================================== *)
(** * Time codec: [StationEvent._timeToMinutes] *)
(* ================================================================== *)

Module TimeCodec.

(** One numeric directive of [datetime.strptime].  The directive's regular
    expression is [two|\d], where [two c1 c2] says which two-digit forms the
    directive accepts; the two-digit alternative comes first, and after it
    matched no shorter alternative can make what follows match (the next
    character would be the second digit). *)
Definition directive (two : ascii -> ascii -> bool) (s : string)
  : option (Z * string) :=
  match s with
  | String c1 (String c2 r) =>
      if is_digit c1 && is_digit c2 && two c1 c2
      then Some (digit_val c1 * 10 + digit_val c2, r)
      else if is_digit c1 then Some (digit_val c1, String c2 r) else None
  | String c1 EmptyString =>
      if is_digit c1 then Some (digit_val c1, EmptyString) else None
  | EmptyString => None
  end.

(** [%H] is [2[0-3]|[0-1]\d|\d] *)
Definition two_H (c1 c2 : ascii) : bool :=
  (Ascii.eqb c1 "2" && in_range 48 51 c2) || in_range 48 49 c1.
(** [%M] is [[0-5]\d|\d] *)
Definition two_M (c1 c2 : ascii) : bool := in_range 48 53 c1.
(** [%S] is [6[0-1]|[0-5]\d|\d] *)
Definition two_S (c1 c2 : ascii) : bool :=
  (Ascii.eqb c1 "6" && in_range 48 49 c2) || in_range 48 53 c1.

Definition colon (s : string) : option string :=
  match s with
  | String ":" r => Some r
  | _ => None
  end.

(** The [datetime] constructor refuses a second above 59 ([%S] itself
    accepts 60 and 61); whatever is left after the match is
    "unconverted data".  Both are a [ValueError], here [None]. *)
Definition strptime_HMS (s : string) : option (Z * Z * Z) :=
  match directive two_H s with
  | Some (h, s1) =>
    match colon s1 with
    | Some s2 =>
      match directive two_M s2 with
      | Some (m, s3) =>
        match colon s3 with
        | Some s4 =>
          match directive two_S s4 with
          | Some (sec, EmptyString) =>
              if sec <=? 59 then Some (h, m, sec) else None
          | _ => None
          end
        | None => None
        end
      | None => None
      end
    | None => None
    end
  | None => None
  end.

Definition strptime_HM (s : string) : option (Z * Z * Z) :=
  match directive two_H s with
  | Some (h, s1) =>
    match colon s1 with
    | Some s2 =>
      match directive two_M s2 with
      | Some (m, EmptyString) => Some (h, m, 0)
      | _ => None
      end
    | None => None
    end
  | None => None
  end.

(** The two nested [try] blocks: ["%H:%M:%S"] first, then ["%H:%M"]. *)
Definition parseClock (time_str : string) : option (Z * Z * Z) :=
  match strptime_HMS (strip time_str) with
  | Some t => Some t
  | None => strptime_HM (strip time_str)
  end.

(** [t.hour * 60 + t.minute + t.second / 60] *)
Definition minutesSinceMidnight (t : Z * Z * Z) : Q :=
  let '(h, m, sec) := t in
  inject_Z (h * 60 + m) + inject_Z sec / 60.

(** [if minutes < 165: minutes += 1440] *)
Definition Qlt_bool (a b : Q) : bool := negb (Qle_bool b a).

Definition wrapAround (minutes : Q) : Q :=
  if Qlt_bool minutes 165 then minutes + 1440 else minutes.

Definition _timeToMinutes (time_str : string) : option Q :=
  if str_falsy time_str then None
  else
    match parseClock time_str with
    | Some t => Some (wrapAround (minutesSinceMidnight t))
    | None => None
    end.

(** Equality of codec results as Python compares them ([480.0 == 480]). *)
Definition same_time (a b : option Q) : Prop :=
  match a, b with
  | Some x, Some y => x == y
  | None, None => True
  | _, _ => False
  end.

(** [f"{h:02d}:{m:02d}"], the usual way a clock value is written. *)
Definition digit_char (d : Z) : ascii := ascii_of_nat (Z.to_nat (48 + d)).

Definition two_digits (n : Z) : string :=
  String (digit_char (n / 10)) (String (digit_char (n mod 10)) EmptyString).

Definition clockHM (h m : Z) : string :=
  (two_digits h ++ ":" ++ two_digits m)%string.

Definition clockHMS (h m sec : Z) : string :=
  (two_digits h ++ ":" ++ two_digits m ++ ":" ++ two_digits sec)%string.

End TimeCodec.

Import TimeCodec.


(* ================================================================== *)
(** * Data model *)
(* ================================================================== *)

(** A service identifier: [int(...)] of a five-digit cell, or the matched
    ["ETY <n>"] token. *)
Inductive Id : Type :=
| IdInt (n : Z)
| IdStr (s : string).

(** [a == b]; an [int] never equals a [str]. *)
Definition Id_eqb (a b : Id) : bool :=
  match a, b with
  | IdInt x, IdInt y => x =? y
  | IdStr x, IdStr y => String.eqb x y
  | _, _ => false
  end.

(** [str(x)] *)
Definition str (x : Id) : string :=
  match x with
  | IdInt n => str_of_int n
  | IdStr s => s
  end.

(** [repr(x)], as [str(list)] prints its elements (no quote or escape
    inside the identifiers that the patterns can produce). *)
Definition repr (x : Id) : string :=
  match x with
  | IdInt n => str_of_int n
  | IdStr s => ("'" ++ s ++ "'")%string
  end.

Fixpoint join (sep : string) (l : list string) : string :=
  match l with
  | [] => ""
  | [x] => x
  | x :: r => (x ++ sep ++ join sep r)%string
  end.

Definition str_of_ids (l : list Id) : string :=
  ("[" ++ join ", " (map repr l) ++ "]")%string.

(** Truth value of an identifier ([if nxt:]) *)
Definition truthy (x : Id) : bool :=
  match x with
  | IdInt n => negb (n =? 0)
  | IdStr s => negb (str_falsy s)
  end.

Inductive RakeLinkStatus : Type := VALID | INVALID.
Inductive Direction : Type := UP | DOWN.
Inductive EventType : Type := ARRIVAL | DEPARTURE.

Definition Direction_eqb (a b : Direction) : bool :=
  match a, b with
  | UP, UP | DOWN, DOWN => true
  | _, _ => false
  end.

Module StationEvent.
Record t : Type := mk {
  atStation : string;
  atTime : option Q;
  eType : option EventType;
  render : bool }.

(** [__init__]: the [type] argument is received and not stored
    ([self.eType = None]). *)
Definition init (st : string) (time : string) (type : EventType) : t :=
  {| atStation := st;
     atTime := _timeToMinutes time;
     eType := None;
     render := true |}.

Definition set_render (b : bool) (e : t) : t :=
  {| atStation := atStation e; atTime := atTime e; eType := eType e;
     render := b |}.
End StationEvent.

Module Rake.
Record t : Type := mk {
  rakeId : nat;
  isAC : bool;
  rakeSize : Z }.

Definition init (rakeId : nat) : t :=
  {| rakeId := rakeId; isAC := false; rakeSize := 12 |}.
End Rake.

Module Service.
Record t : Type := mk {
  rawServiceCol : list string;
  serviceId : list Id;
  direction : Direction;
  rakeSizeReq : option Z;
  needsACRake : bool;
  linkedTo : option string;
  initStation : option string;
  finalStation : option string;
  events : list StationEvent.t;
  lengthKm : option Q;
  render : bool }.

Definition set_events (v : list StationEvent.t) (s : t) : t :=
  mk (rawServiceCol s) (serviceId s) (direction s) (rakeSizeReq s)
     (needsACRake s) (linkedTo s) (initStation s) (finalStation s)
     v (lengthKm s) (render s).

Definition set_stations (i f : option string) (s : t) : t :=
  mk (rawServiceCol s) (serviceId s) (direction s) (rakeSizeReq s)
     (needsACRake s) (linkedTo s) i f
     (events s) (lengthKm s) (render s).

Definition set_lengthKm (v : Q) (s : t) : t :=
  mk (rawServiceCol s) (serviceId s) (direction s) (rakeSizeReq s)
     (needsACRake s) (linkedTo s) (initStation s) (finalStation s)
     (events s) (Some v) (render s).

Definition set_render (v : bool) (s : t) : t :=
  mk (rawServiceCol s) (serviceId s) (direction s) (rakeSizeReq s)
     (needsACRake s) (linkedTo s) (initStation s) (finalStation s)
     (events s) (lengthKm s) v.

(** A service as the extractor leaves it: no events, visible. *)
Definition extracted (col : list string) (ids : list Id) (d : Direction)
    (size : option Z) (ac : bool) (link : option string) : t :=
  mk col ids d size ac link None None [] None true.
End Service.

(** Objects that are shared and mutated live in a heap and are named by
    their position in it. *)
Definition ServiceRef := nat.
Definition RakeCycleRef := nat.

Module RakeCycle.
Record t : Type := mk {
  linkName : string;
  status : RakeLinkStatus;
  serviceIds : list Id;
  undefinedIds : list (string * Id);
  servicePath : option (list ServiceRef);
  rake : option Rake.t;
  render : bool;
  lengthKm : Q }.

(** [__init__] followed by what [parseRakeLinks] fills in. *)
Definition parsed (name : string) (ids : list Id)
    (undef : list (string * Id)) : t :=
  mk name VALID ids undef None None true 0.

Definition set_status (v : RakeLinkStatus) (r : t) : t :=
  mk (linkName r) v (serviceIds r) (undefinedIds r) (servicePath r)
     (rake r) (render r) (lengthKm r).

Definition set_servicePath (v : option (list ServiceRef)) (r : t) : t :=
  mk (linkName r) (status r) (serviceIds r) (undefinedIds r) v
     (rake r) (render r) (lengthKm r).

Definition set_rake (v : Rake.t) (r : t) : t :=
  mk (linkName r) (status r) (serviceIds r) (undefinedIds r)
     (servicePath r) (Some v) (render r) (lengthKm r).

Definition set_render (v : bool) (r : t) : t :=
  mk (linkName r) (status r) (serviceIds r) (undefinedIds r)
     (servicePath r) (rake r) v (lengthKm r).

Definition set_lengthKm (v : Q) (r : t) : t :=
  mk (linkName r) (status r) (serviceIds r) (undefinedIds r)
     (servicePath r) (rake r) (render r) v.
End RakeCycle.

(* ================================================================== *)
(** * [TimeTableParser]: patterns, reference tables, header detectors *)
(* ================================================================== *)

Module TimeTableParser.

(** ** [rTimePattern]

    [(?:\d{1,2}/\d{1,2}/\d{2,4}\s+)?([01]?\d|2[0-3]):[0-5]\d(?::[0-5]\d)?$]

    Only whether a match starts at a position matters: a match always ends
    after a digit, and [$] puts that end at the end of the text or before
    its final newline. *)

(** [$] *)
Definition at_end (s : string) : bool :=
  match s with
  | EmptyString => true
  | String c EmptyString => Ascii.eqb c "010"
  | _ => false
  end.

(** [[0-5]\d] *)
Definition sexagesimal (s : string) : option string :=
  match s with
  | String a (String b r) =>
      if in_range 48 53 a && is_digit b then Some r else None
  | _ => None
  end.

(** [:[0-5]\d(?::[0-5]\d)?$] *)
Definition minutes_seconds_end (s : string) : bool :=
  match colon s with
  | Some s1 =>
      match sexagesimal s1 with
      | Some s2 =>
          at_end s2 ||
          match colon s2 with
          | Some s3 =>
              match sexagesimal s3 with
              | Some s4 => at_end s4
              | None => false
              end
          | None => false
          end
      | None => false
      end
  | None => false
  end.

(** [([01]?\d|2[0-3])] followed by the rest of the pattern; the three ways
    the hour can match are tried in turn. *)
Definition time_end (s : string) : bool :=
  match s with
  | String a r =>
      (is_digit a && minutes_seconds_end r) ||
      match r with
      | String b r' =>
          ((in_range 48 49 a && is_digit b) ||
           (Ascii.eqb a "2" && in_range 48 51 b)) && minutes_seconds_end r'
      | EmptyString => false
      end
  | EmptyString => false
  end.

(** [\d{lo,hi}]: every remainder that some admissible number of digits
    leaves. *)
Fixpoint digits_upto (n : nat) (s : string) : list (nat * string) :=
  (O, s) ::
  match n, s with
  | S n', String c r =>
      if is_digit c
      then map (fun p => (S (fst p), snd p)) (digits_upto n' r)
      else []
  | _, _ => []
  end.

Definition digits_between (lo hi : nat) (s : string) : list string :=
  map snd (filter (fun p => Nat.leb lo (fst p)) (digits_upto hi s)).

Definition slash (s : string) : list string :=
  match s with
  | String "/" r => [r]
  | _ => []
  end.

(** [\s+] before the time: the time starts with a digit, so all the blanks
    are consumed. *)
Definition blanks1 (s : string) : list string :=
  match s with
  | String c r => if is_space c then [lstrip r] else []
  | EmptyString => []
  end.

(** [\d{1,2}/\d{1,2}/\d{2,4}\s+] *)
Definition date_prefix (s : string) : list string :=
  flat_map blanks1
    (flat_map (digits_between 2 4)
      (flat_map slash
        (flat_map (digits_between 1 2)
          (flat_map slash (digits_between 1 2 s))))).

(** [rTimePattern.match(s)] as a truth value *)
Definition rTimePattern_match (s : string) : bool :=
  existsb time_end (date_prefix s) || time_end s.

(** The text without the final newline that [$] leaves out. *)
Fixpoint chomp (s : string) : string :=
  match s with
  | EmptyString => EmptyString
  | String c EmptyString => if Ascii.eqb c "010" then EmptyString else s
  | String c r => String c (chomp r)
  end.

(** [rTimePattern.search(s)]: [group(0)] of the leftmost match. *)
Fixpoint rTimePattern_search (s : string) : option string :=
  if rTimePattern_match s then Some (chomp s)
  else
    match s with
    | EmptyString => None
    | String _ r => rTimePattern_search r
    end.

(** ** [distanceMap]: kilometres from Churchgate *)

Definition distanceMap : Dict (K := string) (V := Q) :=
  [ ("CHURCHGATE", 0); ("MARINE LINES", 2); ("CHARNI ROAD", 3);
    ("GRANT ROAD", 4); ("M'BAI CENTRAL(L)", 5); ("MAHALAKSHMI", 6);
    ("LOWER PAREL", 8); ("PRABHADEVI", 9); ("DADAR", 11);
    ("MATUNGA ROAD", 23 # 2); ("MAHIM JN.", 12); ("BANDRA", 15);
    ("KHAR ROAD", 17); ("SANTA CRUZ", 18); ("VILE PARLE", 20);
    ("ANDHERI", 22); ("JOGESHWARI", 24); ("RAM MANDIR", 51 # 2);
    ("GOREGAON", 27); ("MALAD", 30); ("KANDIVALI", 32); ("BORIVALI", 34);
    ("DAHISAR", 37); ("MIRA ROAD", 40); ("BHAYANDAR", 44); ("NAIGAON", 48);
    ("VASAI ROAD", 52); ("NALLASOPARA", 56); ("VIRAR", 60) ]%Q.

(** ** [extractACRequirement] *)

Definition has_AC_keyword (cell : string) : bool :=
  contains "Air" cell || contains "Condition" cell || contains "AC" cell.

(** The loop, with the counter [isAC] as its state; [true] is the early
    [return True]. *)
Fixpoint extractACRequirement_loop (isAC : Z) (serviceCol : list string)
  : bool :=
  match serviceCol with
  | [] => false
  | cell :: rest =>
      let cell := strip cell in
      if isAC =? 1 then true
      else if has_AC_keyword cell
           then extractACRequirement_loop (isAC + 1) rest
           else extractACRequirement_loop isAC rest
  end.

Definition extractACRequirement (serviceCol : list string) : bool :=
  extractACRequirement_loop (-1) serviceCol.

(** The header region of a column, [serviceCol[:6]] in
    [extractServiceHeader]. *)
Definition idRegion (serviceCol : list string) : list string :=
  firstn 6 serviceCol.

End TimeTableParser.

(* ================================================================== *)
(** * [TimeTable]: linkage graph, reconciliation, rake assignment *)
(* ================================================================== *)

Local Open Scope py_scope.

Definition mem_id (x : Id) (l : list Id) : bool := existsb (Id_eqb x) l.

(** ** The heap of [Service] and [RakeCycle] objects *)

(** A reference that names no object reads as an object without
    identifiers; no reference of the program dangles. *)
Definition nullService : Service.t :=
  Service.extracted [] [] UP None false None.

Definition nullRakeCycle : RakeCycle.t := RakeCycle.parsed "" [] [].

Fixpoint update {A} (i : nat) (f : A -> A) (l : list A) : list A :=
  match l, i with
  | [], _ => []
  | x :: r, O => f x :: r
  | x :: r, S i' => x :: update i' f r
  end.

Record TimeTable : Type := mkTimeTable {
  services : list Service.t;          (* the Service objects *)
  links : list RakeCycle.t;           (* the RakeCycle objects *)
  stations : list string;             (* keys of [self.stations] *)
  suburbanServices : list ServiceRef;
  rakecycles : list RakeCycleRef;
  allCyclesWtt : list (list ServiceRef);
  conflictingLinks : list (RakeCycleRef * list Id) }.

Definition svcAt (h : list Service.t) (r : ServiceRef) : Service.t :=
  nth r h nullService.

Definition rcAt (h : list RakeCycle.t) (r : RakeCycleRef) : RakeCycle.t :=
  nth r h nullRakeCycle.

Definition with_services (v : list Service.t) (wtt : TimeTable) :=
  mkTimeTable v (links wtt) (stations wtt) (suburbanServices wtt)
    (rakecycles wtt) (allCyclesWtt wtt) (conflictingLinks wtt).

Definition with_links (v : list RakeCycle.t) (wtt : TimeTable) :=
  mkTimeTable (services wtt) v (stations wtt) (suburbanServices wtt)
    (rakecycles wtt) (allCyclesWtt wtt) (conflictingLinks wtt).

Definition with_suburbanServices (v : list ServiceRef) (wtt : TimeTable) :=
  mkTimeTable (services wtt) (links wtt) (stations wtt) v
    (rakecycles wtt) (allCyclesWtt wtt) (conflictingLinks wtt).

Definition with_rakecycles (v : list RakeCycleRef) (wtt : TimeTable) :=
  mkTimeTable (services wtt) (links wtt) (stations wtt) (suburbanServices wtt)
    v (allCyclesWtt wtt) (conflictingLinks wtt).

Definition with_allCyclesWtt (v : list (list ServiceRef)) (wtt : TimeTable) :=
  mkTimeTable (services wtt) (links wtt) (stations wtt) (suburbanServices wtt)
    (rakecycles wtt) v (conflictingLinks wtt).

Definition with_conflictingLinks (v : list (RakeCycleRef * list Id))
    (wtt : TimeTable) :=
  mkTimeTable (services wtt) (links wtt) (stations wtt) (suburbanServices wtt)
    (rakecycles wtt) (allCyclesWtt wtt) v.

(** [for x in l: body], threading the state and stopping at an exception *)
Fixpoint for_each {A S} (l : list A) (body : A -> S -> result S) (s : S)
  : result S :=
  match l with
  | [] => Ok s
  | x :: r => s' <- body x s ;; for_each r body s'
  end.

(** [[f(x) for x in l]] *)
Fixpoint comprehension {A B} (f : A -> result B) (l : list A)
  : result (list B) :=
  match l with
  | [] => Ok []
  | x :: r => y <- f x ;; ys <- comprehension f r ;; Ok (y :: ys)
  end.

(** [s.serviceId[0]] *)
Definition firstId (s : Service.t) : result Id :=
  index (Service.serviceId s) 0.

(** ** [makeRakeCyclePathsSV] *)

Module Linkage.

(** An entry of [adj] *)
Record Adj : Type := mkAdj { prev : option Id; next : option Id }.

Definition AdjMap := Dict (K := Id) (V := Adj).
Definition IdMap := Dict (K := Id) (V := ServiceRef).

(** [adj[k]], with the [defaultdict]'s default *)
Definition adj_get (adj : AdjMap) (k : Id) : Adj :=
  match dict_get Id_eqb k adj with
  | Some a => a
  | None => mkAdj None None
  end.

(** [adj[k]['next'] = v] *)
Definition adj_set_next (k v : Id) (adj : AdjMap) : AdjMap :=
  dict_set Id_eqb k (mkAdj (prev (adj_get adj k)) (Some v)) adj.

(** [adj[k]['prev'] = v] *)
Definition adj_set_prev (k v : Id) (adj : AdjMap) : AdjMap :=
  dict_set Id_eqb k (mkAdj (Some v) (next (adj_get adj k))) adj.

(** [{sid: s for s in services for sid in s.serviceId}] *)
Definition build_idMap (h : list Service.t) (services : list ServiceRef)
  : IdMap :=
  fold_left
    (fun d r =>
       fold_left (fun d sid => dict_set Id_eqb sid r d)
                 (Service.serviceId (svcAt h r)) d)
    services [].

(** The successor identifier: [int(str(linkedTo).strip())], or the
    stripped text when that is a [ValueError]. *)
Definition nextIdOf (linkedTo : string) : Id :=
  match int_of_str (strip linkedTo) with
  | Some n => IdInt n
  | None => IdStr (strip linkedTo)
  end.

(** One round of the loop that builds the directed links. *)
Definition link_service (h : list Service.t) (idMap : IdMap)
    (r : ServiceRef) (adj : AdjMap) : result AdjMap :=
  let sv := svcAt h r in
  sid <- firstId sv ;;
  match Service.linkedTo sv with
  | None => Ok adj
  | Some l =>
      if str_falsy l then Ok adj
      else
        let nextId := nextIdOf l in
        if negb (dict_has Id_eqb nextId idMap) then Ok adj
        else Ok (adj_set_prev nextId sid (adj_set_next sid nextId adj))
  end.

Definition build_adj (h : list Service.t) (idMap : IdMap) : result AdjMap :=
  for_each (dict_values idMap) (link_service h idMap) [].

(** [followChain].  [depth] is the number of frames the interpreter still
    allows (its recursion limit); the state is [visited] and the [chain]
    under construction. *)
Fixpoint followChain (depth : nat) (idMap : IdMap) (adj : AdjMap)
    (sid : Id) (st : list Id * list ServiceRef)
  : result (list Id * list ServiceRef) :=
  match depth with
  | O => Raise RecursionError
  | S depth' =>
      let '(visited, chain) := st in
      if mem_id sid visited then Ok st
      else
        match dict_get Id_eqb sid idMap with
        | None => Ok st
        | Some sv =>
            let st' := (sid :: visited, chain ++ [sv]) in
            match next (adj_get adj sid) with
            | Some nxt =>
                if truthy nxt then followChain depth' idMap adj nxt st'
                else Ok st'
            | None => Ok st'
            end
        end
  end.

(** One round of the loop over [idMap] that starts the chains; the state
    is [visited] and [self.allCyclesWtt]. *)
Definition start_chain (depth : nat) (idMap : IdMap) (adj : AdjMap)
    (sid : Id) (st : list Id * list (list ServiceRef))
  : result (list Id * list (list ServiceRef)) :=
  let '(visited, cycles) := st in
  if mem_id sid visited then Ok st
  else
    match prev (adj_get adj sid), next (adj_get adj sid) with
    | Some _, _ => Ok st
    | None, None => Ok st
    | None, Some _ =>
        vc <- followChain depth idMap adj sid (visited, []) ;;
        let '(visited', chain) := vc in
        match chain with
        | [] => Ok (visited', cycles)
        | _ => Ok (visited', cycles ++ [chain])
        end
    end.

Definition makeRakeCyclePathsSV (depth : nat) (h : list Service.t)
    (services : list ServiceRef) (allCyclesWtt : list (list ServiceRef))
  : result (list (list ServiceRef)) :=
  let idMap := build_idMap h services in
  adj <- build_adj h idMap ;;
  vc <- for_each (dict_keys idMap) (start_chain depth idMap adj)
          ([], allCyclesWtt) ;;
  Ok (snd vc).

End Linkage.

(* ================================================================== *)
(** * [Service] methods: event sequencing, length, constraint checks *)
(* ================================================================== *)

(** A cell of the label and indicator columns of a sheet: text, or the
    [NaN] of an empty cell. *)
Inductive Cell : Type :=
| NaN
| Text (s : string).

(** A sheet, as far as event sequencing reads it: per row, the station
    label (column 0) and the arrival/departure indicator (column 1). *)
Definition Sheet := list (Cell * Cell).

(** The structured query of the filter tab ([FilterQuery]). *)
Record FilterQuery : Type := mkQuery {
  startStation : option string;
  endStation : option string;
  passingThrough : list string;
  inTimePeriod : option (Z * Z);
  ac : option string;
  inDirection : option (list string) }.

Module ServiceOps.

(** [str(cell)] *)
Definition str_of_cell (c : Cell) : string :=
  match c with
  | NaN => "nan"
  | Text s => s
  end.

(** [pd.isna(stName) or not str(stName).strip()] *)
Definition blank (c : Cell) : bool :=
  match c with
  | NaN => true
  | Text s => str_falsy (strip s)
  end.

(** [sheet.iat[row, 0]] and [sheet.iat[row, 1]] *)
Definition label (sheet : Sheet) (row : Z) : result Cell :=
  rc <- index sheet row ;; Ok (fst rc).

Definition indicator (sheet : Sheet) (row : Z) : result Cell :=
  rc <- index sheet row ;; Ok (snd rc).

(** [cell == "A"] *)
Definition cell_is (c : Cell) (s : string) : bool :=
  match c with
  | NaN => false
  | Text t => String.eqb t s
  end.

(** The label of the row, or of one of the two rows above when it is
    blank. *)
Definition label_near (sheet : Sheet) (rowIdx : Z) : result Cell :=
  stName <- label sheet rowIdx ;;
  if blank stName then
    stName <- label sheet (rowIdx - 1) ;;
    if blank stName then label sheet (rowIdx - 2) else Ok stName
  else Ok stName.

(** The two aliases that the code fixes by hand. *)
Definition alias (stName : Cell) : Cell :=
  let stName :=
    if String.eqb (strip (str_of_cell stName)) "M'BAI CENTRAL (L)"
    then Text "M'BAI CENTRAL(L)" else stName in
  if String.eqb (upper (strip (str_of_cell stName))) "KANDIVLI"
  then Text "KANDIVALI" else stName.

(** [self.events[-1].atStation] *)
Definition last_station (events : list StationEvent.t) : result string :=
  e <- index events (-1) ;; Ok (StationEvent.atStation e).

(** The station name of a timed row, up to [stName.strip().upper()]. *)
Definition resolve_station (stations : list string) (sheet : Sheet)
    (events : list StationEvent.t) (rowIdx : Z) : result string :=
  stName <- label_near sheet rowIdx ;;
  let stName := alias stName in
  stName <-
    (if existsb (String.eqb (strip (str_of_cell stName))) stations
     then Ok stName
     else if contains "REVERSED" (upper (str_of_cell stName))
     then
       above <- label sheet (rowIdx - 1) ;;
       _ <- (if blank above then label sheet (rowIdx - 2) else Ok above) ;;
       st <- last_station events ;; Ok (Text st)
     else Ok stName) ;;
  match stName with
  | Text s => Ok (upper (strip s))
  | NaN => Raise AttributeError
  end.

(** The body of the loop over the rows of the service column. *)
Definition sequence_row (stations : list string) (sheet : Sheet)
    (serviceCol : list string) (row : Z * string)
    (events : list StationEvent.t) : result (list StationEvent.t) :=
  let '(rowIdx, cell) := row in
  match TimeTableParser.rTimePattern_search cell with
  | None => Ok events
  | Some tCell =>
      stName <- resolve_station stations sheet events rowIdx ;;
      ind <- indicator sheet rowIdx ;;
      if cell_is ind "A" then
        let tArr := strip tCell in
        let e1 := StationEvent.init stName tArr ARRIVAL in
        ind' <- indicator sheet (rowIdx + 1) ;;
        let events := events ++ [e1] in
        if cell_is ind' "D" then
          below <- index serviceCol (rowIdx + 1) ;;
          let tDep := strip below in
          if TimeTableParser.rTimePattern_match tDep then
            let e2 := StationEvent.init stName tDep DEPARTURE in
            Ok (events ++ [e2])
          else Ok events
        else Ok events
      else
        let time := strip tCell in
        let e := StationEvent.init stName time ARRIVAL in
        Ok (events ++ [e])
  end.

(** [serviceCol.items()] *)
Definition items (col : list string) : list (Z * string) :=
  combine (map Z.of_nat (seq 0 (List.length col))) col.

(** [generateStationEvents]: the new value of [self.events]. *)
Definition generateStationEvents (wttSheets : list Sheet)
    (stations : list string) (s : Service.t)
  : result (list StationEvent.t) :=
  sheet <- index wttSheets
             (if Direction_eqb (Service.direction s) UP then 0 else 1) ;;
  let serviceCol := Service.rawServiceCol s in
  for_each (items serviceCol) (sequence_row stations sheet serviceCol)
           (Service.events s).

(** [TimeTableParser.distanceMap[name]] *)
Definition distance (name : string) : result Q :=
  match dict_get String.eqb name TimeTableParser.distanceMap with
  | Some d => Ok d
  | None => Raise KeyError
  end.

(** The body of the loop of [computeLengthKm]; its state is
    [(l, dprev)]. *)
Definition add_delta (e : StationEvent.t) (st : Q * Q) : result (Q * Q) :=
  dCCGKm <- distance (StationEvent.atStation e) ;;
  let d := Qabs (snd st - dCCGKm) in
  Ok ((fst st + d)%Q, dCCGKm).

(** [computeLengthKm]: the value assigned to [self.lengthKm]. *)
Definition computeLengthKm (events : list StationEvent.t) : result Q :=
  e0 <- index events 0 ;;
  dprev <- distance (StationEvent.atStation e0) ;;
  ld <- for_each (tl events) add_delta (0%Q, dprev) ;;
  Ok (fst ld).

(** ** Constraint checks.  Each returns the new value of [self.render]. *)

(** [t_lower, t_upper = qq.inTimePeriod] *)
Definition unpack_period (qq : FilterQuery) : result (Z * Z) :=
  match inTimePeriod qq with
  | Some p => Ok p
  | None => Raise TypeError
  end.

(** [t_lower <= t <= t_upper]; comparing with [None] is a [TypeError]. *)
Definition in_period (p : Z * Z) (t : option Q) : result bool :=
  match t with
  | Some t => Ok (Qle_bool (inject_Z (fst p)) t && Qle_bool t (inject_Z (snd p)))
  | None => Raise TypeError
  end.

(** The shared shape of the start- and end-station checks: [e] is the
    first or the last event, [want] the queried station. *)
Definition check_terminal (want : option string)
    (e : result StationEvent.t) (qq : FilterQuery) (render : bool)
  : result bool :=
  match want with
  | None => Ok render
  | Some st =>
      if str_falsy st then Ok render
      else
        e <- e ;;
        p <- unpack_period qq ;;
        if String.eqb (StationEvent.atStation e) st then
          inside <- in_period p (StationEvent.atTime e) ;;
          if negb inside then Ok (render && false) else Ok render
        else Ok (render && false)
  end.

Definition checkStartStationConstraint (s : Service.t) (qq : FilterQuery)
    (render : bool) : result bool :=
  check_terminal (startStation qq) (index (Service.events s) 0) qq render.

Definition checkEndStationConstraint (s : Service.t) (qq : FilterQuery)
    (render : bool) : result bool :=
  check_terminal (endStation qq) (index (Service.events s) (-1)) qq render.

Definition checkDirectionConstraint (s : Service.t) (qq : FilterQuery)
    (render : bool) : bool :=
  match inDirection qq with
  | None | Some [] => render
  | Some dirs =>
      let dirMatch :=
        existsb (fun d =>
          (String.eqb d "UP" && Direction_eqb (Service.direction s) UP) ||
          (String.eqb d "DOWN" && Direction_eqb (Service.direction s) DOWN))
          dirs in
      if negb dirMatch then render && false else render
  end.

Definition checkACConstraint (s : Service.t) (qq : FilterQuery)
    (render : bool) : bool :=
  match ac qq with
  | None => render
  | Some mode =>
      if str_falsy mode || String.eqb mode "all" then render
      else if String.eqb mode "ac" && negb (Service.needsACRake s)
      then render && false
      else if String.eqb mode "nonac" && Service.needsACRake s
      then render && false
      else render
  end.

(** [stnMapTimes]: station to the times of its events, in event order. *)
Definition record_time (m : Dict (K := string) (V := list (option Q)))
    (e : StationEvent.t) : Dict (K := string) (V := list (option Q)) :=
  let st := StationEvent.atStation e in
  let old := match dict_get String.eqb st m with
             | Some l => l
             | None => []
             end in
  dict_set String.eqb st (old ++ [StationEvent.atTime e]) m.

Definition stnMapTimes (events : list StationEvent.t)
  : Dict (K := string) (V := list (option Q)) :=
  fold_left record_time events [].

(** The loop over the queried stations; it returns at the first station
    that fails. *)
Fixpoint passing_loop (m : Dict (K := string) (V := list (option Q)))
    (qq : FilterQuery) (qPassingStns : list string) (render : bool)
  : result bool :=
  match qPassingStns with
  | [] => Ok render
  | st :: rest =>
      match dict_get String.eqb st m with
      | None => Ok (render && false)
      | Some times =>
          t <- index times (-1) ;;
          p <- unpack_period qq ;;
          inside <- in_period p t ;;
          if negb inside then Ok (render && false)
          else passing_loop m qq rest render
      end
  end.

Definition checkPassingThroughConstraint (s : Service.t) (qq : FilterQuery)
    (render : bool) : result bool :=
  let qPassingStns := map upper (passingThrough qq) in
  match qPassingStns with
  | [] => Ok render
  | _ => passing_loop (stnMapTimes (Service.events s)) qq qPassingStns render
  end.

End ServiceOps.

(* ================================================================== *)
(** * [TimeTable] methods *)
(* ================================================================== *)

Module Reconciler.

Import Linkage.

Fixpoint ids_eqb (a b : list Id) : bool :=
  match a, b with
  | [], [] => true
  | x :: a', y :: b' => Id_eqb x y && ids_eqb a' b'
  | _, _ => false
  end.

(** ** The sort of [suburbanServices]: by [(isinstance(id, int), id)],
    stable *)

Definition key_le (a b : Id) : bool :=
  match a, b with
  | IdStr x, IdStr y => String.leb x y
  | IdStr _, IdInt _ => true
  | IdInt _, IdStr _ => false
  | IdInt x, IdInt y => x <=? y
  end.

Fixpoint insert_keyed (x : Id * ServiceRef) (l : list (Id * ServiceRef))
  : list (Id * ServiceRef) :=
  match l with
  | [] => [x]
  | y :: r => if key_le (fst x) (fst y) then x :: l else y :: insert_keyed x r
  end.

Definition sort_services (h : list Service.t) (refs : list ServiceRef)
  : result (list ServiceRef) :=
  keyed <- comprehension
             (fun r => k <- firstId (svcAt h r) ;; Ok (k, r)) refs ;;
  Ok (map snd (fold_right insert_keyed [] keyed)).

(** ** [fixPath] *)

(** [str(sv.linkedTo)] *)
Definition str_linkedTo (s : Service.t) : string :=
  match Service.linkedTo s with
  | None => "None"
  | Some l => l
  end.

(** [{str(s.serviceId[0]): s for s in self.suburbanServices}] *)
Definition build_allServices (wtt : TimeTable)
  : result (Dict (K := string) (V := ServiceRef)) :=
  for_each (suburbanServices wtt)
    (fun r d =>
       k <- firstId (svcAt (services wtt) r) ;;
       Ok (dict_set String.eqb (str k) r d))
    [].

(** [assert(x)] after [x = allServices.get(key)] *)
Definition get_asserted (d : Dict (K := string) (V := ServiceRef))
    (key : string) : result ServiceRef :=
  match dict_get String.eqb key d with
  | Some s => Ok s
  | None => Raise AssertionError
  end.

(** [not x] for a list or a path that may be [None] *)
Definition nonempty {A} (l : list A) : bool :=
  match l with [] => false | _ => true end.

Definition path_falsy (p : option (list ServiceRef)) : bool :=
  match p with
  | Some (_ :: _) => false
  | _ => true
  end.

(** The result is the table (with [rc.status] possibly set) and the
    returned path; falling off the end returns [None]. *)
Definition fixPath (wtt : TimeTable) (rc : RakeCycleRef)
  : result (TimeTable * option (list ServiceRef)) :=
  let r := rcAt (links wtt) rc in
  sid <- index (RakeCycle.serviceIds r) 0 ;;
  if nonempty (RakeCycle.undefinedIds r) then
    Ok (with_links
          (update rc (RakeCycle.set_status INVALID) (links wtt)) wtt,
        Some [])
  else
    allServices <- build_allServices wtt ;;
    _ <- get_asserted allServices (str sid) ;;
    if existsb
         (fun sv => String.eqb (str sid)
                      (str_linkedTo (svcAt (services wtt) sv)))
         (dict_values allServices)
    then
      path <- comprehension (fun id => get_asserted allServices (str id))
                (RakeCycle.serviceIds r) ;;
      Ok (wtt, Some path)
    else Ok (wtt, None).

(** ** [validateRakeCycles] *)

Definition is_ety (x : Id) : bool := contains "ETY" (str x).

(** The decision for one rake cycle: [true] when the loop reaches
    [conflictingLinks.append]. *)
Definition conflicts (summaryPath wttPath : list Id) : result bool :=
  let summaryPathRed1 := drop_last 2 summaryPath in
  if negb (ids_eqb wttPath summaryPath) then
    if ids_eqb (drop_last 1 summaryPath) wttPath then
      last <- index summaryPath (-1) ;;
      if is_ety last then Ok false else Ok true
    else
      if ids_eqb (drop_last 2 summaryPath) wttPath then
        a <- index summaryPathRed1 (-1) ;;
        if is_ety a then
          b <- index summaryPath (-1) ;;
          if is_ety b then Ok false else Ok true
        else Ok true
      else Ok true
  else Ok false.

(** [[svc.serviceId[0] for svc in rc.servicePath]] *)
Definition wttPathOf (wtt : TimeTable) (r : RakeCycle.t)
  : result (list Id) :=
  match RakeCycle.servicePath r with
  | None => Raise TypeError
  | Some p => comprehension (fun s => firstId (svcAt (services wtt) s)) p
  end.

Definition validate_one (rc : RakeCycleRef) (wtt : TimeTable)
  : result TimeTable :=
  let r := rcAt (links wtt) rc in
  let summaryPath := RakeCycle.serviceIds r in
  wttPath <- wttPathOf wtt r ;;
  c <- conflicts summaryPath wttPath ;;
  if c then
    Ok (with_conflictingLinks (conflictingLinks wtt ++ [(rc, wttPath)]) wtt)
  else Ok wtt.

Definition remove_all (rcs : list RakeCycleRef) (wtt : TimeTable)
  : result TimeTable :=
  for_each rcs
    (fun rc wtt =>
       l <- remove_first Nat.eqb rc (rakecycles wtt) ;;
       Ok (with_rakecycles l wtt))
    wtt.

Definition validateRakeCycles (wtt : TimeTable) : result TimeTable :=
  wtt <- for_each (rakecycles wtt) validate_one wtt ;;
  remove_all (map fst (conflictingLinks wtt)) wtt.

(** ** [assignRakes] *)

(** The scan of one service path; the state is the rake, and the scan
    stops at the first [break]. *)
Fixpoint scan_path (h : list Service.t) (path : list ServiceRef)
    (rake : Rake.t) : Rake.t :=
  match path with
  | [] => rake
  | s :: rest =>
      let svc := svcAt h s in
      if Service.needsACRake svc then
        Rake.mk (Rake.rakeId rake) true (Rake.rakeSize rake)
      else
        match Service.rakeSizeReq svc with
        | Some n =>
            if negb (n =? 0) then Rake.mk (Rake.rakeId rake) (Rake.isAC rake) n
            else scan_path h rest rake
        | None => scan_path h rest rake
        end
  end.

Definition assign_one (h : list Service.t) (i : nat) (r : RakeCycle.t)
  : result RakeCycle.t :=
  match RakeCycle.servicePath r with
  | None => Raise TypeError
  | Some path => Ok (RakeCycle.set_rake (scan_path h path (Rake.init i)) r)
  end.

(** The loop writes [rc.rake] only, so its state is the heap of rake
    cycles. *)
Definition assign_step (h : list Service.t) (irc : nat * RakeCycleRef)
    (lk : list RakeCycle.t) : result (list RakeCycle.t) :=
  r <- assign_one h (fst irc) (rcAt lk (snd irc)) ;;
  Ok (update (snd irc) (fun _ => r) lk).

Definition assignRakes (wtt : TimeTable) : result TimeTable :=
  lk <- for_each
          (combine (seq 0 (List.length (rakecycles wtt))) (rakecycles wtt))
          (assign_step (services wtt)) (links wtt) ;;
  Ok (with_links lk wtt).

(** ** [generateRakeCycles] *)

(** The inner loop that looks for a chain starting with the first
    declared identifier; a later match replaces an earlier one. *)
Definition match_paths (wtt : TimeTable) (r : RakeCycle.t)
  : result (option (list ServiceRef)) :=
  for_each (allCyclesWtt wtt)
    (fun path sp =>
       a <- index (RakeCycle.serviceIds r) 0 ;;
       p0 <- index path 0 ;;
       b <- firstId (svcAt (services wtt) p0) ;;
       if String.eqb (str a) (str b) then Ok (Some path) else Ok sp)
    (RakeCycle.servicePath r).

(** The debug message of the unmatched case formats the first declared
    identifier and then [path], the variable that the loops over
    [allCyclesWtt] leave behind. *)
Definition debug_message (wtt : TimeTable) (r : RakeCycle.t) : result unit :=
  _ <- index (RakeCycle.serviceIds r) 0 ;;
  match rev (allCyclesWtt wtt) with
  | [] => Raise UnboundLocalError
  | path :: _ =>
      p0 <- index path 0 ;;
      _ <- firstId (svcAt (services wtt) p0) ;;
      Ok Datatypes.tt
  end.

(** One round of the loop that links the rake cycles to paths; the state
    is the table and the list [invalid]. *)
Definition link_rakecycle (rc : RakeCycleRef)
    (st : TimeTable * list RakeCycleRef)
  : result (TimeTable * list RakeCycleRef) :=
  let '(wtt, invalid) := st in
  sp <- match_paths wtt (rcAt (links wtt) rc) ;;
  let wtt := with_links
              (update rc (RakeCycle.set_servicePath sp) (links wtt)) wtt in
  if path_falsy sp then
    _ <- debug_message wtt (rcAt (links wtt) rc) ;;
    tf <- fixPath wtt rc ;;
    let '(wtt, fixedPath) := tf in
    let invalid :=
      match RakeCycle.status (rcAt (links wtt) rc) with
      | INVALID => invalid ++ [rc]
      | VALID => invalid
      end in
    Ok (with_links
          (update rc (RakeCycle.set_servicePath fixedPath) (links wtt)) wtt,
        invalid)
  else Ok (wtt, invalid).

(** The first half of [generateRakeCycles], up to the removal of the
    invalid rake cycles. *)
Definition linkRakeCycles (depth : nat) (wtt : TimeTable)
  : result TimeTable :=
  sorted <- sort_services (services wtt) (suburbanServices wtt) ;;
  let wtt := with_suburbanServices sorted wtt in
  cycles <- makeRakeCyclePathsSV depth (services wtt) (suburbanServices wtt)
              (allCyclesWtt wtt) ;;
  let wtt := with_allCyclesWtt cycles wtt in
  _ <- comprehension
         (comprehension (fun s => firstId (svcAt (services wtt) s)))
         (allCyclesWtt wtt) ;;
  ti <- for_each (rakecycles wtt) link_rakecycle (wtt, []) ;;
  let '(wtt, invalid) := ti in
  remove_all invalid wtt.

(** The loop that sequences the events of every service of every rake
    cycle and accumulates the lengths. *)
Definition sequence_service (wttSheets : list Sheet) (rc : RakeCycleRef)
    (s : ServiceRef) (wtt : TimeTable) : result TimeTable :=
  let svc := svcAt (services wtt) s in
  events <- ServiceOps.generateStationEvents wttSheets (stations wtt) svc ;;
  e0 <- (match events with
         | [] => Raise AssertionError
         | e :: _ => Ok e
         end) ;;
  let station_of e :=
    if existsb (String.eqb (StationEvent.atStation e)) (stations wtt)
    then Ok (Some (StationEvent.atStation e)) else Raise KeyError in
  i <- station_of e0 ;;
  en <- index events (-1) ;;
  f <- station_of en ;;
  l <- ServiceOps.computeLengthKm events ;;
  let svc' := Service.set_lengthKm l
                (Service.set_stations i f (Service.set_events events svc)) in
  let wtt := with_services (update s (fun _ => svc') (services wtt)) wtt in
  let r := rcAt (links wtt) rc in
  Ok (with_links
        (update rc (RakeCycle.set_lengthKm (RakeCycle.lengthKm r + l)%Q)
           (links wtt)) wtt).

Definition sequence_rakecycle (wttSheets : list Sheet) (rc : RakeCycleRef)
    (wtt : TimeTable) : result TimeTable :=
  match RakeCycle.servicePath (rcAt (links wtt) rc) with
  | None => Raise TypeError
  | Some path => for_each path (sequence_service wttSheets rc) wtt
  end.

Definition generateRakeCycles (depth : nat) (wttSheets : list Sheet)
    (wtt : TimeTable) : result TimeTable :=
  wtt <- linkRakeCycles depth wtt ;;
  wtt <- validateRakeCycles wtt ;;
  wtt <- for_each (rakecycles wtt) (sequence_rakecycle wttSheets) wtt ;;
  assignRakes wtt.

End Reconciler.

(* ================================================================== *)
(** * [Simulator.applyServiceFilters] *)
(* ================================================================== *)

Module Simulator.

Import ServiceOps.

(** The five constraint checks, in the order of the source; each reads
    and writes [svc.render]. *)
Definition run_checks (svc : Service.t) (qq : FilterQuery) (render : bool)
  : result bool :=
  let render := checkDirectionConstraint svc qq render in
  let render := checkACConstraint svc qq render in
  render <- checkStartStationConstraint svc qq render ;;
  render <- checkEndStationConstraint svc qq render ;;
  checkPassingThroughConstraint svc qq render.

(** The body of the loop over [suburbanServices]. *)
Definition filter_service (qq : FilterQuery) (svc : Service.t)
  : result Service.t :=
  let svc := Service.set_render true svc in
  match Service.events svc with
  | [] => Ok (Service.set_render false svc)
  | _ =>
      let svc :=
        Service.set_events
          (map (StationEvent.set_render true) (Service.events svc)) svc in
      render <- run_checks svc qq (Service.render svc) ;;
      Ok (Service.set_render render svc)
  end.

(** The body of the loop over [rakecycles]. *)
Definition filter_rakecycle (h : list Service.t) (r : RakeCycle.t)
  : RakeCycle.t :=
  let r := RakeCycle.set_render false r in
  match RakeCycle.servicePath r with
  | Some ((_ :: _) as path) =>
      if existsb (fun s => Service.render (svcAt h s)) path
      then RakeCycle.set_render true r else r
  | _ => r
  end.

(** The first loop writes the flags of the services and of their events,
    the second the flags of the rake cycles. *)
Definition filter_step (qq : FilterQuery) (s : ServiceRef)
    (h : list Service.t) : result (list Service.t) :=
  svc <- filter_service qq (svcAt h s) ;;
  Ok (update s (fun _ => svc) h).

Definition filter_services (qq : FilterQuery) (refs : list ServiceRef)
    (h : list Service.t) : result (list Service.t) :=
  for_each refs (filter_step qq) h.

Definition filter_rakecycles (h : list Service.t) (refs : list RakeCycleRef)
    (lk : list RakeCycle.t) : list RakeCycle.t :=
  fold_left (fun lk rc => update rc (filter_rakecycle h) lk) refs lk.

Definition applyServiceFilters (qq : FilterQuery) (wtt : TimeTable)
  : result TimeTable :=
  h <- filter_services qq (suburbanServices wtt) (services wtt) ;;
  let wtt := with_services h wtt in
  Ok (with_links
        (filter_rakecycles (services wtt) (rakecycles wtt) (links wtt)) wtt).

End Simulator.

(* ================================================================== *)
(** * [parseRakeLinks]: the rake cycle of one summary row *)
(* ================================================================== *)

Module Summary.

(** [next((s for s in allServices if str(sid) in str(s.serviceId)), None)]
    as a truth value *)
Definition defined (allServices : list Service.t) (sid : Id) : bool :=
  existsb (fun s => contains (str sid) (str_of_ids (Service.serviceId s)))
          allServices.

(** The rake cycle built from the identifiers of a row: every identifier
    is declared, those without a service are also recorded as undefined. *)
Definition rakecycle_of_row (allServices : list Service.t)
    (linkName : string) (ids : list Id) : RakeCycle.t :=
  RakeCycle.parsed linkName ids
    (map (fun sid => (linkName, sid))
         (filter (fun sid => negb (defined allServices sid)) ids)).

End Summary.

(* ================================================================== *)
(** * Auxiliary definitions used by the statements *)
(* ================================================================== *)

Module Aux.

(** [range(n)] *)
Definition Zrange (n : nat) : list Z := map Z.of_nat (seq 0 n).

(** The two characters of [two_digits n] are digits that the directive
    [two] accepts as a two-digit form, spell [n], and are not blanks. *)
Definition field_ok (two : ascii -> ascii -> bool) (n : Z) : bool :=
  let c1 := digit_char (n / 10) in
  let c2 := digit_char (n mod 10) in
  is_digit c1 && is_digit c2 && two c1 c2 &&
  (digit_val c1 * 10 + digit_val c2 =? n) &&
  negb (is_space c1) && negb (is_space c2).

Fixpoint all_chars (p : ascii -> bool) (s : string) : bool :=
  match s with
  | EmptyString => true
  | String c r => p c && all_chars p r
  end.

(** The number of cells that carry an AC keyword. *)
Definition keyword_cells (cells : list string) : nat :=
  List.length (filter (fun c => TimeTableParser.has_AC_keyword (strip c)) cells).

(** What the specification calls the length of a service: the sum of the
    absolute chainage differences of consecutive events, for the
    chainages [ds] of the events in order. *)
Definition sum_of_chainage_deltas (ds : list Q) : Q :=
  fold_left Qplus
    (map (fun p => Qabs (fst p - snd p)) (combine ds (tl ds))) 0%Q.

(** [TimeTableParser.distanceMap.get(name)] *)
Definition chainage (e : StationEvent.t) : option Q :=
  dict_get String.eqb (StationEvent.atStation e) TimeTableParser.distanceMap.

(** The service that decides a rake: the first on the path that needs an
    AC rake or states a car count. *)
Definition decisive (s : Service.t) : bool :=
  Service.needsACRake s ||
  match Service.rakeSizeReq s with
  | Some n => negb (n =? 0)
  | None => false
  end.

Definition rake_for (i : nat) (path : list Service.t) : Rake.t :=
  match find decisive path with
  | None => Rake.init i
  | Some s =>
      if Service.needsACRake s then Rake.mk i true 12
      else Rake.mk i false
             (match Service.rakeSizeReq s with Some n => n | None => 12 end)
  end.

Definition path_of (r : RakeCycle.t) : list ServiceRef :=
  match RakeCycle.servicePath r with
  | Some p => p
  | None => []
  end.






(** A chain is the image of a trace of identifiers under the map. *)
Definition names (idMap : Linkage.IdMap) (r : ServiceRef) (k : Id) : Prop :=
  dict_get Id_eqb k idMap = Some r.


(** Every event of every service carries a time. *)
Definition has_time (e : StationEvent.t) : Prop :=
  StationEvent.atTime e <> None.

Definition all_timed (h : list Service.t) : Prop :=
  forall r, Forall has_time (Service.events (svcAt h r)).

End Aux.

(* ================================================================== *)
(** * Concrete inputs *)
(* ================================================================== *)

Module Inputs.

(** A two-cell column whose cells both name air conditioning. *)
Definition ac_in_last_cell : list string := ["AC"; "AC"].

(** A column with one keyword in the six header cells and one further
    down. *)
Definition ac_below_header : list string :=
  ["AC"; ""; ""; ""; ""; ""; ""; "AC LOCAL"; "08:00"].

(** A column as the amended property wants it. *)
Definition ac_column : list string := ["AC"; "12 CAR"; "AC"; "08:00"].

Definition event_at (st : string) (time : string) : StationEvent.t :=
  StationEvent.init st time ARRIVAL.

(** Churchgate, Dadar, Bandra and back to Dadar. *)
Definition short_run : list StationEvent.t :=
  [event_at "CHURCHGATE" "08:00"; event_at "DADAR" "08:15";
   event_at "BANDRA" "08:22"; event_at "DADAR" "08:30"].

(** A 15-car service that needs no AC rake, followed by an AC service. *)
Definition plain15 : Service.t :=
  Service.extracted [] [IdInt 93001] DOWN (Some 15) false (Some "93002").
Definition ac15 : Service.t :=
  Service.extracted [] [IdInt 93002] UP (Some 15) true None.

Definition mixed_link : RakeCycle.t :=
  RakeCycle.set_servicePath (Some [0; 1]%nat)
    (RakeCycle.parsed "A" [IdInt 93001; IdInt 93002] []).

Definition mixed_table : TimeTable :=
  mkTimeTable [plain15; ac15] [mixed_link] [] [0; 1]%nat [0%nat] [] [].

(** Two linked services, two stabling services, and a summary row that
    ends in the two stabling placeholders. *)
Definition ety1 : Service.t :=
  Service.extracted [] [IdStr "ETY 1"] UP (Some 15) false None.
Definition ety2 : Service.t :=
  Service.extracted [] [IdStr "ETY 2"] UP (Some 15) false None.

Definition two_placeholders : TimeTable :=
  mkTimeTable [plain15; ac15; ety1; ety2]
    [RakeCycle.parsed "A"
       [IdInt 93001; IdInt 93002; IdStr "ETY 1"; IdStr "ETY 2"] []]
    [] [0; 1; 2; 3]%nat [0%nat] [] [].

(** The two linked services and a summary row that also declares a
    stabling placeholder for which no service exists. *)
Definition undefined_placeholder : TimeTable :=
  mkTimeTable [plain15; ac15]
    [Summary.rakecycle_of_row [plain15; ac15] "A"
       [IdInt 93001; IdInt 93002; IdStr "ETY 7"]]
    [] [0; 1]%nat [0%nat] [] [].

(** The same with an undefined five-digit identifier. *)
Definition undefined_number : TimeTable :=
  mkTimeTable [plain15; ac15]
    [Summary.rakecycle_of_row [plain15; ac15] "A"
       [IdInt 93001; IdInt 93002; IdInt 99999]]
    [] [0; 1]%nat [0%nat] [] [].

(** Three rows of a sheet: a dwell at Dadar, then Bandra. *)
Definition dwell_sheet : Sheet :=
  [(Text "DADAR", Text "A"); (NaN, Text "D"); (Text "BANDRA", NaN)].

Definition network : list string := ["CHURCHGATE"; "DADAR"; "BANDRA"].

(** A dwell that spans the start of the traffic day at 02:45. *)
Definition night_column : list string := ["02:40"; "02:50"; "03:05"].

(** A column whose departure cell is earlier than its arrival cell. *)
Definition early_departure_column : list string :=
  ["08:05"; "08:00"; "08:10"].

(** An arrival that is not followed by a departure row. *)
Definition terminal_sheet : Sheet :=
  [(Text "DADAR", Text "A"); (Text "Reversed as", NaN)].

(** Two services with events, one rake cycle over both, and a query for
    up services that start at Dadar. *)
Definition up_service : Service.t :=
  Service.set_events
    [event_at "DADAR" "08:00"; event_at "BANDRA" "08:10"]
    (Service.extracted [] [IdInt 93001] UP (Some 15) false (Some "93002")).

Definition down_service : Service.t :=
  Service.set_events
    [event_at "BANDRA" "08:20"; event_at "DADAR" "08:30"]
    (Service.extracted [] [IdInt 93002] DOWN (Some 15) false None).

Definition sequenced_table : TimeTable :=
  mkTimeTable [up_service; down_service; ety1] [mixed_link] network
    [0; 1; 2]%nat [0%nat] [[0; 1]%nat] [].

Definition up_from_dadar : FilterQuery :=
  mkQuery (Some "DADAR") None [] (Some (165, 1605)) None (Some ["UP"]).



End Inputs.


(* ================================================================== *)
(** * [fmt_time] of [simulator.py] *)
(* ================================================================== *)

Module Display.

(** [round(t)] for a float: to the nearest integer, a tie to the even
    one. *)
Definition round_half_even (t : Q) : Z :=
  let f := Qfloor t in
  let r := (t - inject_Z f)%Q in
  match Qcompare r (1 # 2) with
  | Lt => f
  | Gt => f + 1
  | Eq => if Z.even f then f else f + 1
  end.

(** [f"{n:02d}"] *)
Definition two_wide (n : Z) : string :=
  let s := str_of_int n in
  if Nat.ltb (String.length s) 2 then ("0" ++ s)%string else s.

Definition fmt_time (t : option Q) : string :=
  match t with
  | None => "--:--"
  | Some t =>
      let t := round_half_even t in
      (two_wide (t / 60) ++ ":" ++ two_wide (t mod 60))%string
  end.

End Display.

(* ================================================================== *)
(** * [Simulator.applyLinkFilters] and [Simulator.applyStationFilters] *)
(* ================================================================== *)

Module LinkFilters.

(** [rc.servicePath[0].events[0].atStation] *)
Definition first_station (h : list Service.t) (path : list ServiceRef)
  : result string :=
  s <- index path 0 ;;
  e <- index (Service.events (svcAt h s)) 0 ;;
  Ok (StationEvent.atStation e).

(** [rc.servicePath[-1].events[-1].atStation] *)
Definition last_station (h : list Service.t) (path : list ServiceRef)
  : result string :=
  s <- index path (-1) ;;
  e <- index (Service.events (svcAt h s)) (-1) ;;
  Ok (StationEvent.atStation e).

(** [start and start.upper() != first] *)
Definition misses (q : option string) (st : string) : bool :=
  match q with
  | None => false
  | Some s => negb (str_falsy s) && negb (String.eqb (upper s) st)
  end.

(** The body of the loop of [applyTerminalStationFilters]. *)
Definition terminal_rakecycle (h : list Service.t) (start end_ : option string)
    (r : RakeCycle.t) : result RakeCycle.t :=
  let r := RakeCycle.set_render true r in
  match RakeCycle.servicePath r with
  | Some ((_ :: _) as path) =>
      first <- first_station h path ;;
      last <- last_station h path ;;
      let r := if misses start first
               then RakeCycle.set_render (RakeCycle.render r && false) r
               else r in
      let r := if misses end_ last
               then RakeCycle.set_render (RakeCycle.render r && false) r
               else r in
      Ok r
  | _ => Ok (RakeCycle.set_render false r)
  end.

Definition terminal_step (h : list Service.t) (start end_ : option string)
    (rc : RakeCycleRef) (lk : list RakeCycle.t) : result (list RakeCycle.t) :=
  r <- terminal_rakecycle h start end_ (rcAt lk rc) ;;
  Ok (update rc (fun _ => r) lk).

Definition applyTerminalStationFilters (h : list Service.t)
    (start end_ : option string) (refs : list RakeCycleRef)
    (lk : list RakeCycle.t) : result (list RakeCycle.t) :=
  for_each refs (terminal_step h start end_) lk.

(** [not e.atTime]: no time, or the time zero *)
Definition time_falsy (t : option Q) : bool :=
  match t with
  | None => true
  | Some q => Qeq_bool q 0
  end.

(** The events of all services of the path, in order. *)
Definition path_events (h : list Service.t) (path : list ServiceRef)
  : list StationEvent.t :=
  flat_map (fun s => Service.events (svcAt h s)) path.

(** The test of the loop that filters by time. *)
Definition in_window (p : Z * Z) (e : StationEvent.t) : bool :=
  match StationEvent.atTime e with
  | None => false
  | Some t =>
      negb (Qeq_bool t 0) &&
      (Qle_bool (inject_Z (fst p)) t && Qle_bool t (inject_Z (snd p)))
  end.

(** [if qq.inTimePeriod: ... el = filtered] *)
Definition windowed (period : option (Z * Z)) (el : list StationEvent.t)
  : list StationEvent.t :=
  match period with
  | Some p => filter (in_window p) el
  | None => el
  end.

(** [seen.add(stName)] for the set [seen], kept as a list without
    repetition. *)
Definition set_add (x : string) (seen : list string) : list string :=
  if existsb (String.eqb x) seen then seen else seen ++ [x].

(** The loop that collects the selected stations that the events name; it
    stops as soon as [seen] is as long as [selected]. *)
Fixpoint scan (selected : list string) (el : list StationEvent.t)
    (seen : list string) : list string :=
  match el with
  | [] => seen
  | e :: rest =>
      if str_falsy (StationEvent.atStation e) then scan selected rest seen
      else
        let stName := upper (strip (StationEvent.atStation e)) in
        let seen := if existsb (String.eqb stName) selected
                    then set_add stName seen else seen in
        if Nat.eqb (List.length seen) (List.length selected) then seen
        else scan selected rest seen
  end.

(** The body of the loop of [applyPassingThroughFilter]. *)
Definition passing_rakecycle (h : list Service.t) (qq : FilterQuery)
    (selected : list string) (r : RakeCycle.t) : RakeCycle.t :=
  let r := RakeCycle.set_render (RakeCycle.render r && true) r in
  match RakeCycle.servicePath r with
  | Some ((_ :: _) as path) =>
      let el := windowed (inTimePeriod qq) (path_events h path) in
      let seen := scan selected el [] in
      if Nat.ltb (List.length seen) (List.length selected)
      then RakeCycle.set_render false r else r
  | _ => RakeCycle.set_render (RakeCycle.render r && false) r
  end.

Definition applyPassingThroughFilter (h : list Service.t) (qq : FilterQuery)
    (refs : list RakeCycleRef) (lk : list RakeCycle.t) : list RakeCycle.t :=
  match passingThrough qq with
  | [] => lk
  | _ =>
      let selected := map upper (passingThrough qq) in
      fold_left (fun lk rc => update rc (passing_rakecycle h qq selected) lk)
                refs lk
  end.

(** The body of the loop of [applyACFilter]. *)
Definition ac_rakecycle (mode : string) (r : RakeCycle.t) : RakeCycle.t :=
  match RakeCycle.rake r with
  | None => RakeCycle.set_render false r
  | Some k =>
      if String.eqb mode "ac" && negb (Rake.isAC k)
      then RakeCycle.set_render false r
      else if String.eqb mode "nonac" && Rake.isAC k
      then RakeCycle.set_render false r
      else r
  end.

Definition applyACFilter (qq : FilterQuery) (refs : list RakeCycleRef)
    (lk : list RakeCycle.t) : list RakeCycle.t :=
  match ac qq with
  | None => lk
  | Some mode =>
      if String.eqb mode "all" then lk
      else fold_left (fun lk rc => update rc (ac_rakecycle mode) lk) refs lk
  end.

Definition applyLinkFilters (qq : FilterQuery) (wtt : TimeTable)
  : result TimeTable :=
  lk <- applyTerminalStationFilters (services wtt) (startStation qq)
          (endStation qq) (rakecycles wtt) (links wtt) ;;
  let lk := applyPassingThroughFilter (services wtt) qq (rakecycles wtt) lk in
  let lk := applyACFilter qq (rakecycles wtt) lk in
  Ok (with_links lk wtt).

End LinkFilters.

Module StationFilters.

(** The flag of an event: it has a time, and the time is in the
    window. *)
Definition shown_at (p : Z * Z) (t : option Q) : bool :=
  match t with
  | None => false
  | Some t => Qle_bool (inject_Z (fst p)) t && Qle_bool t (inject_Z (snd p))
  end.

Definition station_event (p : Z * Z) (e : StationEvent.t) : StationEvent.t :=
  StationEvent.set_render (shown_at p (StationEvent.atTime e)) e.

(** The body of the loop over [suburbanServices]. *)
Definition station_service (qq : FilterQuery) (p : Z * Z) (svc : Service.t)
  : Service.t :=
  let svc := Service.set_render true svc in
  match Service.events svc with
  | [] => Service.set_render false svc
  | _ =>
      let svc :=
        Service.set_events (map (station_event p) (Service.events svc)) svc in
      Service.set_render
        (ServiceOps.checkACConstraint svc qq (Service.render svc)) svc
  end.

Definition applyStationFilters (qq : FilterQuery) (wtt : TimeTable)
  : result TimeTable :=
  p <- ServiceOps.unpack_period qq ;;
  let lk := fold_left (fun lk rc => update rc (RakeCycle.set_render true) lk)
              (rakecycles wtt) (links wtt) in
  let h := fold_left (fun h s => update s (station_service qq p) h)
             (suburbanServices wtt) (services wtt) in
  Ok (with_services h (with_links lk wtt)).

End StationFilters.

(* ================================================================== *)
(** * The AC states: [storeOriginalACStates], [resetACStates] and
      [Simulator.convertRakeLinksToAC] *)
(* ================================================================== *)

Module ACStates.

(** [self.originalACStates] *)
Definition States := Dict (K := string) (V := bool).

(** [f"svc_{svc.serviceId[0]}"] *)
Definition svc_key (id : Id) : string := ("svc_" ++ str id)%string.

(** [rc.servicePath if rc.servicePath else []] *)
Definition path_or_empty (r : RakeCycle.t) : list ServiceRef :=
  match RakeCycle.servicePath r with
  | Some p => p
  | None => []
  end.

Definition set_isAC (b : bool) (k : Rake.t) : Rake.t :=
  Rake.mk (Rake.rakeId k) b (Rake.rakeSize k).

Definition set_needsACRake (b : bool) (s : Service.t) : Service.t :=
  Service.mk (Service.rawServiceCol s) (Service.serviceId s)
    (Service.direction s) (Service.rakeSizeReq s) b (Service.linkedTo s)
    (Service.initStation s) (Service.finalStation s) (Service.events s)
    (Service.lengthKm s) (Service.render s).

(** ** [storeOriginalACStates] *)

Definition store_service (h : list Service.t) (s : ServiceRef) (st : States)
  : result States :=
  k <- firstId (svcAt h s) ;;
  Ok (dict_set String.eqb (svc_key k) (Service.needsACRake (svcAt h s)) st).

Definition store_rakecycle (h : list Service.t) (r : RakeCycle.t)
    (st : States) : result States :=
  let st := match RakeCycle.rake r with
            | Some k =>
                dict_set String.eqb (RakeCycle.linkName r) (Rake.isAC k) st
            | None => st
            end in
  for_each (path_or_empty r) (store_service h) st.

Definition store_step (wtt : TimeTable) (rc : RakeCycleRef) (st : States)
  : result States :=
  store_rakecycle (services wtt) (rcAt (links wtt) rc) st.

Definition storeOriginalACStates (wtt : TimeTable) : result States :=
  for_each (rakecycles wtt) (store_step wtt) [].

(** ** [resetACStates]; [original] is [None] when the attribute does not
    exist *)

Definition reset_rake (st : States) (r : RakeCycle.t) : RakeCycle.t :=
  match RakeCycle.rake r with
  | Some k =>
      match dict_get String.eqb (RakeCycle.linkName r) st with
      | Some b => RakeCycle.set_rake (set_isAC b k) r
      | None => r
      end
  | None => r
  end.

Definition reset_service (st : States) (s : ServiceRef)
    (h : list Service.t) : result (list Service.t) :=
  k <- firstId (svcAt h s) ;;
  match dict_get String.eqb (svc_key k) st with
  | Some b => Ok (update s (set_needsACRake b) h)
  | None => Ok h
  end.

Definition reset_rakecycle (st : States) (rc : RakeCycleRef)
    (wtt : TimeTable) : result TimeTable :=
  let wtt := with_links (update rc (reset_rake st) (links wtt)) wtt in
  match RakeCycle.servicePath (rcAt (links wtt) rc) with
  | Some ((_ :: _) as path) =>
      h <- for_each path (reset_service st) (services wtt) ;;
      Ok (with_services h wtt)
  | _ => Ok wtt
  end.

Definition resetACStates (original : option States) (wtt : TimeTable)
  : result TimeTable :=
  match original with
  | None => Ok wtt
  | Some st => for_each (rakecycles wtt) (reset_rakecycle st) wtt
  end.

(** ** [convertRakeLinksToAC]; the result is the table and the list
    [converted] *)

Definition convert_services (path : list ServiceRef) (h : list Service.t)
  : list Service.t :=
  fold_left (fun h s => update s (set_needsACRake true) h) path h.

Definition convert_rakecycle (link_names : list string) (rc : RakeCycleRef)
    (st : TimeTable * list string) : result (TimeTable * list string) :=
  let '(wtt, converted) := st in
  let r := rcAt (links wtt) rc in
  if existsb (String.eqb (RakeCycle.linkName r)) link_names then
    let already := match RakeCycle.rake r with
                   | Some k => Rake.isAC k
                   | None => false
                   end in
    if already then Ok st
    else
      let lk := match RakeCycle.rake r with
                | Some k =>
                    update rc (RakeCycle.set_rake (set_isAC true k))
                           (links wtt)
                | None => links wtt
                end in
      match RakeCycle.servicePath r with
      | None => Raise TypeError
      | Some path =>
          Ok (with_services (convert_services path (services wtt))
                (with_links lk wtt),
              converted ++ [RakeCycle.linkName r])
      end
  else Ok st.

Definition convertRakeLinksToAC (link_names : list string) (wtt : TimeTable)
  : result (TimeTable * list string) :=
  match link_names with
  | [] => Ok (wtt, [])
  | _ => for_each (rakecycles wtt) (convert_rakecycle link_names) (wtt, [])
  end.

End ACStates.

(* ================================================================== *)
(** * [TimeTableParser.isolateSuburbanServices] *)
(* ================================================================== *)

Module Suburban.




End Suburban.

(* ================================================================== *)
(** * Further definitions used by the statements *)
(* ================================================================== *)

Module Stmt.

(** The hour that [fmt_time] shows for a clock value: the hours before
    02:45 belong to the next day and show as 24, 25 and 26. *)
Definition shown_hour (h m : Z) : Z :=
  if h * 60 + m <? 165 then h + 24 else h.

(** What follows the hour in a text that [rTimePattern] accepts: minutes,
    and possibly seconds. *)
Definition clock_tail (r : string) : Prop :=
  exists m1 m2,
    in_range 48 53 m1 = true /\ is_digit m2 = true /\
    (r = String ":" (String m1 (String m2 EmptyString)) \/
     exists s1 s2,
       in_range 48 53 s1 = true /\ is_digit s2 = true /\
       r = String ":" (String m1 (String m2
             (String ":" (String s1 (String s2 EmptyString)))))).

Definition no_blank (s : string) : Prop :=
  Aux.all_chars (fun c => negb (is_space c)) s = true.

(** The way from chainage [d] through the chainages [ds], and the way
    along a list of chainages. *)
Fixpoint deltas (d : Q) (ds : list Q) : Q :=
  match ds with
  | [] => 0
  | d' :: r => Qabs (d - d') + deltas d' r
  end.

Definition way (ds : list Q) : Q :=
  match ds with
  | [] => 0
  | d :: r => deltas d r
  end.

(** The validation pass reaches a decision for the rake cycle [rc]: its
    chain can be read and the comparison does not fail. *)
Definition decided (wtt : TimeTable) (rc : RakeCycleRef) : Prop :=
  exists w c,
    Reconciler.wttPathOf wtt (rcAt (links wtt) rc) = Ok w /\
    Reconciler.conflicts (RakeCycle.serviceIds (rcAt (links wtt) rc)) w
    = Ok c.

(** The decision is: conflict. *)
Definition disagrees (wtt : TimeTable) (rc : RakeCycleRef) : bool :=
  match Reconciler.wttPathOf wtt (rcAt (links wtt) rc) with
  | Ok w =>
      match Reconciler.conflicts
              (RakeCycle.serviceIds (rcAt (links wtt) rc)) w with
      | Ok c => c
      | Raise _ => false
      end
  | Raise _ => false
  end.

(** What a service contributes to the [allServices] of [fixPath]: it is
    a suburban service, filed under the text of its first identifier. *)
Definition keyed_by_first_id (wtt : TimeTable) (key : string)
    (r : ServiceRef) : Prop :=
  In r (suburbanServices wtt) /\
  exists k, firstId (svcAt (services wtt) r) = Ok k /\ str k = key.

(** The service [a] may stand before the service [b] in the sorted list
    of suburban services. *)
Definition in_key_order (h : list Service.t) (a b : ServiceRef) : Prop :=
  exists ka kb,
    firstId (svcAt h a) = Ok ka /\ firstId (svcAt h b) = Ok kb /\
    Reconciler.key_le ka kb = true.

(** The order of the keyed entries that the sort works on. *)
Definition keyed_le (p q : Id * ServiceRef) : Prop :=
  Reconciler.key_le (fst p) (fst q) = true.

(** Some event of the list names the station [st]. *)
Definition calls_at (el : list StationEvent.t) (st : string) : bool :=
  existsb
    (fun e =>
       negb (str_falsy (StationEvent.atStation e)) &&
       String.eqb (upper (strip (StationEvent.atStation e))) st)
    el.

(** What the rake cycle filter asks of a rake cycle: a path whose first
    and last events are at the queried terminals, events (inside the
    time window) at every queried station, named once each, and a rake
    of the queried kind. *)
Definition ac_shown (qq : FilterQuery) (r : RakeCycle.t) : Prop :=
  match ac qq with
  | None => True
  | Some mode =>
      String.eqb mode "all" = true \/
      exists k, RakeCycle.rake r = Some k /\
        (mode = "ac" -> Rake.isAC k = true) /\
        (mode = "nonac" -> Rake.isAC k = false)
  end.

Definition passing_shown (h : list Service.t) (qq : FilterQuery)
    (path : list ServiceRef) : Prop :=
  passingThrough qq = [] \/
  (NoDup (map upper (passingThrough qq)) /\
   forall st, In st (map upper (passingThrough qq)) ->
     calls_at (LinkFilters.windowed (inTimePeriod qq)
                 (LinkFilters.path_events h path)) st = true).

Definition link_shown (h : list Service.t) (qq : FilterQuery)
    (r : RakeCycle.t) : Prop :=
  exists path first last,
    RakeCycle.servicePath r = Some path /\ path <> [] /\
    LinkFilters.first_station h path = Ok first /\
    LinkFilters.last_station h path = Ok last /\
    LinkFilters.misses (startStation qq) first = false /\
    LinkFilters.misses (endStation qq) last = false /\
    passing_shown h qq path /\
    ac_shown qq r.

(** The service [s] is on the path of a listed rake cycle. *)
Definition on_listed_path (wtt : TimeTable) (s : ServiceRef) : Prop :=
  exists rc, In rc (rakecycles wtt) /\
             In s (ACStates.path_or_empty (rcAt (links wtt) rc)).

(** The keys under which the AC states are stored tell the stored
    values apart: listed rake cycles with the same name have rakes of
    the same kind, services on listed paths whose first identifiers read
    the same have the same requirement, and no name of a listed rake
    cycle begins with [svc_]. *)
Definition ac_keys_consistent (wtt : TimeTable) : Prop :=
  (forall rc rc' k k',
     In rc (rakecycles wtt) -> In rc' (rakecycles wtt) ->
     RakeCycle.rake (rcAt (links wtt) rc) = Some k ->
     RakeCycle.rake (rcAt (links wtt) rc') = Some k' ->
     RakeCycle.linkName (rcAt (links wtt) rc)
     = RakeCycle.linkName (rcAt (links wtt) rc') ->
     Rake.isAC k = Rake.isAC k') /\
  (forall s s' id id',
     on_listed_path wtt s -> on_listed_path wtt s' ->
     firstId (svcAt (services wtt) s) = Ok id ->
     firstId (svcAt (services wtt) s') = Ok id' ->
     str id = str id' ->
     Service.needsACRake (svcAt (services wtt) s)
     = Service.needsACRake (svcAt (services wtt) s')) /\
  (forall rc, In rc (rakecycles wtt) ->
     RakeCycle.rake (rcAt (links wtt) rc) <> None ->
     String.prefix "svc_" (RakeCycle.linkName (rcAt (links wtt) rc)) = false).

(** The stored value under [key] is right for every object filed under
    that key. *)
Definition right_state (wtt : TimeTable) (key : string) (v : bool) : Prop :=
  (forall rc k, In rc (rakecycles wtt) ->
     RakeCycle.rake (rcAt (links wtt) rc) = Some k ->
     RakeCycle.linkName (rcAt (links wtt) rc) = key -> Rake.isAC k = v) /\
  (forall s id, on_listed_path wtt s ->
     firstId (svcAt (services wtt) s) = Ok id ->
     ACStates.svc_key id = key ->
     Service.needsACRake (svcAt (services wtt) s) = v).

(** Every stored value is right. *)
Definition all_right (wtt : TimeTable) (st : ACStates.States) : Prop :=
  forall key v, dict_get String.eqb key st = Some v -> right_state wtt key v.

(** [a] is [b] but for the AC flag. *)
Definition service_but_ac (a b : Service.t) : Prop :=
  ACStates.set_needsACRake (Service.needsACRake b) a = b.

Definition rake_but_ac (a b : option Rake.t) : Prop :=
  match a, b with
  | Some k, Some k' => ACStates.set_isAC (Rake.isAC k') k = k'
  | None, None => True
  | _, _ => False
  end.

Definition link_but_ac (a b : RakeCycle.t) : Prop :=
  rake_but_ac (RakeCycle.rake a) (RakeCycle.rake b) /\
  RakeCycle.mk (RakeCycle.linkName a) (RakeCycle.status a)
    (RakeCycle.serviceIds a) (RakeCycle.undefinedIds a)
    (RakeCycle.servicePath a) (RakeCycle.rake b) (RakeCycle.render a)
    (RakeCycle.lengthKm a) = b.

(** [wtt1] is [wtt] but for AC flags of listed rake cycles and of
    services on their paths. *)
Definition ac_variant (wtt wtt1 : TimeTable) : Prop :=
  stations wtt1 = stations wtt /\
  suburbanServices wtt1 = suburbanServices wtt /\
  rakecycles wtt1 = rakecycles wtt /\
  allCyclesWtt wtt1 = allCyclesWtt wtt /\
  conflictingLinks wtt1 = conflictingLinks wtt /\
  List.length (links wtt1) = List.length (links wtt) /\
  List.length (services wtt1) = List.length (services wtt) /\
  (forall rc, link_but_ac (rcAt (links wtt1) rc) (rcAt (links wtt) rc)) /\
  (forall rc, ~ In rc (rakecycles wtt) ->
     rcAt (links wtt1) rc = rcAt (links wtt) rc) /\
  (forall s, service_but_ac (svcAt (services wtt1) s)
               (svcAt (services wtt) s)) /\
  (forall s, ~ on_listed_path wtt s ->
     svcAt (services wtt1) s = svcAt (services wtt) s).

(** The events at the station [st], and the last of them. *)
Definition calls_of (events : list StationEvent.t) (st : string)
  : list StationEvent.t :=
  filter (fun e => String.eqb (StationEvent.atStation e) st) events.

Definition last_call (events : list StationEvent.t) (st : string)
  : option StationEvent.t :=
  match rev (calls_of events st) with
  | [] => None
  | e :: _ => Some e
  end.

(** The service calls at [st], and its last call there is inside the
    window. *)
Definition last_call_within (p : Z * Z) (events : list StationEvent.t)
    (st : string) : bool :=
  match last_call events st with
  | Some e => StationFilters.shown_at p (StationEvent.atTime e)
  | None => false
  end.

(** What sequencing leaves on a service. *)
Definition sequenced (s : Service.t) : Prop :=
  Service.events s <> [] /\ Service.lengthKm s <> None /\
  Service.initStation s <> None /\ Service.finalStation s <> None.

(** A service as the later passes need it: with an identifier, events,
    terminal stations and a length. *)
Definition service_ready (s : Service.t) : Prop :=
  Service.serviceId s <> [] /\ Service.events s <> [] /\
  Service.lengthKm s <> None /\
  Service.initStation s <> None /\ Service.finalStation s <> None.

(** A rake cycle as the later passes need it: with a path of ready
    services and a rake. *)
Definition rakecycle_ready (wtt : TimeTable) (rc : RakeCycleRef) : Prop :=
  exists path k,
    RakeCycle.servicePath (rcAt (links wtt) rc) = Some path /\
    RakeCycle.rake (rcAt (links wtt) rc) = Some k /\
    forall s, In s path -> service_ready (svcAt (services wtt) s).

Definition shows_back (h m : Z) : bool :=
  String.eqb (Display.fmt_time (_timeToMinutes (clockHM h m)))
             (clockHM (shown_hour h m) m).

End Stmt.

(* ================================================================== *)
(** * Further concrete inputs *)
(* ================================================================== *)

Module Cases.

(** The two linked services with their chain, and a rake cycle that
    declares two more entries than the chain has. *)
Definition linked_conflict : TimeTable :=
  mkTimeTable [Inputs.plain15; Inputs.ac15; Inputs.ety1; Inputs.ety2]
    [RakeCycle.set_servicePath (Some [0; 1]%nat)
       (RakeCycle.parsed "A"
          [IdInt 93001; IdInt 93002; IdStr "ETY 1"; IdStr "ETY 2"] [])]
    [] [0; 1; 2; 3]%nat [0%nat] [[0; 1]%nat] [].

(** A listed rake cycle that has no path. *)
Definition pathless : TimeTable :=
  mkTimeTable [Inputs.plain15; Inputs.ac15]
    [RakeCycle.parsed "A" [IdInt 93001] []] [] [0; 1]%nat [0%nat] [] [].

(** A service that rolls into nothing and that nothing rolls into, and a
    rake cycle that consists of it; the chain of the two linked services
    is there as well. *)
Definition lone : Service.t :=
  Service.extracted [] [IdInt 93005] UP None false None.

Definition lone_table : TimeTable :=
  mkTimeTable [Inputs.plain15; Inputs.ac15; lone]
    [RakeCycle.parsed "B" [IdInt 93005] []] [] [0; 1; 2]%nat [0%nat]
    [[0; 1]%nat] [].

(** A rake cycle that starts in the middle of the chain of the two
    linked services. *)
Definition mid_chain : TimeTable :=
  mkTimeTable [Inputs.plain15; Inputs.ac15]
    [RakeCycle.parsed "C" [IdInt 93002] []] [] [0; 1]%nat [0%nat]
    [[0; 1]%nat] [].

(** Two services that state no successor, and a rake cycle over them. *)
Definition unlinked : TimeTable :=
  mkTimeTable [Inputs.ac15; lone]
    [RakeCycle.parsed "D" [IdInt 93002; IdInt 93005] []] [] [0; 1]%nat
    [0%nat] [] [].

(** Queries of the rake cycle filter: from Dadar through Bandra, and one
    that names Dadar twice. *)
Definition through_bandra : FilterQuery :=
  mkQuery (Some "Dadar") None ["Bandra"] (Some (165, 1605)) None None.

Definition dadar_twice : FilterQuery :=
  mkQuery None None ["Dadar"; "DADAR"] (Some (165, 1605)) None None.

(** An event whose cell carried a date, so that it has no time. *)
Definition dated_service : Service.t :=
  Service.set_events
    [Inputs.event_at "DADAR" "12/25/2024 08:00";
     Inputs.event_at "BANDRA" "08:10"; Inputs.event_at "ANDHERI" "02:50"]
    (Service.extracted [] [IdInt 93007] UP (Some 12) false None).

Definition dated_table : TimeTable :=
  mkTimeTable [dated_service; Inputs.ety1] [Inputs.mixed_link] Inputs.network
    [0; 1]%nat [0%nat] [] [].

Definition morning : FilterQuery :=
  mkQuery None None [] (Some (420, 600)) None None.

(** The two linked services under a rake cycle that has its rake. *)
Definition raked : TimeTable :=
  mkTimeTable [Inputs.plain15; Inputs.ac15]
    [RakeCycle.set_rake (Rake.mk 0 false 15) Inputs.mixed_link] []
    [0; 1]%nat [0%nat] [[0; 1]%nat] [].

(** A service that calls at Dadar in the morning and again at noon, and
    a query for services through Dadar in the morning. *)
Definition there_and_back : Service.t :=
  Service.set_events
    [Inputs.event_at "DADAR" "08:00"; Inputs.event_at "BANDRA" "08:10";
     Inputs.event_at "DADAR" "12:00"]
    (Service.extracted [] [IdInt 93009] UP (Some 12) false None).

Definition via_dadar_morning : FilterQuery :=
  mkQuery None None ["Dadar"] (Some (420, 600)) None None.

(** A service that has been sequenced already. *)
Definition sequenced_once : Service.t :=
  Service.set_events [Inputs.event_at "CHURCHGATE" "08:50"]
    (Service.extracted ["09:00"; "09:01"; "09:05"] [IdInt 93001] UP
       (Some 15) false None).

(** A small timetable that goes through [generateRakeCycles]: an up and
    a down service with a dwell at Dadar, linked, under one rake
    cycle. *)
Definition up_column : Service.t :=
  Service.extracted ["09:00"; "09:01"; "09:05"] [IdInt 93001] UP (Some 15)
    false (Some "93002").

Definition down_column : Service.t :=
  Service.extracted ["09:30"; "09:31"; "09:35"] [IdInt 93002] DOWN None
    true None.

Definition fresh_table : TimeTable :=
  mkTimeTable [up_column; down_column]
    [RakeCycle.parsed "A" [IdInt 93001; IdInt 93002] []] Inputs.network
    [0; 1]%nat [0%nat] [] [].

Definition fresh_sheets : list Sheet :=
  [Inputs.dwell_sheet; Inputs.dwell_sheet].

End Cases.

Unset Implicit Arguments.

(* ================================================================== *)
(** * Properties of the time codec *)
(* ================================================================== *)

Section CharacterFacts.

Lemma in_range_spec lo hi c :
  in_range lo hi c = true <-> (lo <= code c <= hi)%nat.
Proof.
  unfold in_range.
  rewrite andb_true_iff, !Nat.leb_le. tauto.
Qed.

Lemma digit_val_range lo hi c :
  in_range lo hi c = true ->
  Z.of_nat lo - 48 <= digit_val c <= Z.of_nat hi - 48.
Proof.
  rewrite in_range_spec. unfold digit_val. lia.
Qed.

Lemma digit_val_digit c : is_digit c = true -> 0 <= digit_val c <= 9.
Proof.
  intros H. apply (digit_val_range 48 57) in H. simpl in H. lia.
Qed.

End CharacterFacts.

Section DirectiveBounds.

(** A directive yields a number below [bound] when its two-digit forms
    do and [bound] leaves room for a single digit. *)
Variable two : ascii -> ascii -> bool.
Variable bound : Z.
Hypothesis bound_digit : 9 <= bound.
Hypothesis two_bound :
  forall c1 c2, is_digit c1 = true -> is_digit c2 = true ->
    two c1 c2 = true -> digit_val c1 * 10 + digit_val c2 <= bound.

Lemma directive_bound s v r :
  directive two s = Some (v, r) -> 0 <= v <= bound.
Proof using bound_digit two_bound.
  destruct s as [|c1 [|c2 s]]; unfold directive; try discriminate.
  - destruct (is_digit c1) eqn:D1; try discriminate.
    intros [= <- _]. apply digit_val_digit in D1. lia.
  - destruct (is_digit c1) eqn:D1; cbn [andb]; try discriminate.
    destruct (is_digit c2) eqn:D2; cbn [andb].
    + destruct (two c1 c2) eqn:T.
      * intros [= <- _]. specialize (two_bound _ _ D1 D2 T).
        apply digit_val_digit in D1, D2. lia.
      * intros [= <- _]. apply digit_val_digit in D1. lia.
    + intros [= <- _]. apply digit_val_digit in D1. lia.
Qed.

End DirectiveBounds.

Lemma two_H_bound c1 c2 :
  is_digit c1 = true -> is_digit c2 = true -> two_H c1 c2 = true ->
  digit_val c1 * 10 + digit_val c2 <= 23.
Proof.
  intros _ D2. unfold two_H.
  rewrite orb_true_iff, andb_true_iff. intros [[E R]|R].
  - apply Ascii.eqb_eq in E. subst c1.
    apply (digit_val_range 48 51) in R.
    change (digit_val "2") with 2. simpl in R. lia.
  - apply (digit_val_range 48 49) in R. apply digit_val_digit in D2.
    simpl in R. lia.
Qed.

Lemma two_M_bound c1 c2 :
  is_digit c1 = true -> is_digit c2 = true -> two_M c1 c2 = true ->
  digit_val c1 * 10 + digit_val c2 <= 59.
Proof.
  intros _ D2 R. unfold two_M in R.
  apply (digit_val_range 48 53) in R. apply digit_val_digit in D2.
  simpl in R. lia.
Qed.

Lemma two_S_bound c1 c2 :
  is_digit c1 = true -> is_digit c2 = true -> two_S c1 c2 = true ->
  digit_val c1 * 10 + digit_val c2 <= 61.
Proof.
  intros _ D2. unfold two_S.
  rewrite orb_true_iff, andb_true_iff. intros [[E R]|R].
  - apply Ascii.eqb_eq in E. subst c1.
    apply (digit_val_range 48 49) in R.
    change (digit_val "6") with 6. simpl in R. lia.
  - apply (digit_val_range 48 53) in R. apply digit_val_digit in D2.
    simpl in R. lia.
Qed.

Lemma strptime_HMS_bounds s h m sec :
  strptime_HMS s = Some (h, m, sec) ->
  0 <= h <= 23 /\ 0 <= m <= 59 /\ 0 <= sec <= 59.
Proof.
  unfold strptime_HMS.
  destruct (directive two_H s) as [[h' s1]|] eqn:H; try discriminate.
  destruct (colon s1) as [s2|]; try discriminate.
  destruct (directive two_M s2) as [[m' s3]|] eqn:M; try discriminate.
  destruct (colon s3) as [s4|]; try discriminate.
  destruct (directive two_S s4) as [[sec' [|? ?]]|] eqn:S; try discriminate.
  destruct (sec' <=? 59) eqn:L; try discriminate.
  intros [= <- <- <-].
  apply directive_bound with (bound := 23) in H;
    [|lia|exact two_H_bound].
  apply directive_bound with (bound := 59) in M;
    [|lia|exact two_M_bound].
  apply Z.leb_le in L.
  apply directive_bound with (bound := 61) in S;
    [|lia|exact two_S_bound].
  lia.
Qed.

Lemma strptime_HM_bounds s h m sec :
  strptime_HM s = Some (h, m, sec) ->
  0 <= h <= 23 /\ 0 <= m <= 59 /\ sec = 0.
Proof.
  unfold strptime_HM.
  destruct (directive two_H s) as [[h' s1]|] eqn:H; try discriminate.
  destruct (colon s1) as [s2|]; try discriminate.
  destruct (directive two_M s2) as [[m' [|? ?]]|] eqn:M; try discriminate.
  intros [= <- <- <-].
  apply directive_bound with (bound := 23) in H;
    [|lia|exact two_H_bound].
  apply directive_bound with (bound := 59) in M;
    [|lia|exact two_M_bound].
  lia.
Qed.

Lemma parseClock_bounds time_str h m sec :
  parseClock time_str = Some (h, m, sec) ->
  0 <= h <= 23 /\ 0 <= m <= 59 /\ 0 <= sec <= 59.
Proof.
  unfold parseClock.
  destruct (strptime_HMS (strip time_str)) as [t|] eqn:E.
  - intros [= ->]. now apply strptime_HMS_bounds in E.
  - intros E'. apply strptime_HM_bounds in E'. lia.
Qed.

(** A parsed clock value lies within one calendar day. *)
Lemma minutesSinceMidnight_range h m sec :
  0 <= h <= 23 -> 0 <= m <= 59 -> 0 <= sec <= 59 ->
  (0 <= minutesSinceMidnight (h, m, sec) /\
   minutesSinceMidnight (h, m, sec) < 1440)%Q.
Proof.
  intros Hh Hm Hs. unfold minutesSinceMidnight.
  assert (A : (0 <= inject_Z (h * 60 + m) <= 1439)%Q).
  { split; [change 0%Q with (inject_Z 0)|change 1439%Q with (inject_Z 1439)];
      rewrite <- Zle_Qle; lia. }
  assert (B : (0 <= inject_Z sec <= 59)%Q).
  { split; [change 0%Q with (inject_Z 0)|change 59%Q with (inject_Z 59)];
      rewrite <- Zle_Qle; lia. }
  unfold Qdiv. change (/ 60)%Q with (1 # 60)%Q. lra.
Qed.

Lemma Qlt_bool_iff a b : Qlt_bool a b = true <-> (a < b)%Q.
Proof.
  unfold Qlt_bool. rewrite negb_true_iff.
  destruct (Qle_bool b a) eqn:E.
  - apply Qle_bool_iff in E. split; [discriminate|]. intros H.
    exfalso. apply (Qlt_not_le _ _ H E).
  - split; [intros _|reflexivity].
    apply Qnot_le_lt. intros H. apply Qle_bool_iff in H. congruence.
Qed.

Lemma wrapAround_spec x :
  ((x < 165 -> wrapAround x == x + 1440) /\
   (165 <= x -> wrapAround x == x))%Q.
Proof.
  unfold wrapAround. destruct (Qlt_bool x 165) eqn:E.
  - apply Qlt_bool_iff in E. split; intros; [reflexivity|lra].
  - split; intros H; [|reflexivity].
    apply Qlt_bool_iff in H. congruence.
Qed.

(** The codec returns a value exactly when the text parses. *)
Lemma timeToMinutes_parse time_str :
  _timeToMinutes time_str =
  option_map (fun t => wrapAround (minutesSinceMidnight t))
             (parseClock time_str).
Proof.
  unfold _timeToMinutes. destruct time_str; reflexivity.
Qed.

Lemma In_Zrange n x : 0 <= x < Z.of_nat n -> In x (Aux.Zrange n).
Proof.
  intros H. unfold Aux.Zrange. apply in_map_iff.
  exists (Z.to_nat x). split; [lia|]. apply in_seq. lia.
Qed.

Lemma rstrip_no_blank s :
  Aux.all_chars (fun c => negb (is_space c)) s = true -> rstrip s = s.
Proof.
  induction s as [|c r IH]; [reflexivity|].
  simpl. rewrite andb_true_iff, negb_true_iff. intros [Hc Hr].
  rewrite (IH Hr). destruct r; [now rewrite Hc|reflexivity].
Qed.

Lemma strip_no_blank s :
  Aux.all_chars (fun c => negb (is_space c)) s = true -> strip s = s.
Proof.
  intros H. unfold strip.
  assert (L : lstrip s = s).
  { destruct s as [|c r]; [reflexivity|]. simpl in *.
    apply andb_true_iff in H as [Hc _]. apply negb_true_iff in Hc.
    now rewrite Hc. }
  rewrite L. now apply rstrip_no_blank.
Qed.

Section TwoDigitFields.

Variable two : ascii -> ascii -> bool.
Variable bound : nat.
Hypothesis fields_ok : forallb (Aux.field_ok two) (Aux.Zrange bound) = true.

Lemma field_ok_at n :
  0 <= n < Z.of_nat bound -> Aux.field_ok two n = true.
Proof using fields_ok.
  intros H. rewrite forallb_forall in fields_ok.
  apply fields_ok. now apply In_Zrange.
Qed.

Lemma directive_two_digits n rest :
  0 <= n < Z.of_nat bound ->
  directive two
    (String (digit_char (n / 10)) (String (digit_char (n mod 10)) rest))
  = Some (n, rest).
Proof using fields_ok.
  intros H. pose proof (field_ok_at _ H) as F. unfold Aux.field_ok in F.
  rewrite !andb_true_iff in F. destruct F as [[[[[D1 D2] T] E] _] _].
  unfold directive. rewrite D1, D2, T. cbn [andb].
  apply Z.eqb_eq in E. now rewrite E.
Qed.

Lemma two_digits_no_blank n :
  0 <= n < Z.of_nat bound ->
  is_space (digit_char (n / 10)) = false /\
  is_space (digit_char (n mod 10)) = false.
Proof using fields_ok.
  intros H. pose proof (field_ok_at _ H) as F. unfold Aux.field_ok in F.
  rewrite !andb_true_iff, !negb_true_iff in F. tauto.
Qed.

End TwoDigitFields.

Lemma hours_ok : forallb (Aux.field_ok two_H) (Aux.Zrange 24) = true.
Proof. vm_compute. reflexivity. Qed.

Lemma minutes_ok : forallb (Aux.field_ok two_M) (Aux.Zrange 60) = true.
Proof. vm_compute. reflexivity. Qed.

Lemma seconds_ok : forallb (Aux.field_ok two_S) (Aux.Zrange 60) = true.
Proof. vm_compute. reflexivity. Qed.

Lemma two_digits_app n rest :
  (two_digits n ++ rest)%string =
  String (digit_char (n / 10)) (String (digit_char (n mod 10)) rest).
Proof. reflexivity. Qed.

(** Every clock value of the day, written [HH:MM], parses. *)
Lemma parseClock_clockHM h m :
  0 <= h < 24 -> 0 <= m < 60 -> parseClock (clockHM h m) = Some (h, m, 0).
Proof.
  intros Hh Hm.
  destruct (@two_digits_no_blank _ _ hours_ok h Hh) as [B1 B2].
  destruct (@two_digits_no_blank _ _ minutes_ok m Hm) as [B3 B4].
  unfold parseClock, clockHM. rewrite two_digits_app.
  rewrite strip_no_blank
    by (unfold two_digits; simpl; now rewrite B1, B2, B3, B4).
  unfold strptime_HMS, strptime_HM.
  rewrite (@directive_two_digits _ _ hours_ok _ _) by exact Hh.
  cbn [colon append]. unfold two_digits.
  rewrite (@directive_two_digits _ _ minutes_ok _ _) by exact Hm.
  reflexivity.
Qed.

(** And so does every clock value written [HH:MM:SS]. *)
Lemma parseClock_clockHMS h m sec :
  0 <= h < 24 -> 0 <= m < 60 -> 0 <= sec < 60 ->
  parseClock (clockHMS h m sec) = Some (h, m, sec).
Proof.
  intros Hh Hm Hs.
  destruct (@two_digits_no_blank _ _ hours_ok h Hh) as [B1 B2].
  destruct (@two_digits_no_blank _ _ minutes_ok m Hm) as [B3 B4].
  destruct (@two_digits_no_blank _ _ seconds_ok sec Hs) as [B5 B6].
  unfold parseClock, clockHMS. rewrite two_digits_app.
  cbn [append]. rewrite two_digits_app.
  rewrite strip_no_blank
    by (unfold two_digits; simpl; now rewrite B1, B2, B3, B4, B5, B6).
  unfold strptime_HMS.
  rewrite (@directive_two_digits _ _ hours_ok _ _) by exact Hh.
  cbn [colon].
  rewrite (@directive_two_digits _ _ minutes_ok _ _) by exact Hm.
  cbn [colon append]. unfold two_digits.
  rewrite (@directive_two_digits _ _ seconds_ok _ _) by exact Hs.
  destruct (Z.leb_spec sec 59); [reflexivity|lia].
Qed.

(** C3. For every clock text that [strptime] parses as [%H:%M:%S] or
    [%H:%M], the codec returns the minutes since midnight plus 1440 when
    these are below 165 and unchanged when they are at least 165; a text
    that parses in neither format gives [None].  Every clock value of the
    day written [HH:MM] or [HH:MM:SS] is such a text; ["01:10"] maps to
    1510 and ["08:00"] to 480. *)
Theorem timeToMinutes_wraparound :
  (forall time_str t, parseClock time_str = Some t ->
     exists v, _timeToMinutes time_str = Some v /\
       (minutesSinceMidnight t < 165 ->
          v == minutesSinceMidnight t + 1440)%Q /\
       (165 <= minutesSinceMidnight t -> v == minutesSinceMidnight t)%Q) /\
  (forall time_str, parseClock time_str = None ->
     _timeToMinutes time_str = None) /\
  (forall h m, 0 <= h < 24 -> 0 <= m < 60 ->
     parseClock (clockHM h m) = Some (h, m, 0)) /\
  (forall h m sec, 0 <= h < 24 -> 0 <= m < 60 -> 0 <= sec < 60 ->
     parseClock (clockHMS h m sec) = Some (h, m, sec)) /\
  same_time (_timeToMinutes "01:10") (Some 1510%Q) /\
  same_time (_timeToMinutes "08:00") (Some 480%Q).
Proof.
  repeat split.
  - intros time_str t E. rewrite timeToMinutes_parse, E. simpl.
    eexists; split; [reflexivity|]. apply wrapAround_spec.
  - intros time_str E. now rewrite timeToMinutes_parse, E.
  - exact parseClock_clockHM.
  - exact parseClock_clockHMS.
Qed.

Lemma timeToMinutes_wraparound_witness :
  exists v, _timeToMinutes "01:10" = Some v /\ (v == 1510)%Q.
Proof.
  destruct timeToMinutes_wraparound as [H _].
  destruct (H "01:10" (1, 10, 0) eq_refl) as (v & E & Hlt & _).
  exists v. split; [exact E|].
  rewrite Hlt; reflexivity.
Defined.

(** C10. Whenever the codec returns a value, the value lies in the
    half-open interval [165, 1605). *)
Theorem timeToMinutes_range :
  forall time_str v, _timeToMinutes time_str = Some v ->
    (165 <= v /\ v < 1605)%Q.
Proof.
  intros time_str v. rewrite timeToMinutes_parse.
  destruct (parseClock time_str) as [[[h m] sec]|] eqn:E; [|discriminate].
  intros [= <-].
  apply parseClock_bounds in E as (Hh & Hm & Hs).
  destruct (minutesSinceMidnight_range _ _ _ Hh Hm Hs) as [L U].
  destruct (wrapAround_spec (minutesSinceMidnight (h, m, sec))) as [W1 W2].
  change (165 <= wrapAround (minutesSinceMidnight (h, m, sec)) /\
          wrapAround (minutesSinceMidnight (h, m, sec)) < 1605)%Q.
  revert L U W1 W2.
  generalize (wrapAround (minutesSinceMidnight (h, m, sec))).
  generalize (minutesSinceMidnight (h, m, sec)). intros x w L U W1 W2.
  destruct (Qlt_le_dec x 165%Q) as [C|C].
  - specialize (W1 C). lra.
  - specialize (W2 C). lra.
Qed.

Lemma timeToMinutes_range_witness :
  (165 <= 28800 # 60 /\ 28800 # 60 < 1605)%Q.
Proof.
  apply (timeToMinutes_range "08:00"). reflexivity.
Defined.

(* ================================================================== *)
(** * The electrification detector *)
(* ================================================================== *)

Section ACRequirement.

Import TimeTableParser.

Lemma keyword_cells_cons c cells :
  Aux.keyword_cells (c :: cells) =
  ((if has_AC_keyword (strip c) then 1 else 0) + Aux.keyword_cells cells)%nat.
Proof.
  unfold Aux.keyword_cells. cbn [filter].
  destruct (has_AC_keyword (strip c)); reflexivity.
Qed.

(** The loop answers [True] exactly when the counter has reached 1
    before some cell is looked at. *)
Lemma extractACRequirement_loop_spec col :
  forall isAC, isAC <= 1 ->
    (extractACRequirement_loop isAC col = true <->
     col <> [] /\ 1 - isAC <= Z.of_nat (Aux.keyword_cells (removelast col))).
Proof.
  induction col as [|c rest IH]; intros isAC Hk.
  - simpl. split; [discriminate|]. intros [H _]. now elim H.
  - cbn [extractACRequirement_loop].
    destruct (Z.eqb_spec isAC 1) as [->|Hne].
    + split; [intros _|reflexivity]. split; [discriminate|lia].
    + destruct rest as [|c' rest'].
      * change (Aux.keyword_cells (removelast [c])) with 0%nat.
        destruct (has_AC_keyword (strip c)); cbn [extractACRequirement_loop];
          (split; [discriminate|]); intros [_ H]; lia.
      * assert (R : Aux.keyword_cells (removelast (c :: c' :: rest')) =
                    ((if has_AC_keyword (strip c) then 1 else 0) +
                     Aux.keyword_cells (removelast (c' :: rest')))%nat).
        { change (removelast (c :: c' :: rest'))
            with (c :: removelast (c' :: rest')).
          apply keyword_cells_cons. }
        rewrite R.
        destruct (has_AC_keyword (strip c)).
        -- rewrite IH by lia. split; intros [_ H];
             (split; [discriminate|lia]).
        -- rewrite IH by lia. split; intros [_ H];
             (split; [discriminate|lia]).
Qed.

Lemma extractACRequirement_spec col :
  extractACRequirement col = true <->
  (2 <= Aux.keyword_cells (removelast col))%nat.
Proof.
  unfold extractACRequirement.
  rewrite extractACRequirement_loop_spec by lia.
  split.
  - intros [_ H]. lia.
  - intros H. split; [|lia].
    intros ->. change (Aux.keyword_cells (removelast [])) with 0%nat in H.
    lia.
Qed.

Lemma keyword_cells_removelast col :
  (Aux.keyword_cells (removelast col) <= Aux.keyword_cells col)%nat.
Proof.
  induction col as [|c [|c' rest] IH].
  - apply Nat.le_refl.
  - apply Nat.le_0_l.
  - change (removelast (c :: c' :: rest))
      with (c :: removelast (c' :: rest)).
    rewrite !(keyword_cells_cons c). lia.
Qed.

End ACRequirement.

(** C8, as stated, fails: two keyword cells do not set the requirement
    when the second is the last cell of the column, and keywords outside
    the six header cells count like those inside. *)
Lemma extractACRequirement_not_header_count :
  ~ (TimeTableParser.extractACRequirement Inputs.ac_in_last_cell = true <->
     (2 <= Aux.keyword_cells
             (TimeTableParser.idRegion Inputs.ac_in_last_cell))%nat) /\
  ~ (TimeTableParser.extractACRequirement Inputs.ac_below_header = true <->
     (2 <= Aux.keyword_cells
             (TimeTableParser.idRegion Inputs.ac_below_header))%nat).
Proof.
  split; intros [H1 H2].
  - assert (E : TimeTableParser.extractACRequirement Inputs.ac_in_last_cell
                = false) by reflexivity.
    rewrite H2 in E; [discriminate|].
    change (2 <= 2)%nat. lia.
  - assert (E : TimeTableParser.extractACRequirement Inputs.ac_below_header
                = true) by reflexivity.
    specialize (H1 E). change (2 <= 1)%nat in H1. lia.
Qed.

(** C8, amended. A column in which fewer than two cells carry an AC
    keyword never sets the requirement (one occurrence only arms the
    detector); a column in which two cells carry one and a further cell
    follows the second sets it.  The cells are those of the whole column. *)
Theorem extractACRequirement_two_hits :
  forall serviceCol,
    ((Aux.keyword_cells serviceCol < 2)%nat ->
       TimeTableParser.extractACRequirement serviceCol = false) /\
    ((2 <= Aux.keyword_cells (removelast serviceCol))%nat ->
       TimeTableParser.extractACRequirement serviceCol = true).
Proof.
  intros col. split.
  - intros H.
    destruct (TimeTableParser.extractACRequirement col) eqn:E; [|reflexivity].
    apply extractACRequirement_spec in E.
    pose proof (keyword_cells_removelast col). lia.
  - apply extractACRequirement_spec.
Qed.

Lemma extractACRequirement_two_hits_witness :
  TimeTableParser.extractACRequirement Inputs.ac_column = true /\
  TimeTableParser.extractACRequirement ["AC"; "12 CAR"] = false.
Proof.
  split.
  - apply (extractACRequirement_two_hits Inputs.ac_column).
    change (2 <= 2)%nat. lia.
  - apply (extractACRequirement_two_hits ["AC"; "12 CAR"]).
    change (1 < 2)%nat. lia.
Defined.

(* ================================================================== *)
(** * Sequences *)
(* ================================================================== *)

Section IndexFacts.

Context {A : Type}.

Lemma index_0_cons (x : A) l : index (x :: l) 0 = Ok x.
Proof.
  unfold index. cbn [Z.ltb Z.compare Z.leb].
  replace (0 <? Z.of_nat (List.length (x :: l))) with true; [reflexivity|].
  symmetry. apply Z.ltb_lt. cbn [List.length]. lia.
Qed.

Lemma index_last_snoc (l : list A) x : index (l ++ [x]) (-1) = Ok x.
Proof.
  unfold index. rewrite length_app. cbn [List.length Z.ltb Z.compare].
  replace (Z.of_nat (List.length l + 1) + -1) with (Z.of_nat (List.length l))
    by lia.
  destruct (Z.leb_spec 0 (Z.of_nat (List.length l))); [|lia].
  destruct (Z.ltb_spec (Z.of_nat (List.length l))
              (Z.of_nat (List.length l + 1))); [|lia].
  cbn [andb]. rewrite Nat2Z.id, nth_error_app2 by lia.
  now rewrite Nat.sub_diag.
Qed.

End IndexFacts.

(* ================================================================== *)
(** * Dictionaries *)
(* ================================================================== *)

Section DictFacts.

Context {K V : Type}.
Variable eqb : K -> K -> bool.
Hypothesis eqb_eq : forall a b, eqb a b = true <-> a = b.
Implicit Types (d : Dict (K := K) (V := V)) (k : K) (v : V).

Lemma eqb_refl k : eqb k k = true.
Proof using eqb_eq. now apply eqb_eq. Qed.

Lemma eqb_neq k k' : k <> k' -> eqb k k' = false.
Proof using eqb_eq.
  intros H. destruct (eqb k k') eqn:E; [|reflexivity].
  apply eqb_eq in E. contradiction.
Qed.

Lemma dict_get_in d k v : dict_get eqb k d = Some v -> In (k, v) d.
Proof using eqb_eq.
  induction d as [|[k' v'] d IH]; simpl; [discriminate|].
  destruct (eqb k' k) eqn:E.
  - apply eqb_eq in E. subst. intros [= ->]. now left.
  - intros H. right. now apply IH.
Qed.


Lemma dict_get_set_same d k v :
  dict_get eqb k (dict_set eqb k v d) = Some v.
Proof using eqb_eq.
  induction d as [|[k' v'] d IH]; simpl.
  - now rewrite eqb_refl.
  - destruct (eqb k' k) eqn:E; simpl; rewrite E; auto.
Qed.

Lemma dict_get_set_other d k k' v :
  k' <> k ->
  dict_get eqb k' (dict_set eqb k v d) = dict_get eqb k' d.
Proof using eqb_eq.
  intros Hne. induction d as [|[k0 v0] d IH]; simpl.
  - rewrite eqb_neq by congruence. reflexivity.
  - destruct (eqb k0 k) eqn:E; simpl.
    + apply eqb_eq in E. subst k0.
      rewrite eqb_neq by congruence. reflexivity.
    + destruct (eqb k0 k'); auto.
Qed.

(** What an assignment leaves in the dictionary was there before or is
    the assigned pair. *)
Lemma dict_set_in d k v k' v' :
  In (k', v') (dict_set eqb k v d) -> In (k', v') d \/ (k', v') = (k, v).
Proof using eqb_eq.
  induction d as [|[k0 v0] d IH]; simpl.
  - intros [H|[]]. right. now symmetry.
  - destruct (eqb k0 k) eqn:E; simpl.
    + apply eqb_eq in E. subst k0.
      intros [H|H]; [right; now symmetry|left; now right].
    + intros [H|H]; [left; now left|].
      destruct (IH H); [left; now right|now right].
Qed.

End DictFacts.

(* ================================================================== *)
(** * Length of a service *)
(* ================================================================== *)

Section LengthKm.

Import ServiceOps.

Lemma distance_chainage e d :
  Aux.chainage e = Some d -> distance (StationEvent.atStation e) = Ok d.
Proof. unfold Aux.chainage, distance. now intros ->. Qed.

(** The loop adds the deltas of the remaining events to what it has. *)
Lemma computeLengthKm_loop rest :
  forall ds l dprev,
    map Aux.chainage rest = map Some ds ->
    exists dlast,
      for_each rest add_delta (l, dprev)
      = Ok (fold_left Qplus
              (map (fun p => Qabs (fst p - snd p)) (combine (dprev :: ds) ds))
              l, dlast).
Proof.
  induction rest as [|e rest IH]; intros ds l dprev Hmap.
  - destruct ds; [|discriminate]. now exists dprev.
  - destruct ds as [|d ds]; [discriminate|].
    injection Hmap as He Hrest.
    destruct (IH ds (l + Qabs (dprev - d))%Q d Hrest) as [dlast E].
    exists dlast. cbn [for_each]. unfold add_delta at 1.
    rewrite (distance_chainage _ _ He). cbn [bind fst snd].
    rewrite E. reflexivity.
Qed.

End LengthKm.

(** C6, as stated, fails: with zero events [computeLengthKm] raises
    [IndexError] at [self.events[0]]; it does not yield a length. *)
Lemma computeLengthKm_no_events :
  ServiceOps.computeLengthKm [] = Raise IndexError /\
  ~ (exists l, ServiceOps.computeLengthKm [] = Ok l).
Proof.
  split; [reflexivity|]. intros [l H]. discriminate H.
Qed.

(** C6, amended. For every non-empty event sequence whose stations all
    appear in the distance map, [computeLengthKm] returns, without
    failing, the sum of the absolute chainage differences of consecutive
    events. *)
Theorem computeLengthKm_sum :
  forall events ds,
    events <> [] ->
    map Aux.chainage events = map Some ds ->
    ServiceOps.computeLengthKm events = Ok (Aux.sum_of_chainage_deltas ds).
Proof.
  intros [|e0 rest] ds Hne Hmap; [now elim Hne|].
  destruct ds as [|d0 ds]; [discriminate|].
  injection Hmap as H0 Hrest.
  unfold ServiceOps.computeLengthKm.
  rewrite index_0_cons. cbn [bind tl].
  rewrite (distance_chainage _ _ H0). cbn [bind].
  destruct (computeLengthKm_loop rest ds 0%Q d0 Hrest) as [dlast E].
  rewrite E. reflexivity.
Qed.

Lemma computeLengthKm_sum_witness :
  ServiceOps.computeLengthKm Inputs.short_run = Ok (19 # 1)%Q.
Proof.
  apply (computeLengthKm_sum Inputs.short_run [0; 11; 15; 11]%Q).
  - discriminate.
  - reflexivity.
Defined.

(* ================================================================== *)
(** * Heaps of objects *)
(* ================================================================== *)

Section UpdateFacts.

Context {A : Type}.
Variable d : A.

Lemma length_update i (f : A -> A) l :
  List.length (update i f l) = List.length l.
Proof.
  revert i. induction l as [|x l IH]; intros [|i]; simpl; auto.
Qed.

Lemma nth_update_same i (f : A -> A) l :
  (i < List.length l)%nat -> nth i (update i f l) d = f (nth i l d).
Proof.
  revert i. induction l as [|x l IH]; intros [|i] H; simpl in *;
    try lia; auto. apply IH. lia.
Qed.

Lemma nth_update_other i j (f : A -> A) l :
  i <> j -> nth i (update j f l) d = nth i l d.
Proof.
  revert i j. induction l as [|x l IH]; intros [|i] [|j] H; simpl;
    try congruence; auto.
Qed.

Lemma update_out_of_range i (f : A -> A) l :
  (List.length l <= i)%nat -> update i f l = l.
Proof.
  revert i. induction l as [|x l IH]; intros [|i] H; simpl in *;
    try lia; auto. f_equal. apply IH. lia.
Qed.

Lemma update_update i (f g : A -> A) l :
  update i f (update i g l) = update i (fun x => f (g x)) l.
Proof.
  revert i. induction l as [|x l IH]; intros [|i]; simpl; auto.
  f_equal. apply IH.
Qed.

End UpdateFacts.

(* ================================================================== *)
(** * Rake assignment *)
(* ================================================================== *)

Section AssignRakes.

Import Reconciler.

(** The scan keeps the rake it was given until the first decisive
    service. *)
Lemma scan_path_decisive h path :
  forall i,
    scan_path h path (Rake.init i) = Aux.rake_for i (map (svcAt h) path).
Proof.
  intros i. unfold Aux.rake_for.
  induction path as [|s rest IH]; [reflexivity|].
  cbn [scan_path map find]. unfold Aux.decisive at 1.
  destruct (Service.needsACRake (svcAt h s)) eqn:AC.
  - cbn [orb]. now rewrite AC.
  - cbn [orb].
    destruct (Service.rakeSizeReq (svcAt h s)) as [n|] eqn:R; [|exact IH].
    destruct (negb (n =? 0)); [|exact IH].
    now rewrite AC, R.
Qed.

Lemma assign_one_spec h i r path :
  RakeCycle.servicePath r = Some path ->
  assign_one h i r =
  Ok (RakeCycle.set_rake (Aux.rake_for i (map (svcAt h) path)) r).
Proof.
  intros E. unfold assign_one. now rewrite E, scan_path_decisive.
Qed.

(** The loop of [assignRakes] from position [k] on. *)
Lemma assignRakes_loop h (refs : list RakeCycleRef) :
  forall k lk,
    NoDup refs ->
    (forall rc, In rc refs ->
       (rc < List.length lk)%nat /\
       exists path, RakeCycle.servicePath (rcAt lk rc) = Some path) ->
    exists lk',
      for_each (combine (seq k (List.length refs)) refs)
        (assign_step h) lk = Ok lk' /\
      List.length lk' = List.length lk /\
      (forall j rc, nth_error refs j = Some rc ->
         rcAt lk' rc =
         RakeCycle.set_rake
           (Aux.rake_for (k + j)
              (map (svcAt h) (Aux.path_of (rcAt lk rc))))
           (rcAt lk rc)) /\
      (forall rc, ~ In rc refs -> rcAt lk' rc = rcAt lk rc).
Proof.
  induction refs as [|rc rest IH]; intros k lk ND Hp.
  - exists lk. repeat split; auto. intros [|j] ?; discriminate.
  - inversion ND as [|? ? Hnotin ND']; subst.
    destruct (Hp rc (or_introl eq_refl)) as [Hlt [path Epath]].
    cbn [List.length seq combine for_each]. unfold assign_step at 1.
    cbn [fst snd].
    rewrite (assign_one_spec h k _ path Epath). cbn [bind].
    set (r' := RakeCycle.set_rake _ _).
    set (lk1 := update rc (fun _ => r') lk).
    assert (Hother : forall x, x <> rc -> rcAt lk1 x = rcAt lk x).
    { intros x Hx. unfold rcAt, lk1. now apply nth_update_other. }
    assert (Hsame : rcAt lk1 rc = r').
    { unfold rcAt, lk1. now rewrite nth_update_same. }
    destruct (IH (S k) lk1 ND') as (lk' & E & Hlen & Hin & Hout).
    { intros x Hx. assert (x <> rc) by (intros ->; contradiction).
      rewrite Hother by assumption. unfold lk1. rewrite length_update.
      apply Hp. now right. }
    exists lk'. split; [exact E|]. split.
    { rewrite Hlen. unfold lk1. apply length_update. }
    split.
    + intros [|j] x Hx.
      * injection Hx as <-. rewrite (Hout rc Hnotin), Hsame.
        unfold r', Aux.path_of. rewrite Epath, Nat.add_0_r. reflexivity.
      * cbn [nth_error] in Hx. rewrite (Hin j x Hx).
        assert (x <> rc).
        { intros ->. apply Hnotin. eapply nth_error_In; eauto. }
        rewrite Hother by assumption.
        now replace (S k + j)%nat with (k + S j)%nat by lia.
    + intros x Hx. rewrite Hout by (intros C; apply Hx; now right).
      apply Hother. intros ->. apply Hx. now left.
Qed.

End AssignRakes.

(** C7, as stated, fails: a path whose first service states a car count
    and needs no AC rake gets a non-AC rake, whatever the later services
    need. *)
Lemma assignRakes_later_ac_ignored :
  exists wtt',
    Reconciler.assignRakes Inputs.mixed_table = Ok wtt' /\
    RakeCycle.rake (rcAt (links wtt') 0%nat) = Some (Rake.mk 0%nat false 15) /\
    existsb (fun s => Service.needsACRake (svcAt (services wtt') s))
            (Aux.path_of (rcAt (links wtt') 0%nat)) = true.
Proof.
  eexists. split; [reflexivity|]. split; reflexivity.
Qed.

(** C7, amended. For every rake cycle of the active set (each with its
    service path), [assignRakes] constructs one fresh rake, numbered by
    the position of the rake cycle, from the first service on the path
    that either needs an AC rake or states a car count: when that service
    needs an AC rake the rake is AC with the default 12 cars, otherwise it
    is non-AC with the car count of that service; without such a service
    the rake keeps the defaults. *)
Theorem assignRakes_first_decisive :
  forall wtt,
    NoDup (rakecycles wtt) ->
    (forall rc, In rc (rakecycles wtt) ->
       (rc < List.length (links wtt))%nat /\
       exists path, RakeCycle.servicePath (rcAt (links wtt) rc) = Some path) ->
    exists wtt',
      Reconciler.assignRakes wtt = Ok wtt' /\
      services wtt' = services wtt /\
      rakecycles wtt' = rakecycles wtt /\
      forall i rc, nth_error (rakecycles wtt) i = Some rc ->
        rcAt (links wtt') rc =
        RakeCycle.set_rake
          (Aux.rake_for i
             (map (svcAt (services wtt)) (Aux.path_of (rcAt (links wtt) rc))))
          (rcAt (links wtt) rc).
Proof.
  intros wtt ND Hp.
  destruct (assignRakes_loop (services wtt) (rakecycles wtt) 0%nat (links wtt)
              ND Hp) as (lk' & E & _ & Hin & _).
  exists (with_links lk' wtt). unfold Reconciler.assignRakes.
  rewrite E. cbn [bind]. repeat split. exact Hin.
Qed.

Lemma assignRakes_first_decisive_witness :
  exists wtt',
    Reconciler.assignRakes Inputs.mixed_table = Ok wtt' /\
    RakeCycle.rake (rcAt (links wtt') 0%nat) = Some (Rake.mk 0%nat false 15).
Proof.
  destruct (assignRakes_first_decisive Inputs.mixed_table)
    as (wtt' & E & _ & _ & H).
  - repeat constructor. intros [].
  - intros rc [<-|[]]. split; [cbn; lia|]. eexists. reflexivity.
  - exists wtt'. split; [exact E|].
    rewrite (H 0%nat 0%nat eq_refl). reflexivity.
Defined.

(* ================================================================== *)
(** * Validation of the rake cycles *)
(* ================================================================== *)

Section Conflicts.

Import Reconciler.

Lemma Id_eqb_eq a b : Id_eqb a b = true <-> a = b.
Proof.
  destruct a as [x|x], b as [y|y]; simpl;
    try (split; [discriminate|intros [=]]).
  - rewrite Z.eqb_eq. split; [now intros ->|now intros [=]].
  - rewrite String.eqb_eq. split; [now intros ->|now intros [=]].
Qed.


Lemma ids_eqb_eq a : forall b, ids_eqb a b = true <-> a = b.
Proof.
  induction a as [|x a IH]; intros [|y b]; simpl;
    try (split; [discriminate|intros [=]]); [tauto|].
  rewrite andb_true_iff, Id_eqb_eq, IH.
  split; [now intros [-> ->]|now intros [= -> ->]].
Qed.

Lemma ids_eqb_refl a : ids_eqb a a = true.
Proof. now apply ids_eqb_eq. Qed.

(** Lists of different lengths are different. *)
Lemma ids_eqb_length a b :
  List.length a <> List.length b -> ids_eqb a b = false.
Proof.
  intros H. destruct (ids_eqb a b) eqn:E; [|reflexivity].
  apply ids_eqb_eq in E. now subst.
Qed.

Lemma drop_last_app {A} (l t : list A) :
  drop_last (List.length t) (l ++ t) = l.
Proof.
  unfold drop_last. rewrite length_app.
  replace (List.length l + List.length t - List.length t)%nat
    with (List.length l + 0)%nat by lia.
  rewrite firstn_app_2. simpl. apply app_nil_r.
Qed.

Lemma drop_last_1 {A} (l : list A) x : drop_last 1 (l ++ [x]) = l.
Proof. exact (drop_last_app l [x]). Qed.

Lemma drop_last_2 {A} (l : list A) x y : drop_last 2 (l ++ [x; y]) = l.
Proof. exact (drop_last_app l [x; y]). Qed.

(** Equal paths never conflict. *)
Lemma conflicts_exact s : conflicts s s = Ok false.
Proof. unfold conflicts. now rewrite ids_eqb_refl. Qed.

(** One extra trailing entry is accepted exactly when it is a stabling
    placeholder. *)
Lemma conflicts_one_trailing w x :
  conflicts (w ++ [x]) w = Ok (negb (is_ety x)).
Proof.
  unfold conflicts.
  rewrite ids_eqb_length by (rewrite length_app; simpl; lia).
  cbn [negb].
  rewrite drop_last_1, ids_eqb_refl, index_last_snoc.
  cbn [bind]. now destruct (is_ety x).
Qed.

(** With two extra trailing entries the code tests the last entry of the
    chain and the last declared entry; the entry between them is never
    looked at. *)
Lemma conflicts_two_trailing w z x y :
  conflicts ((w ++ [z]) ++ [x; y]) (w ++ [z])
  = Ok (negb (is_ety z && is_ety y)).
Proof.
  unfold conflicts.
  rewrite ids_eqb_length by (rewrite !length_app; simpl; lia).
  cbn [negb].
  replace (drop_last 1 ((w ++ [z]) ++ [x; y])) with ((w ++ [z]) ++ [x]).
  2:{ change [x; y] with ([x] ++ [y]). rewrite app_assoc.
      symmetry. apply drop_last_1. }
  rewrite ids_eqb_length by (rewrite !length_app; simpl; lia).
  rewrite drop_last_2, ids_eqb_refl.
  rewrite index_last_snoc. cbn [bind].
  change [x; y] with ([x] ++ [y]). rewrite app_assoc, index_last_snoc.
  cbn [bind]. now destruct (is_ety z), (is_ety y).
Qed.

End Conflicts.

(** C2 at the failing input. When the declared sequence exceeds the chain
    by two entries, the pass keeps the rake cycle exactly when the last
    entry of the chain and the last declared entry are stabling
    placeholders: the first of the two tests reads [summaryPath[:-2][-1]],
    where the claim has the declared entry before the last.  So for the
    chain [93001, 93002] and the declared sequence [93001, 93002, ETY 1,
    ETY 2], whose two trailing entries are both placeholders, the pass
    records a Conflict and removes the rake cycle from the active set. *)
Theorem validateRakeCycles_two_placeholders :
  (forall w z x y,
     Reconciler.conflicts ((w ++ [z]) ++ [x; y]) (w ++ [z])
     = Ok (negb (Reconciler.is_ety z && Reconciler.is_ety y))) /\
  Reconciler.conflicts
    [IdInt 93001; IdInt 93002; IdStr "ETY 1"; IdStr "ETY 2"]
    [IdInt 93001; IdInt 93002] = Ok true /\
  exists wtt1 wtt2,
    Reconciler.linkRakeCycles 1000 Inputs.two_placeholders = Ok wtt1 /\
    RakeCycle.servicePath (rcAt (links wtt1) 0%nat) = Some [0; 1]%nat /\
    rakecycles wtt1 = [0%nat] /\
    Reconciler.validateRakeCycles wtt1 = Ok wtt2 /\
    rakecycles wtt2 = [] /\
    conflictingLinks wtt2 = [(0%nat, [IdInt 93001; IdInt 93002])].
Proof.
  split; [exact conflicts_two_trailing|].
  split; [reflexivity|].
  eexists. eexists.
  split; [reflexivity|]. split; [reflexivity|]. split; [reflexivity|].
  split; [reflexivity|]. split; reflexivity.
Qed.

(* ================================================================== *)
(** * Undefined identifiers *)
(* ================================================================== *)

(** When a chain starts with the first declared identifier, the linking
    step assigns it and goes on: [fixPath], the only place that reads
    [undefinedIds], is not called. *)
Lemma link_rakecycle_matched wtt rc invalid p ps :
  Reconciler.match_paths wtt (rcAt (links wtt) rc) = Ok (Some (p :: ps)) ->
  Reconciler.link_rakecycle rc (wtt, invalid) =
  Ok (with_links
        (update rc (RakeCycle.set_servicePath (Some (p :: ps))) (links wtt))
        wtt, invalid).
Proof.
  intros E. unfold Reconciler.link_rakecycle. rewrite E. reflexivity.
Qed.

(** C1 at the failing input. The summary row declares [93001, 93002,
    ETY 7]; no service carries [ETY 7], so it is recorded as undefined.
    The chain [93001, 93002] starts with the first declared identifier:
    the rake cycle is linked to it, stays [VALID], passes validation by
    the trailing-placeholder tolerance and stays in the active set.  With
    the undefined identifier [99999] in place of [ETY 7] the rake cycle
    leaves the active set as a Conflict, still [VALID]. *)
Theorem undefined_id_with_matching_chain :
  (exists wtt1 wtt2,
     RakeCycle.undefinedIds (rcAt (links Inputs.undefined_placeholder) 0%nat)
       = [("A", IdStr "ETY 7")] /\
     Reconciler.linkRakeCycles 1000 Inputs.undefined_placeholder = Ok wtt1 /\
     Reconciler.validateRakeCycles wtt1 = Ok wtt2 /\
     rakecycles wtt2 = [0%nat] /\
     conflictingLinks wtt2 = [] /\
     RakeCycle.status (rcAt (links wtt2) 0%nat) = VALID /\
     RakeCycle.servicePath (rcAt (links wtt2) 0%nat) = Some [0; 1]%nat) /\
  (exists wtt1 wtt2,
     RakeCycle.undefinedIds (rcAt (links Inputs.undefined_number) 0%nat)
       = [("A", IdInt 99999)] /\
     Reconciler.linkRakeCycles 1000 Inputs.undefined_number = Ok wtt1 /\
     Reconciler.validateRakeCycles wtt1 = Ok wtt2 /\
     rakecycles wtt2 = [] /\
     conflictingLinks wtt2 = [(0%nat, [IdInt 93001; IdInt 93002])] /\
     RakeCycle.status (rcAt (links wtt2) 0%nat) = VALID).
Proof.
  split; eexists; eexists; repeat (split; [reflexivity|]); reflexivity.
Qed.

(* ================================================================== *)
(** * Event sequencing *)
(* ================================================================== *)

(** Nothing orders the two times of a paired arrival and departure.  A
    dwell from 02:40 to 02:50 spans the start of the traffic day and
    yields the times 1600 and 170; a departure cell that is earlier than
    the arrival cell is taken as it is. *)
Lemma sequence_row_pair_decreasing :
  (exists e1 e2 t1 t2,
     ServiceOps.sequence_row Inputs.network Inputs.dwell_sheet
       Inputs.night_column (0, "02:40") [] = Ok [e1; e2] /\
     StationEvent.atTime e1 = Some t1 /\ StationEvent.atTime e2 = Some t2 /\
     (t1 == 1600 /\ t2 == 170 /\ t2 < t1)%Q) /\
  (exists e1 e2 t1 t2,
     ServiceOps.sequence_row Inputs.network Inputs.dwell_sheet
       Inputs.early_departure_column (0, "08:05") [] = Ok [e1; e2] /\
     StationEvent.atTime e1 = Some t1 /\ StationEvent.atTime e2 = Some t2 /\
     (t1 == 485 /\ t2 == 480 /\ t2 < t1)%Q).
Proof.
  split; do 4 eexists; (split; [reflexivity|]);
    (split; [reflexivity|]); (split; [reflexivity|]);
    repeat split; reflexivity.
Qed.

(** The round of the loop at an arrival row.  For every row of the
    service column whose cell matches a time, whose station resolves and
    whose indicator is ['A'], when the sheet has a next row and the column
    a next cell: this round appends an arrival event at the resolved
    station, followed by a departure event at the same station if and
    only if the indicator of the next row is ['D'] and the next cell is a
    valid time.  The round of the next row comes after it. *)
Theorem sequence_row_arrival :
  forall stations sheet serviceCol rowIdx cell events tCell stName ind' below,
    TimeTableParser.rTimePattern_search cell = Some tCell ->
    ServiceOps.resolve_station stations sheet events rowIdx = Ok stName ->
    ServiceOps.indicator sheet rowIdx = Ok (Text "A") ->
    ServiceOps.indicator sheet (rowIdx + 1) = Ok ind' ->
    index serviceCol (rowIdx + 1) = Ok below ->
    ServiceOps.sequence_row stations sheet serviceCol (rowIdx, cell) events =
    Ok (events ++
        StationEvent.init stName (strip tCell) ARRIVAL ::
        (if ServiceOps.cell_is ind' "D" &&
            TimeTableParser.rTimePattern_match (strip below)
         then [StationEvent.init stName (strip below) DEPARTURE]
         else [])).
Proof.
  intros stations sheet serviceCol rowIdx cell events tCell stName ind' below
         Hs Hr Ha Hn Hb.
  unfold ServiceOps.sequence_row. rewrite Hs, Hr. cbn [bind].
  rewrite Ha. cbn [bind ServiceOps.cell_is]. rewrite String.eqb_refl, Hn.
  cbn [bind].
  destruct (ServiceOps.cell_is ind' "D"); cbn [andb].
  - rewrite Hb. cbn [bind].
    destruct (TimeTableParser.rTimePattern_match (strip below)).
    + now rewrite <- app_assoc.
    + reflexivity.
  - reflexivity.
Qed.

Lemma sequence_row_arrival_witness :
  ServiceOps.sequence_row Inputs.network Inputs.terminal_sheet
    ["09:00"; "93002"] (0, "09:00") [] =
  Ok [StationEvent.init "DADAR" "09:00" ARRIVAL] /\
  ServiceOps.sequence_row Inputs.network Inputs.dwell_sheet
    ["09:00"; "09:01"; "09:05"] (0, "09:00") [] =
  Ok [StationEvent.init "DADAR" "09:00" ARRIVAL;
      StationEvent.init "DADAR" "09:01" DEPARTURE].
Proof.
  split.
  - apply (sequence_row_arrival Inputs.network Inputs.terminal_sheet
             ["09:00"; "93002"] 0 "09:00" [] "09:00" "DADAR" NaN "93002");
      reflexivity.
  - apply (sequence_row_arrival Inputs.network Inputs.dwell_sheet
             ["09:00"; "09:01"; "09:05"] 0 "09:00" [] "09:00" "DADAR"
             (Text "D") "09:01");
      reflexivity.
Defined.

(** The round of the loop at a timed row whose indicator is not ['A']:
    one event, whatever the row above was.  A departure row is such a
    row. *)
Lemma sequence_row_single stations sheet serviceCol rowIdx cell events
    tCell stName ind :
  TimeTableParser.rTimePattern_search cell = Some tCell ->
  ServiceOps.resolve_station stations sheet events rowIdx = Ok stName ->
  ServiceOps.indicator sheet rowIdx = Ok ind ->
  ServiceOps.cell_is ind "A" = false ->
  ServiceOps.sequence_row stations sheet serviceCol (rowIdx, cell) events =
  Ok (events ++ [StationEvent.init stName (strip tCell) ARRIVAL]).
Proof.
  intros Hs Hr Hi Ha. unfold ServiceOps.sequence_row.
  rewrite Hs, Hr. cbn [bind]. rewrite Hi. cbn [bind]. now rewrite Ha.
Qed.

(** C4: the sequencer emits the departure of a dwell twice.  An arrival
    row followed by a departure row with a valid time should yield
    exactly two events at the station.  The round of the arrival row
    appends both of them; the loop then reaches the departure row, which
    is a timed row whose indicator is not ['A'], and the single-event
    branch appends its time once more.  On the rows Dadar ['A'], ['D'],
    Bandra with the column 09:00, 09:01, 09:05 the round of the first row
    leaves the pair, the round of the second row adds a third event, and
    the sequencer returns three events at Dadar, the last two at 09:01. *)
Theorem generateStationEvents_dwell_three_events :
  let col := ["09:00"; "09:01"; "09:05"] in
  let arr := StationEvent.init "DADAR" "09:00" ARRIVAL in
  let dep := StationEvent.init "DADAR" "09:01" DEPARTURE in
  let again := StationEvent.init "DADAR" "09:01" ARRIVAL in
  let next := StationEvent.init "BANDRA" "09:05" ARRIVAL in
  ServiceOps.sequence_row Inputs.network Inputs.dwell_sheet col
    (0, "09:00") [] = Ok [arr; dep] /\
  ServiceOps.sequence_row Inputs.network Inputs.dwell_sheet col
    (1, "09:01") [arr; dep] = Ok [arr; dep; again] /\
  ServiceOps.generateStationEvents [Inputs.dwell_sheet] Inputs.network
    (Service.extracted col [IdInt 93001] UP (Some 15) false None)
  = Ok [arr; dep; again; next] /\
  map StationEvent.atStation [arr; dep; again]
  = ["DADAR"; "DADAR"; "DADAR"] /\
  StationEvent.atTime dep = StationEvent.atTime again /\
  List.length
    (filter (fun e => String.eqb (StationEvent.atStation e) "DADAR")
       [arr; dep; again; next]) = 3%nat.
Proof.
  intros col arr dep again next.
  assert (R0 : ServiceOps.sequence_row Inputs.network Inputs.dwell_sheet col
                 (0, "09:00") [] = Ok [arr; dep]).
  { exact (sequence_row_arrival Inputs.network Inputs.dwell_sheet col 0
             "09:00" [] "09:00" "DADAR" (Text "D") "09:01"
             eq_refl eq_refl eq_refl eq_refl eq_refl). }
  assert (R1 : ServiceOps.sequence_row Inputs.network Inputs.dwell_sheet col
                 (1, "09:01") [arr; dep] = Ok [arr; dep; again]).
  { exact (sequence_row_single Inputs.network Inputs.dwell_sheet col 1
             "09:01" [arr; dep] "09:01" "DADAR" (Text "D")
             eq_refl eq_refl eq_refl eq_refl). }
  assert (R2 : ServiceOps.sequence_row Inputs.network Inputs.dwell_sheet col
                 (2, "09:05") [arr; dep; again]
               = Ok [arr; dep; again; next]).
  { exact (sequence_row_single Inputs.network Inputs.dwell_sheet col 2
             "09:05" [arr; dep; again] "09:05" "BANDRA" NaN
             eq_refl eq_refl eq_refl eq_refl). }
  split; [exact R0|]. split; [exact R1|]. split.
  - unfold ServiceOps.generateStationEvents.
    change (for_each [(0, "09:00"); (1, "09:01"); (2, "09:05")]
              (ServiceOps.sequence_row Inputs.network Inputs.dwell_sheet col)
              [] = Ok [arr; dep; again; next]).
    cbn [for_each]. rewrite R0. cbn [bind]. rewrite R1. cbn [bind].
    exact R2.
  - split; [reflexivity|]. split; reflexivity.
Qed.

(* ================================================================== *)
(** * Loops that rewrite objects of a heap in place *)
(* ================================================================== *)

Section HeapLoops.

(** [g] computes the new state of an object from its current state, and
    does so idempotently; [step s] replaces the object at [s]. *)
Context {A : Type}.
Variable d : A.
Variable g : A -> result A.
Hypothesis g_idempotent : forall x y, g x = Ok y -> g y = Ok y.

Let step (s : nat) (h : list A) : result (list A) :=
  bind (g (nth s h d)) (fun x => Ok (update s (fun _ => x) h)).

Lemma update_commute i j (x y : A) h :
  i <> j ->
  update i (fun _ => x) (update j (fun _ => y) h) =
  update j (fun _ => y) (update i (fun _ => x) h).
Proof.
  revert i j. induction h as [|a h IH]; intros [|i] [|j] H; simpl;
    try congruence; auto.
  f_equal. apply IH. congruence.
Qed.

(** A step that has been taken changes nothing when it is taken again. *)
Lemma step_settles s h h1 : step s h = Ok h1 -> step s h1 = Ok h1.
Proof using g_idempotent.
  unfold step. destruct (g (nth s h d)) as [y|] eqn:E; [|discriminate].
  intros [= <-].
  destruct (Nat.lt_ge_cases s (List.length h)) as [L|L].
  - rewrite nth_update_same by exact L.
    rewrite (g_idempotent _ _ E). cbn [bind].
    now rewrite update_update.
  - rewrite update_out_of_range by exact L. rewrite E. cbn [bind].
    now rewrite update_out_of_range.
Qed.

(** A settled object stays settled when another step is taken. *)
Lemma step_keeps_settled s s' h h2 :
  step s h = Ok h -> step s' h = Ok h2 -> step s h2 = Ok h2.
Proof using Type.
  destruct (Nat.eq_dec s s') as [<-|Hne].
  - intros E1 E2. rewrite E1 in E2. now injection E2 as <-.
  - unfold step.
    destruct (g (nth s h d)) as [y|] eqn:E; [|discriminate].
    destruct (g (nth s' h d)) as [y'|] eqn:E'; [|discriminate].
    intros [= Hfix] [= <-].
    rewrite nth_update_other by exact Hne. rewrite E. cbn [bind].
    rewrite update_commute by exact Hne. now rewrite Hfix.
Qed.

Lemma loop_keeps_settled s refs :
  forall h h', step s h = Ok h -> for_each refs step h = Ok h' ->
               step s h' = Ok h'.
Proof using Type.
  induction refs as [|x refs IH]; intros h h' Hs.
  - now intros [= <-].
  - cbn [for_each]. destruct (step x h) as [h1|] eqn:E; [|discriminate].
    cbn [bind]. apply IH. exact (step_keeps_settled _ _ _ _ Hs E).
Qed.

(** After the loop every object it went through is settled. *)
Lemma loop_settles refs :
  forall h h', for_each refs step h = Ok h' ->
               forall s, In s refs -> step s h' = Ok h'.
Proof using g_idempotent.
  induction refs as [|x refs IH]; intros h h' E s Hin; [contradiction|].
  cbn [for_each] in E.
  destruct (step x h) as [h1|] eqn:E1; [|discriminate]. cbn [bind] in E.
  destruct Hin as [<-|Hin].
  - apply (loop_keeps_settled x refs h1 h'); [|exact E].
    exact (step_settles _ _ _ E1).
  - exact (IH h1 h' E s Hin).
Qed.

Lemma loop_of_settled refs h :
  (forall s, In s refs -> step s h = Ok h) -> for_each refs step h = Ok h.
Proof using Type.
  induction refs as [|x refs IH]; intros H; [reflexivity|].
  cbn [for_each]. rewrite (H x (or_introl eq_refl)). cbn [bind].
  apply IH. intros s Hs. apply H. now right.
Qed.

(** Running the loop a second time changes nothing. *)
Lemma loop_idempotent refs h h' :
  for_each refs step h = Ok h' -> for_each refs step h' = Ok h'.
Proof using g_idempotent.
  intros E. apply loop_of_settled. exact (loop_settles refs h h' E).
Qed.

End HeapLoops.

(* ================================================================== *)
(** * The service filter *)
(* ================================================================== *)

Section ServiceFilters.

Import ServiceOps Simulator.

Lemma set_render_twice e :
  StationEvent.set_render true (StationEvent.set_render true e) =
  StationEvent.set_render true e.
Proof. reflexivity. Qed.

Lemma reset_events_twice events :
  map (StationEvent.set_render true)
      (map (StationEvent.set_render true) events)
  = map (StationEvent.set_render true) events.
Proof.
  rewrite map_map. apply map_ext. intros e. apply set_render_twice.
Qed.

(** Filtering a service that has just been filtered gives it back. *)
Lemma filter_service_idempotent qq svc svc' :
  filter_service qq svc = Ok svc' -> filter_service qq svc' = Ok svc'.
Proof.
  destruct svc as [col ids dir size ac link ini fin events len rend].
  unfold filter_service, Service.set_render, Service.set_events.
  cbn [Service.events Service.render Service.rawServiceCol Service.serviceId
       Service.direction Service.rakeSizeReq Service.needsACRake
       Service.linkedTo Service.initStation Service.finalStation
       Service.lengthKm].
  destruct events as [|e es].
  - intros [= <-]. reflexivity.
  - cbn [map].
    match goal with
    | |- (bind (run_checks ?s qq true) _) = _ -> _ =>
        destruct (run_checks s qq true) as [r|] eqn:E; [|discriminate]
    end.
    cbn [bind]. intros [= <-].
    cbn [Service.events Service.render Service.rawServiceCol
         Service.serviceId Service.direction Service.rakeSizeReq
         Service.needsACRake Service.linkedTo Service.initStation
         Service.finalStation Service.lengthKm map].
    rewrite set_render_twice, reset_events_twice.
    rewrite E. reflexivity.
Qed.

(** The flag of a rake cycle is computed from its path and the services. *)
Lemma filter_rakecycle_idempotent h r :
  filter_rakecycle h (filter_rakecycle h r) = filter_rakecycle h r.
Proof.
  destruct r as [name st ids undef [[|s p]|] rk rend len]; try reflexivity.
  unfold filter_rakecycle.
  cbn [RakeCycle.set_render RakeCycle.servicePath].
  destruct (existsb _ _) eqn:E;
    cbn [RakeCycle.set_render RakeCycle.servicePath RakeCycle.linkName
         RakeCycle.status RakeCycle.serviceIds RakeCycle.undefinedIds
         RakeCycle.rake RakeCycle.lengthKm];
    now rewrite E.
Qed.

(** The loop over the rake cycles is a heap loop whose step cannot fail. *)
Lemma filter_rakecycles_loop h refs :
  forall lk,
    for_each refs
      (fun s lk =>
         bind (Ok (filter_rakecycle h (nth s lk nullRakeCycle)))
              (fun x => Ok (update s (fun _ => x) lk)))
      lk
    = Ok (filter_rakecycles h refs lk).
Proof.
  unfold filter_rakecycles.
  induction refs as [|rc refs IH]; intros lk; [reflexivity|].
  cbn [for_each fold_left bind]. rewrite IH. do 2 f_equal.
  clear IH. revert rc. induction lk as [|x lk IHl]; intros [|rc];
    simpl; auto. f_equal. apply IHl.
Qed.

Lemma filter_rakecycles_idempotent h refs lk :
  filter_rakecycles h refs (filter_rakecycles h refs lk)
  = filter_rakecycles h refs lk.
Proof.
  pose proof (filter_rakecycles_loop h refs lk) as E.
  apply (loop_idempotent nullRakeCycle
           (fun r => Ok (filter_rakecycle h r))) in E.
  - rewrite filter_rakecycles_loop in E. now injection E.
  - intros x y [= <-]. now rewrite filter_rakecycle_idempotent.
Qed.

Lemma filter_services_idempotent qq refs h h' :
  filter_services qq refs h = Ok h' -> filter_services qq refs h' = Ok h'.
Proof.
  exact (loop_idempotent nullService (filter_service qq)
           (filter_service_idempotent qq) refs h h').
Qed.

(** ** Narrowing: a check never turns the flag back on *)

Lemma and_false_narrows (render : bool) :
  render && false = true -> render = true.
Proof. now rewrite andb_false_r. Qed.

Lemma checkDirectionConstraint_narrows svc qq render :
  checkDirectionConstraint svc qq render = true -> render = true.
Proof.
  unfold checkDirectionConstraint.
  destruct (inDirection qq) as [[|d ds]|]; auto.
  destruct (negb _); auto using and_false_narrows.
Qed.

Lemma checkACConstraint_narrows svc qq render :
  checkACConstraint svc qq render = true -> render = true.
Proof.
  unfold checkACConstraint.
  destruct (ac qq) as [mode|]; auto.
  repeat match goal with
         | |- (if ?b then _ else _) = true -> _ => destruct b
         end; auto using and_false_narrows.
Qed.

Lemma check_terminal_narrows want e qq render :
  check_terminal want e qq render = Ok true -> render = true.
Proof.
  unfold check_terminal.
  destruct want as [st|]; [|now intros [= ->]].
  destruct (str_falsy st); [now intros [= ->]|].
  destruct e as [e|]; [|discriminate]. cbn [bind].
  destruct (unpack_period qq) as [p|]; [|discriminate]. cbn [bind].
  destruct (String.eqb _ _).
  - destruct (in_period p (StationEvent.atTime e)) as [b|]; [|discriminate].
    cbn [bind]. destruct b; cbn [negb]; intros [= H]; auto.
    now apply and_false_narrows.
  - intros [= H]. now apply and_false_narrows.
Qed.

Lemma passing_loop_narrows m qq stns render :
  passing_loop m qq stns render = Ok true -> render = true.
Proof.
  induction stns as [|st rest IH]; cbn [passing_loop].
  - now intros [= ->].
  - destruct (dict_get String.eqb st m) as [times|].
    + destruct (index times (-1)) as [t|]; [|discriminate]. cbn [bind].
      destruct (unpack_period qq) as [p|]; [|discriminate]. cbn [bind].
      destruct (in_period p t) as [b|]; [|discriminate]. cbn [bind].
      destruct b; cbn [negb]; auto.
      intros [= H]. now apply and_false_narrows.
    + intros [= H]. now apply and_false_narrows.
Qed.

Lemma checkPassingThroughConstraint_narrows svc qq render :
  checkPassingThroughConstraint svc qq render = Ok true -> render = true.
Proof.
  unfold checkPassingThroughConstraint.
  destruct (map upper (passingThrough qq)) as [|st rest] eqn:E.
  - now intros [= ->].
  - apply passing_loop_narrows.
Qed.

End ServiceFilters.

Section FilterReturns.

Import ServiceOps Simulator.

Variable qq : FilterQuery.
Variable period : Z * Z.
Hypothesis has_period : inTimePeriod qq = Some period.

Lemma index_last_in {A} (l : list A) :
  l <> [] -> exists x, index l (-1) = Ok x /\ In x l.
Proof.
  intros H. destruct (exists_last H) as (l' & x & ->).
  exists x. split; [apply index_last_snoc|].
  apply in_or_app. right. now left.
Qed.

Lemma check_terminal_returns want e ev render :
  e = Ok ev -> Aux.has_time ev ->
  exists b, check_terminal want e qq render = Ok b.
Proof using has_period.
  intros -> Ht. unfold check_terminal, unpack_period. rewrite has_period.
  destruct want as [st|]; [|now eexists].
  destruct (str_falsy st); [now eexists|]. cbn [bind].
  destruct (String.eqb _ _); [|now eexists].
  unfold Aux.has_time in Ht.
  destruct (StationEvent.atTime ev) as [t|]; [|contradiction].
  cbn [in_period bind]. destruct (negb _); now eexists.
Qed.

(** Every station of the map has a last time, and it is a time. *)
Lemma stnMapTimes_timed events :
  Forall Aux.has_time events ->
  forall m,
    (forall st ts, dict_get String.eqb st m = Some ts ->
       ts <> [] /\ Forall (fun t => t <> None) ts) ->
    forall st ts,
      dict_get String.eqb st (fold_left record_time events m) = Some ts ->
      ts <> [] /\ Forall (fun t => t <> None) ts.
Proof using Type.
  induction 1 as [|e events He _ IH]; intros m Hm; [exact Hm|].
  cbn [fold_left]. apply IH. clear IH.
  intros st ts. unfold record_time.
  destruct (String.eqb_spec (StationEvent.atStation e) st) as [<-|Hne].
  - rewrite (dict_get_set_same String.eqb String.eqb_eq). intros [= <-].
    split; [now destruct (match dict_get _ _ m with Some l => l | None => [] end)|].
    apply Forall_app. split; [|now constructor].
    destruct (dict_get String.eqb (StationEvent.atStation e) m) as [l|] eqn:G;
      [|constructor].
    now apply (Hm _ _ G).
  - rewrite (dict_get_set_other String.eqb String.eqb_eq) by congruence.
    apply Hm.
Qed.

Lemma passing_loop_returns m stns render :
  (forall st ts, dict_get String.eqb st m = Some ts ->
     ts <> [] /\ Forall (fun t => t <> None) ts) ->
  exists b, passing_loop m qq stns render = Ok b.
Proof using has_period.
  intros Hm. induction stns as [|st rest IH]; cbn [passing_loop];
    [now eexists|].
  destruct (dict_get String.eqb st m) as [ts|] eqn:G; [|now eexists].
  destruct (Hm st ts G) as [Hne Hall].
  destruct (index_last_in ts Hne) as (t & E & Hin). rewrite E. cbn [bind].
  unfold unpack_period. rewrite has_period. cbn [bind].
  rewrite Forall_forall in Hall. specialize (Hall t Hin).
  destruct t as [t|]; [|contradiction]. cbn [in_period bind].
  destruct (negb _); [now eexists|exact IH].
Qed.

Lemma run_checks_returns svc render :
  Service.events svc <> [] ->
  Forall Aux.has_time (Service.events svc) ->
  exists b, run_checks svc qq render = Ok b.
Proof using has_period.
  intros Hne Hall. unfold run_checks.
  destruct (Service.events svc) as [|e0 es] eqn:Ev; [contradiction|].
  destruct (check_terminal_returns (startStation qq)
              (index (Service.events svc) 0) e0
              (checkACConstraint svc qq (checkDirectionConstraint svc qq render)))
    as [b1 E1].
  { rewrite Ev. apply index_0_cons. }
  { now inversion Hall. }
  unfold checkStartStationConstraint. rewrite E1. cbn [bind].
  destruct (index_last_in (e0 :: es)) as (en & En & Hin); [discriminate|].
  destruct (check_terminal_returns (endStation qq)
              (index (Service.events svc) (-1)) en b1) as [b2 E2].
  { now rewrite Ev. }
  { rewrite Forall_forall in Hall. now apply Hall. }
  unfold checkEndStationConstraint. rewrite E2. cbn [bind].
  unfold checkPassingThroughConstraint.
  destruct (map upper (passingThrough qq)) as [|st stns]; [now eexists|].
  apply passing_loop_returns. unfold stnMapTimes. rewrite Ev.
  apply stnMapTimes_timed; [exact Hall|]. intros st' ts. discriminate.
Qed.

Lemma filter_service_returns svc :
  Forall Aux.has_time (Service.events svc) ->
  exists svc', filter_service qq svc = Ok svc' /\
               Forall Aux.has_time (Service.events svc').
Proof using has_period.
  intros Hall. unfold filter_service.
  destruct svc as [col ids dir size ac link ini fin events len rend].
  cbn [Service.set_render Service.events] in *.
  destruct events as [|e es].
  - eexists. split; [reflexivity|constructor].
  - match goal with
    | |- context [run_checks ?s qq ?r] =>
        destruct (run_checks_returns s r) as [b E]
    end.
    + discriminate.
    + cbn [Service.set_events Service.events]. rewrite Forall_map.
      eapply Forall_impl; [|exact Hall]. now intros e'.
    + rewrite E. cbn [bind]. eexists. split; [reflexivity|].
      cbn [Service.set_render Service.set_events Service.events].
      rewrite Forall_map. eapply Forall_impl; [|exact Hall]. now intros e'.
Qed.

Lemma filter_services_returns refs :
  forall h, Aux.all_timed h -> exists h', filter_services qq refs h = Ok h'.
Proof using has_period.
  unfold filter_services.
  induction refs as [|s refs IH]; intros h Hh; [now eexists|].
  cbn [for_each]. unfold filter_step at 1.
  destruct (filter_service_returns (svcAt h s) (Hh s)) as (svc' & E & Ht).
  rewrite E. cbn [bind]. apply IH.
  intros r. unfold svcAt.
  destruct (Nat.eq_dec r s) as [->|Hne].
  - destruct (Nat.lt_ge_cases s (List.length h)) as [L|L].
    + now rewrite nth_update_same.
    + rewrite update_out_of_range by exact L. apply Hh.
  - rewrite nth_update_other by exact Hne. apply Hh.
Qed.

End FilterReturns.

(** C9. Running the service-filter pass a second time with the same query
    leaves every flag of every event, service and rake cycle as the first
    run set it; each of the five constraint checks returns [true] only
    when the flag it was given was [true]; and the pass does return when
    the query has a time window and every event has a time. *)
Theorem applyServiceFilters_idempotent :
  (forall qq wtt wtt1,
     Simulator.applyServiceFilters qq wtt = Ok wtt1 ->
     Simulator.applyServiceFilters qq wtt1 = Ok wtt1) /\
  (forall svc qq render,
     (ServiceOps.checkDirectionConstraint svc qq render = true ->
        render = true) /\
     (ServiceOps.checkACConstraint svc qq render = true -> render = true) /\
     (ServiceOps.checkStartStationConstraint svc qq render = Ok true ->
        render = true) /\
     (ServiceOps.checkEndStationConstraint svc qq render = Ok true ->
        render = true) /\
     (ServiceOps.checkPassingThroughConstraint svc qq render = Ok true ->
        render = true)) /\
  (forall qq wtt,
     inTimePeriod qq <> None -> Aux.all_timed (services wtt) ->
     exists wtt1, Simulator.applyServiceFilters qq wtt = Ok wtt1).
Proof.
  split; [|split].
  - intros qq wtt wtt1. unfold Simulator.applyServiceFilters.
    destruct (Simulator.filter_services qq (suburbanServices wtt)
                (services wtt)) as [h|] eqn:E; [|discriminate].
    cbn [bind]. intros [= <-].
    cbn [with_links with_services services links suburbanServices rakecycles
         stations allCyclesWtt conflictingLinks].
    rewrite (filter_services_idempotent _ _ _ _ E). cbn [bind].
    cbn [with_links with_services services links suburbanServices rakecycles
         stations allCyclesWtt conflictingLinks].
    now rewrite filter_rakecycles_idempotent.
  - intros svc qq render. repeat split.
    + apply checkDirectionConstraint_narrows.
    + apply checkACConstraint_narrows.
    + apply check_terminal_narrows.
    + apply check_terminal_narrows.
    + apply checkPassingThroughConstraint_narrows.
  - intros qq wtt Hp Ht. unfold Simulator.applyServiceFilters.
    destruct (inTimePeriod qq) as [period|] eqn:P; [|contradiction].
    destruct (filter_services_returns qq period P (suburbanServices wtt)
                (services wtt) Ht) as [h E].
    rewrite E. cbn [bind]. now eexists.
Qed.

Lemma applyServiceFilters_idempotent_witness :
  exists wtt1,
    Simulator.applyServiceFilters Inputs.up_from_dadar Inputs.sequenced_table
      = Ok wtt1 /\
    map Service.render (services wtt1) = [true; false; false] /\
    map RakeCycle.render (links wtt1) = [true] /\
    Simulator.applyServiceFilters Inputs.up_from_dadar wtt1 = Ok wtt1.
Proof.
  eexists. split; [reflexivity|]. split; [reflexivity|].
  split; [reflexivity|].
  apply (proj1 applyServiceFilters_idempotent Inputs.up_from_dadar
           Inputs.sequenced_table).
  reflexivity.
Defined.

(* ================================================================== *)
(** * Identifiers that were visited *)
(* ================================================================== *)



(* ================================================================== *)
(** * The linkage graph *)
(* ================================================================== *)

Section IdMap.

Import Linkage.

Variable h : list Service.t.

(** Every entry of the map names a service by one of its identifiers. *)
Lemma build_idMap_entries services :
  forall k r, In (k, r) (build_idMap h services) ->
    In r services /\ In k (Service.serviceId (svcAt h r)).
Proof.
  unfold build_idMap.
  assert (G : forall (done : list ServiceRef) d,
    (forall k r, In (k, r) d ->
       In r services /\ In k (Service.serviceId (svcAt h r))) ->
    (forall r, In r done -> In r services) ->
    forall k r,
      In (k, r)
         (fold_left
            (fun d r =>
               fold_left (fun d sid => dict_set Id_eqb sid r d)
                         (Service.serviceId (svcAt h r)) d)
            done d) ->
      In r services /\ In k (Service.serviceId (svcAt h r))).
  { induction done as [|r0 done IH]; intros d Hd Hdone; [exact Hd|].
    cbn [fold_left]. apply IH; [|intros r Hr; apply Hdone; now right].
    assert (Hr0 : In r0 services) by (apply Hdone; now left).
    clear IH Hdone.
    assert (S : forall ids d,
      (forall k r, In (k, r) d ->
         In r services /\ In k (Service.serviceId (svcAt h r))) ->
      (forall k, In k ids -> In k (Service.serviceId (svcAt h r0))) ->
      forall k r,
        In (k, r) (fold_left (fun d sid => dict_set Id_eqb sid r0 d) ids d) ->
        In r services /\ In k (Service.serviceId (svcAt h r))).
    { induction ids as [|sid ids IHi]; intros d' Hd' Hids; [exact Hd'|].
      cbn [fold_left]. apply IHi; [|intros k Hk; apply Hids; now right].
      intros k r Hin.
      apply (dict_set_in Id_eqb Id_eqb_eq) in Hin as [Hin|[= -> ->]].
      - now apply Hd'.
      - split; [exact Hr0|]. apply Hids. now left. }
    apply S; auto. }
  intros k r. apply (G services []); [intros ? ? []|auto].
Qed.



End IdMap.

Section Adjacency.

Import Linkage.





Variable h : list Service.t.
Variable idMap : IdMap.



End Adjacency.


Section Counting.

Context {A : Type}.



End Counting.

Section Forall2Facts.

Context {A B : Type} (R : A -> B -> Prop).




End Forall2Facts.

Section ChainFollowing.

Import Linkage.

Variable idMap : IdMap.
Variable adj : AdjMap.







End ChainFollowing.






(* ================================================================== *)
(** * More on the time codec *)
(* ================================================================== *)

Section StripFacts.

Lemma rstrip_keep c r :
  is_space c = false -> rstrip (String c r) = String c (rstrip r).
Proof.
  intros H. cbn [rstrip]. destruct (rstrip r); [now rewrite H|reflexivity].
Qed.

Lemma rstrip_idempotent s : rstrip (rstrip s) = rstrip s.
Proof.
  induction s as [|c r IH]; [reflexivity|].
  cbn [rstrip]. destruct (rstrip r) as [|c' r'] eqn:E.
  - destruct (is_space c) eqn:S; [reflexivity|].
    cbn [rstrip]. now rewrite S.
  - cbn [rstrip]. cbn [rstrip] in IH. rewrite IH. reflexivity.
Qed.

(** What [lstrip] leaves is empty or begins with a character that is not
    a blank. *)
Lemma lstrip_head s :
  lstrip s = EmptyString \/
  exists c r, lstrip s = String c r /\ is_space c = false.
Proof.
  induction s as [|c r IH]; [now left|].
  cbn [lstrip]. destruct (is_space c) eqn:S; [exact IH|].
  right. now exists c, r.
Qed.

Lemma strip_idempotent s : strip (strip s) = strip s.
Proof.
  unfold strip.
  destruct (lstrip_head s) as [E|(c & r & E & S)]; rewrite E.
  - reflexivity.
  - rewrite (rstrip_keep c r S). cbn [lstrip]. rewrite S.
    rewrite <- (rstrip_keep c r S). apply rstrip_idempotent.
Qed.

End StripFacts.

(** The codec reads a clock text the same with or without blanks around
    it. *)
Theorem timeToMinutes_ignores_blanks :
  forall time_str, _timeToMinutes (strip time_str) = _timeToMinutes time_str.
Proof.
  intros s. rewrite !timeToMinutes_parse. unfold parseClock.
  now rewrite strip_idempotent.
Qed.

(** The codec keeps clock values apart and orders them by traffic day:
    two texts with the same result name the same clock value; within the
    hours before 02:45, and within the hours from 02:45 on, a later clock
    value gives a larger result; and every clock value before 02:45 gives
    a larger result than every clock value from 02:45 on. *)
Theorem timeToMinutes_traffic_day_order :
  forall s1 s2 t1 t2,
    parseClock s1 = Some t1 -> parseClock s2 = Some t2 ->
    exists v1 v2,
      _timeToMinutes s1 = Some v1 /\ _timeToMinutes s2 = Some v2 /\
      (v1 == v2 -> minutesSinceMidnight t1 == minutesSinceMidnight t2)%Q /\
      (minutesSinceMidnight t1 < minutesSinceMidnight t2 ->
       165 <= minutesSinceMidnight t1 \/ minutesSinceMidnight t2 < 165 ->
       v1 < v2)%Q /\
      (minutesSinceMidnight t1 < 165 -> 165 <= minutesSinceMidnight t2 ->
       v2 < v1)%Q.
Proof.
  intros s1 s2 [[h1 m1] c1] [[h2 m2] c2] E1 E2.
  rewrite !timeToMinutes_parse, E1, E2. cbn [option_map].
  do 2 eexists. split; [reflexivity|]. split; [reflexivity|].
  apply parseClock_bounds in E1 as (Hh1 & Hm1 & Hc1).
  apply parseClock_bounds in E2 as (Hh2 & Hm2 & Hc2).
  destruct (minutesSinceMidnight_range _ _ _ Hh1 Hm1 Hc1) as [L1 U1].
  destruct (minutesSinceMidnight_range _ _ _ Hh2 Hm2 Hc2) as [L2 U2].
  destruct (wrapAround_spec (minutesSinceMidnight (h1, m1, c1))) as [A1 B1].
  destruct (wrapAround_spec (minutesSinceMidnight (h2, m2, c2))) as [A2 B2].
  revert L1 U1 L2 U2 A1 B1 A2 B2.
  generalize (wrapAround (minutesSinceMidnight (h1, m1, c1))).
  generalize (wrapAround (minutesSinceMidnight (h2, m2, c2))).
  generalize (minutesSinceMidnight (h1, m1, c1)).
  generalize (minutesSinceMidnight (h2, m2, c2)).
  intros y x wy wx L1 U1 L2 U2 A1 B1 A2 B2.
  destruct (Qlt_le_dec x 165%Q) as [Cx|Cx];
    [specialize (A1 Cx)|specialize (B1 Cx)];
    (destruct (Qlt_le_dec y 165%Q) as [Cy|Cy];
     [specialize (A2 Cy)|specialize (B2 Cy)]);
    repeat split; intros; try lra;
    match goal with H : _ \/ _ |- _ => destruct H; lra end.
Qed.

Lemma timeToMinutes_traffic_day_order_witness :
  exists v1 v2,
    _timeToMinutes "01:10" = Some v1 /\ _timeToMinutes "08:00" = Some v2 /\
    (v2 < v1)%Q.
Proof.
  destruct (timeToMinutes_traffic_day_order "01:10" "08:00" (1, 10, 0)
              (8, 0, 0) eq_refl eq_refl) as (v1 & v2 & E1 & E2 & _ & _ & H).
  exists v1, v2. split; [exact E1|]. split; [exact E2|].
  apply H; [reflexivity|]. intros C. discriminate C.
Defined.

(** What [fmt_time] shows for the codec's result of a clock value written
    [HH:MM] is that clock value again, except that the hours before 02:45
    show as 24, 25 and 26; a missing time shows as dashes. *)
Theorem fmt_time_of_timeToMinutes :
  Display.fmt_time None = "--:--" /\
  forall h m, 0 <= h < 24 -> 0 <= m < 60 ->
    Display.fmt_time (_timeToMinutes (clockHM h m))
    = clockHM (Stmt.shown_hour h m) m.
Proof.
  split; [reflexivity|]. intros h m Hh Hm.
  assert (A : forallb (fun h => forallb (Stmt.shows_back h) (Aux.Zrange 60))
                (Aux.Zrange 24) = true) by (vm_compute; reflexivity).
  rewrite forallb_forall in A.
  specialize (A h (In_Zrange 24 h Hh)). rewrite forallb_forall in A.
  specialize (A m (In_Zrange 60 m Hm)).
  now apply String.eqb_eq in A.
Qed.

Lemma fmt_time_of_timeToMinutes_witness :
  Display.fmt_time (_timeToMinutes "00:30") = "24:30" /\
  Display.fmt_time (_timeToMinutes "08:05") = "08:05".
Proof.
  split.
  - apply (proj2 fmt_time_of_timeToMinutes 0 30); lia.
  - apply (proj2 fmt_time_of_timeToMinutes 8 5); lia.
Defined.

(* ================================================================== *)
(** * The time pattern and the codec *)
(* ================================================================== *)

Section PatternAndCodec.

Import TimeTableParser.

Lemma digit_not_space c : is_digit c = true -> is_space c = false.
Proof.
  unfold is_digit, is_space. rewrite in_range_spec. intros H.
  apply orb_false_iff. split.
  - destruct (in_range 9 13 c) eqn:E; [|reflexivity].
    apply in_range_spec in E. lia.
  - destruct (in_range 28 32 c) eqn:E; [|reflexivity].
    apply in_range_spec in E. lia.
Qed.

Lemma sexagesimal_digit c : in_range 48 53 c = true -> is_digit c = true.
Proof. unfold is_digit. rewrite !in_range_spec. lia. Qed.

Lemma colon_inv s r : colon s = Some r -> s = String ":" r.
Proof.
  destruct s as [|c s]; [discriminate|].
  destruct c as [[] [] [] [] [] [] [] []]; try discriminate.
  now intros [= ->].
Qed.

Lemma sexagesimal_inv s r :
  sexagesimal s = Some r ->
  exists a b, s = String a (String b r) /\
              in_range 48 53 a = true /\ is_digit b = true.
Proof.
  destruct s as [|a [|b s]]; try discriminate. cbn [sexagesimal].
  destruct (in_range 48 53 a) eqn:A; [|discriminate].
  destruct (is_digit b) eqn:B; [|discriminate].
  intros [= ->]. now exists a, b.
Qed.

Lemma at_end_inv s : at_end s = true -> s = "" \/ s = String "010" "".
Proof.
  destruct s as [|c [|c' s]]; try discriminate; [now left|].
  cbn [at_end]. intros ->%Ascii.eqb_eq. now right.
Qed.

(** What [:[0-5]\d(?::[0-5]\d)?$] accepts. *)
Lemma minutes_seconds_end_inv s :
  minutes_seconds_end s = true ->
  exists tail nl,
    s = (tail ++ nl)%string /\ (nl = "" \/ nl = String "010" "") /\
    Stmt.clock_tail tail /\ Stmt.no_blank tail.
Proof.
  unfold minutes_seconds_end.
  destruct (colon s) as [s1|] eqn:C1; [|discriminate].
  apply colon_inv in C1. subst s.
  destruct (sexagesimal s1) as [s2|] eqn:M; [|discriminate].
  apply sexagesimal_inv in M as (m1 & m2 & -> & Hm1 & Hm2).
  pose proof (digit_not_space _ (sexagesimal_digit _ Hm1)) as B1.
  pose proof (digit_not_space _ Hm2) as B2.
  rewrite orb_true_iff. intros [E|E].
  - exists (String ":" (String m1 (String m2 ""))), s2.
    split; [reflexivity|]. split; [now apply at_end_inv|]. split.
    + exists m1, m2. auto.
    + unfold Stmt.no_blank. cbn [Aux.all_chars]. now rewrite B1, B2.
  - destruct (colon s2) as [s3|] eqn:C2; [|discriminate].
    apply colon_inv in C2. subst s2.
    destruct (sexagesimal s3) as [s4|] eqn:S; [|discriminate].
    apply sexagesimal_inv in S as (c1 & c2 & -> & Hc1 & Hc2).
    pose proof (digit_not_space _ (sexagesimal_digit _ Hc1)) as B3.
    pose proof (digit_not_space _ Hc2) as B4.
    exists (String ":" (String m1 (String m2
              (String ":" (String c1 (String c2 "")))))), s4.
    split; [reflexivity|]. split; [now apply at_end_inv|]. split.
    + exists m1, m2. split; [exact Hm1|]. split; [exact Hm2|].
      right. now exists c1, c2.
    + unfold Stmt.no_blank. cbn [Aux.all_chars].
      now rewrite B1, B2, B3, B4.
Qed.

Lemma directive_two_chars two a b r :
  is_digit a = true -> is_digit b = true -> two a b = true ->
  directive two (String a (String b r))
  = Some (digit_val a * 10 + digit_val b, r).
Proof. intros A B T. unfold directive. now rewrite A, B, T. Qed.

Lemma directive_one_char two a r :
  is_digit a = true ->
  directive two (String a (String ":" r)) = Some (digit_val a, String ":" r).
Proof. intros A. unfold directive. now rewrite A. Qed.

(** After the hour, [strptime] reads what the pattern accepted. *)
Lemma clock_tail_parses s h r :
  directive two_H s = Some (h, r) -> Stmt.clock_tail r ->
  exists t,
    match strptime_HMS s with
    | Some t => Some t
    | None => strptime_HM s
    end = Some t.
Proof.
  intros H (m1 & m2 & Hm1 & Hm2 & T).
  pose proof (directive_two_chars two_M m1 m2) as DM.
  unfold strptime_HMS, strptime_HM. rewrite H.
  destruct T as [-> |(s1 & s2 & Hs1 & Hs2 & ->)]; cbn [colon].
  - rewrite DM by (auto using sexagesimal_digit). cbn [colon].
    now eexists.
  - rewrite DM by (auto using sexagesimal_digit). cbn [colon].
    rewrite (directive_two_chars two_S s1 s2)
      by (auto using sexagesimal_digit;
          unfold two_S; rewrite Hs1; apply orb_true_r).
    apply (digit_val_range 48 53) in Hs1. apply digit_val_digit in Hs2.
    cbn in Hs1.
    destruct (Z.leb_spec (digit_val s1 * 10 + digit_val s2) 59); [|lia].
    now eexists.
Qed.

(** What the pattern accepts at the start of a text, without the date
    prefix. *)
Lemma time_end_inv s :
  time_end s = true ->
  exists body nl,
    s = (body ++ nl)%string /\ (nl = "" \/ nl = String "010" "") /\
    Stmt.no_blank body /\
    exists h r, directive two_H body = Some (h, r) /\ Stmt.clock_tail r.
Proof.
  destruct s as [|a s]; [discriminate|]. cbn [time_end].
  rewrite orb_true_iff. intros [E|E].
  - apply andb_true_iff in E as [A E].
    apply minutes_seconds_end_inv in E as (tail & nl & -> & Hnl & T & B).
    exists (String a tail), nl. split; [reflexivity|]. split; [exact Hnl|].
    split.
    + unfold Stmt.no_blank in *. cbn [Aux.all_chars].
      now rewrite (digit_not_space _ A), B.
    + exists (digit_val a), tail. split; [|exact T].
      destruct T as (m1 & m2 & _ & _ & [-> |(s1 & s2 & _ & _ & ->)]);
        now apply directive_one_char.
  - destruct s as [|b s]; [discriminate|].
    apply andb_true_iff in E as [AB E].
    apply minutes_seconds_end_inv in E as (tail & nl & -> & Hnl & T & B).
    assert (D : is_digit a = true /\ is_digit b = true /\ two_H a b = true).
    { unfold two_H. apply orb_true_iff in AB as [AB|AB];
        apply andb_true_iff in AB as [A1 A2].
      - rewrite A1, orb_true_r. split; [|split]; auto.
        unfold is_digit. apply in_range_spec in A1.
        apply in_range_spec. lia.
      - rewrite A1, A2. apply Ascii.eqb_eq in A1. subst a.
        split; [reflexivity|]. split; [|reflexivity].
        unfold is_digit. apply in_range_spec in A2.
        apply in_range_spec. lia. }
    destruct D as (A & Bd & T2).
    exists (String a (String b tail)), nl.
    split; [reflexivity|]. split; [exact Hnl|]. split.
    + unfold Stmt.no_blank in *. cbn [Aux.all_chars].
      now rewrite (digit_not_space _ A), (digit_not_space _ Bd), B.
    + exists (digit_val a * 10 + digit_val b), tail.
      split; [now apply directive_two_chars|exact T].
Qed.

Lemma rstrip_newline body :
  Stmt.no_blank body -> rstrip (body ++ String "010" "") = body.
Proof.
  unfold Stmt.no_blank. induction body as [|c r IH]; [reflexivity|].
  cbn [Aux.all_chars]. rewrite andb_true_iff, negb_true_iff.
  intros [Hc Hr]. cbn [append]. rewrite (rstrip_keep c _ Hc).
  now rewrite (IH Hr).
Qed.

Lemma strip_body body nl :
  Stmt.no_blank body -> nl = "" \/ nl = String "010" "" ->
  strip (body ++ nl) = body.
Proof.
  intros B [-> | ->].
  - replace (body ++ "")%string with body
      by (clear; induction body; cbn; congruence).
    now apply strip_no_blank.
  - unfold strip. destruct body as [|c r]; [reflexivity|].
    assert (Hc : is_space c = false).
    { unfold Stmt.no_blank in B. cbn [Aux.all_chars] in B.
      apply andb_true_iff in B as [Hc _]. now apply negb_true_iff. }
    cbn [append lstrip]. rewrite Hc.
    exact (rstrip_newline (String c r) B).
Qed.

Lemma chomp_body body nl :
  Stmt.no_blank body -> nl = "" \/ nl = String "010" "" ->
  chomp (body ++ nl) = body.
Proof.
  unfold Stmt.no_blank. intros B Hnl.
  induction body as [|c r IH].
  - destruct Hnl as [-> | ->]; reflexivity.
  - cbn [Aux.all_chars] in B. apply andb_true_iff in B as [Hc Hr].
    specialize (IH Hr). cbn [append].
    destruct (r ++ nl)%string as [|c' r'] eqn:E.
    + destruct r; [|discriminate]. cbn [chomp].
      destruct (Ascii.eqb_spec c "010") as [-> |]; [discriminate|reflexivity].
    + cbn [chomp]. cbn [chomp] in IH. now rewrite IH.
Qed.

(** A text that the pattern accepts without date prefix has a time. *)
Lemma time_end_has_time s :
  time_end s = true -> exists v, _timeToMinutes (strip (chomp s)) = Some v.
Proof.
  intros H.
  apply time_end_inv in H as (body & nl & -> & Hnl & B & h & r & D & T).
  rewrite (chomp_body body nl B Hnl), timeToMinutes_ignores_blanks.
  rewrite timeToMinutes_parse. unfold parseClock.
  rewrite (strip_no_blank body B).
  destruct (clock_tail_parses body h r D T) as [t E].
  rewrite E. now eexists.
Qed.

Lemma flat_map_nonempty {A B} (f : A -> list B) l :
  flat_map f l <> [] -> exists x, In x l /\ f x <> [].
Proof.
  induction l as [|a l IH]; [now intros H|].
  cbn [flat_map]. destruct (f a) eqn:E.
  - intros H. destruct (IH H) as (x & Hx & Hf). exists x. auto using in_cons.
  - intros _. exists a. split; [now left|congruence].
Qed.

(** A text with a date prefix begins with one or two digits and a
    slash. *)
Lemma date_prefix_inv s :
  date_prefix s <> [] ->
  exists d x, is_digit d = true /\
    (s = String d (String "/" x) \/
     exists d', is_digit d' = true /\ s = String d (String d' (String "/" x))).
Proof.
  unfold date_prefix. intros H.
  assert (inner : forall (A B : Type) (f : A -> list B) l,
            flat_map f l <> [] -> l <> []).
  { intros A B f l Hl ->. now apply Hl. }
  do 4 apply inner in H.
  apply flat_map_nonempty in H as (r & Hr & Hs).
  assert (Hslash : exists x, r = String "/" x).
  { destruct r as [|c r]; [now elim Hs|].
    destruct c as [[] [] [] [] [] [] [] []]; try (elim Hs; reflexivity).
    now exists r. }
  destruct Hslash as [x ->].
  unfold digits_between in Hr. apply in_map_iff in Hr as ([n r'] & E & Hin).
  cbn [snd] in E. subst r'. apply filter_In in Hin as [Hin Hn].
  cbn [fst] in Hn. apply Nat.leb_le in Hn.
  destruct s as [|d s]; cbn [digits_upto] in Hin.
  { destruct Hin as [E|[]]. discriminate E. }
  destruct Hin as [E|Hin]; [inversion E; subst n; lia|].
  destruct (is_digit d) eqn:D; [|contradiction].
  exists d, x. split; [exact D|].
  apply in_map_iff in Hin as ([n' r'] & E & Hin).
  cbn [fst snd] in E. inversion E; subst n r'. clear E.
  destruct Hin as [E|Hin]; [left; now inversion E|].
  destruct s as [|d' s]; [contradiction|].
  destruct (is_digit d') eqn:D'; [|contradiction].
  destruct Hin as [E|[]].
  right. exists d'. split; [exact D'|]. now inversion E.
Qed.

(** The codec does not read a text that begins with digits and a
    slash. *)
Lemma slash_has_no_time d rest :
  is_digit d = true ->
  (exists x, rest = String "/" x) \/
  (exists d' x, is_digit d' = true /\ rest = String d' (String "/" x)) ->
  parseClock (String d rest) = None.
Proof.
  intros D Hrest.
  assert (Hs : is_space "/" = false) by reflexivity.
  unfold parseClock, strip. cbn [lstrip].
  rewrite (digit_not_space d D), (rstrip_keep d rest (digit_not_space d D)).
  destruct Hrest as [[x ->]|(d' & x & D' & ->)].
  - rewrite (rstrip_keep "/" x Hs).
    unfold strptime_HMS, strptime_HM, directive. rewrite D.
    replace (is_digit "/") with false by reflexivity. cbn [andb colon].
    reflexivity.
  - rewrite (rstrip_keep d' _ (digit_not_space d' D')),
            (rstrip_keep "/" x Hs).
    unfold strptime_HMS, strptime_HM, directive. rewrite D, D'.
    cbn [andb]. destruct (two_H d d'); cbn [colon]; [reflexivity|].
    destruct d' as [[] [] [] [] [] [] [] []];
      try discriminate D'; reflexivity.
Qed.

Lemma date_prefix_has_no_time s :
  date_prefix s <> [] -> _timeToMinutes (strip (chomp s)) = None.
Proof.
  intros H. rewrite timeToMinutes_ignores_blanks, timeToMinutes_parse.
  apply date_prefix_inv in H as (d & x & D & [-> |(d' & D' & ->)]).
  - assert (E : exists y, chomp (String d (String "/" x))
                          = String d (String "/" y)).
    { cbn [chomp]. destruct x; [|now eexists].
      replace (Ascii.eqb "/" "010") with false by reflexivity. now eexists. }
    destruct E as [y ->].
    rewrite (slash_has_no_time d _ D); [reflexivity|]. left. now exists y.
  - assert (E : exists y, chomp (String d (String d' (String "/" x)))
                          = String d (String d' (String "/" y))).
    { cbn [chomp]. destruct x; [|now eexists].
      replace (Ascii.eqb "/" "010") with false by reflexivity. now eexists. }
    destruct E as [y ->].
    rewrite (slash_has_no_time d _ D); [reflexivity|].
    right. now exists d', y.
Qed.

(** What [search] returns is the accepted text without its final
    newline. *)
Lemma rTimePattern_search_inv cell tCell :
  rTimePattern_search cell = Some tCell ->
  exists suffix, tCell = chomp suffix /\ rTimePattern_match suffix = true.
Proof.
  induction cell as [|c cell IH]; cbn [rTimePattern_search].
  - destruct (rTimePattern_match "") eqn:E; [|discriminate].
    intros [= <-]. now exists "".
  - destruct (rTimePattern_match (String c cell)) eqn:E; [|exact IH].
    intros [= <-]. now exists (String c cell).
Qed.

End PatternAndCodec.

(** The text that the sequencer takes from a cell is either a plain clock
    value, and then its event has a time, or a clock value with a date in
    front, and then its event has no time: the codec does not read
    dates. *)
Theorem searched_cell_time :
  forall cell tCell,
    TimeTableParser.rTimePattern_search cell = Some tCell ->
    exists suffix,
      tCell = TimeTableParser.chomp suffix /\
      ((TimeTableParser.time_end suffix = true /\
        exists v, _timeToMinutes (strip tCell) = Some v) \/
       (TimeTableParser.date_prefix suffix <> [] /\
        _timeToMinutes (strip tCell) = None)).
Proof.
  intros cell tCell H.
  apply rTimePattern_search_inv in H as (suffix & -> & M).
  exists suffix. split; [reflexivity|].
  unfold TimeTableParser.rTimePattern_match in M.
  destruct (TimeTableParser.date_prefix suffix) as [|p ps] eqn:P.
  - left. cbn [existsb orb] in M. split; [exact M|].
    now apply time_end_has_time.
  - right. split; [discriminate|].
    apply date_prefix_has_no_time. rewrite P. discriminate.
Qed.

Lemma searched_cell_time_witness :
  (exists v, _timeToMinutes (strip "08:00") = Some v) /\
  _timeToMinutes (strip "12/25/2024 08:00") = None.
Proof.
  split.
  - destruct (searched_cell_time "dep 08:00" "08:00" eq_refl)
      as (suffix & E & [[_ H]|[_ H]]); [exact H|discriminate H].
  - reflexivity.
Defined.

(* ================================================================== *)
(** * More on the length of a service *)
(* ================================================================== *)

Section Ways.

Import ServiceOps.

Lemma fold_deltas ds :
  forall d l,
    (fold_left Qplus
       (map (fun p => Qabs (fst p - snd p)) (combine (d :: ds) ds)) l
     == l + Stmt.deltas d ds)%Q.
Proof.
  induction ds as [|d' r IH]; intros d l.
  - cbn. ring.
  - etransitivity; [exact (IH d' (l + Qabs (d - d'))%Q)|].
    cbn [Stmt.deltas]. ring.
Qed.

Lemma sum_of_chainage_deltas_way ds :
  (Aux.sum_of_chainage_deltas ds == Stmt.way ds)%Q.
Proof.
  unfold Aux.sum_of_chainage_deltas. destruct ds as [|d r]; [reflexivity|].
  cbn [tl Stmt.way]. rewrite fold_deltas. ring.
Qed.

Lemma deltas_nonneg ds : forall d, (0 <= Stmt.deltas d ds)%Q.
Proof.
  induction ds as [|d' r IH]; intros d; cbn [Stmt.deltas]; [apply Qle_refl|].
  pose proof (Qabs_nonneg (d - d')). pose proof (IH d'). lra.
Qed.

(** The way is at least the distance between its two ends. *)
Lemma deltas_triangle ds :
  forall d, (Qabs (last ds d - d) <= Stmt.deltas d ds)%Q.
Proof.
  induction ds as [|d' r IH]; intros d.
  - cbn [last Stmt.deltas]. setoid_replace (d - d)%Q with 0%Q by ring.
    apply Qle_refl.
  - replace (last (d' :: r) d) with (last r d')
      by (clear; revert d'; induction r as [|x r IH]; intros d';
          [reflexivity| cbn [last] in *; destruct r; [reflexivity|apply IH]]).
    cbn [Stmt.deltas].
    setoid_replace (last r d' - d)%Q with ((d' - d) + (last r d' - d'))%Q
      by ring.
    eapply Qle_trans; [apply Qabs_triangle|].
    rewrite (Qabs_Qminus d' d).
    pose proof (IH d'). lra.
Qed.

Lemma last_cons_default {A} (x : A) r d : last (x :: r) d = last r x.
Proof.
  revert x. induction r as [|y r IH]; intros x; [reflexivity|].
  cbn [last] in *. destruct r; [reflexivity|apply IH].
Qed.

Lemma last_rev_hd {A} (l : list A) d : last (rev l) d = hd d l.
Proof. destruct l as [|x l]; [reflexivity|]. cbn [rev hd]. apply last_last. Qed.

Lemma hd_rev_last {A} (l : list A) d : hd d (rev l) = last l d.
Proof. rewrite <- (rev_involutive l) at 2. now rewrite last_rev_hd. Qed.

(** Along chainages that only grow, the way is the distance between the
    ends. *)
Lemma deltas_ascending ds :
  forall d, Sorted Qle (d :: ds) ->
    (Stmt.deltas d ds == last ds d - d /\ d <= last ds d)%Q.
Proof.
  induction ds as [|d' r IH]; intros d S.
  - cbn [last Stmt.deltas]. split; [ring|apply Qle_refl].
  - apply Sorted_inv in S as [S H]. apply HdRel_inv in H.
    destruct (IH d' S) as [E L].
    rewrite last_cons_default. cbn [Stmt.deltas]. rewrite E.
    split; [|lra].
    setoid_replace (d - d')%Q with (- (d' - d))%Q by ring.
    rewrite Qabs_opp, Qabs_pos by lra. ring.
Qed.

Lemma deltas_snoc l :
  forall a x y,
    (Stmt.deltas a (l ++ [x; y])
     == Stmt.deltas a (l ++ [x]) + Qabs (x - y))%Q.
Proof.
  induction l as [|b l IH]; intros a x y.
  - cbn. ring.
  - cbn [app Stmt.deltas]. rewrite IH. ring.
Qed.

Lemma way_snoc l x y :
  (Stmt.way (l ++ [x; y]) == Stmt.way (l ++ [x]) + Qabs (x - y))%Q.
Proof.
  destruct l as [|a l]; [cbn; ring|]. cbn [app Stmt.way]. apply deltas_snoc.
Qed.

(** The way back is as long as the way out. *)
Lemma way_rev l : (Stmt.way (rev l) == Stmt.way l)%Q.
Proof.
  induction l as [|a l IH]; [reflexivity|].
  destruct l as [|b r]; [reflexivity|].
  change (rev (a :: b :: r)) with ((rev r ++ [b]) ++ [a]).
  rewrite <- app_assoc. cbn [app].
  rewrite way_snoc. change (rev r ++ [b]) with (rev (b :: r)).
  rewrite IH. cbn [Stmt.way Stmt.deltas].
  rewrite (Qabs_Qminus b a). ring.
Qed.

Lemma chainage_distance e :
  distance (StationEvent.atStation e)
  = match Aux.chainage e with
    | Some d => Ok d
    | None => Raise KeyError
    end.
Proof. reflexivity. Qed.

(** The loop raises nothing but [KeyError], and that at an event whose
    station the distance map lacks. *)
Lemma add_delta_loop rest :
  forall st,
    (exists ds, map Aux.chainage rest = map Some ds) \/
    ((exists e, In e rest /\ Aux.chainage e = None) /\
     for_each rest add_delta st = Raise KeyError).
Proof.
  induction rest as [|e rest IH]; intros st.
  - left. now exists [].
  - cbn [for_each]. unfold add_delta at 1. rewrite chainage_distance.
    destruct (Aux.chainage e) as [d|] eqn:E; cbn [bind].
    + destruct (IH ((fst st + Qabs (snd st - d))%Q, d))
        as [[ds H]|[(e' & He' & N) H]].
      * left. exists (d :: ds). cbn [map]. now rewrite E, H.
      * right. split; [|exact H]. exists e'. split; [now right|exact N].
    + right. split; [|reflexivity]. exists e. split; [now left|exact E].
Qed.

Lemma chainages_defined events ds :
  map Aux.chainage events = map Some ds ->
  forall e, In e events -> Aux.chainage e <> None.
Proof.
  revert ds. induction events as [|e0 r IH]; intros ds H e Hin;
    [contradiction|].
  destruct ds as [|d ds]; [discriminate|]. injection H as Hd Hr.
  destruct Hin as [<-|Hin]; [congruence|now apply (IH ds)].
Qed.

Lemma map_Some_inj {A} (a b : list A) : map Some a = map Some b -> a = b.
Proof.
  revert b. induction a as [|x a IH]; intros [|y b]; try discriminate;
    [reflexivity|].
  cbn [map]. intros [= -> H]. f_equal. now apply IH.
Qed.

(** What [computeLengthKm] does, by cases. *)
Lemma computeLengthKm_cases events :
  (events = [] /\ computeLengthKm events = Raise IndexError) \/
  ((exists e, In e events /\ Aux.chainage e = None) /\
   computeLengthKm events = Raise KeyError) \/
  (exists ds l, events <> [] /\ map Aux.chainage events = map Some ds /\
     computeLengthKm events = Ok l /\ (l == Stmt.way ds)%Q).
Proof.
  destruct events as [|e0 rest]; [left; now split|]. right.
  unfold computeLengthKm. rewrite index_0_cons. cbn [bind tl].
  rewrite chainage_distance.
  destruct (Aux.chainage e0) as [d0|] eqn:E0; cbn [bind].
  - destruct (add_delta_loop rest (0%Q, d0)) as [[ds H]|[(e & He & N) H]].
    + right. destruct (computeLengthKm_loop rest ds 0%Q d0 H) as [dlast E].
      rewrite E. cbn [bind fst]. exists (d0 :: ds). eexists.
      split; [discriminate|].
      split; [cbn [map]; now rewrite E0, H|]. split; [reflexivity|].
      cbn [Stmt.way]. rewrite fold_deltas. ring.
    + left. rewrite H. split; [|reflexivity].
      exists e. split; [now right|exact N].
  - left. split; [|reflexivity]. exists e0. split; [now left|exact E0].
Qed.

End Ways.

(** A service with an event at a station that the distance map lacks gets
    no length: [computeLengthKm] raises [KeyError].  Conversely, when it
    returns a length the service has events and the map knows the station
    of every one of them, and the length is not negative. *)
Theorem computeLengthKm_outcomes :
  forall events,
    (events <> [] -> (exists e, In e events /\ Aux.chainage e = None) ->
     ServiceOps.computeLengthKm events = Raise KeyError) /\
    (forall l, ServiceOps.computeLengthKm events = Ok l ->
       events <> [] /\ (forall e, In e events -> Aux.chainage e <> None) /\
       (0 <= l)%Q).
Proof.
  intros events.
  destruct (computeLengthKm_cases events)
    as [[-> E]|[[(e & He & N) E]|(ds & l & Hne & Hmap & E & V)]].
  - split; [intros H; now elim H|]. intros l H. congruence.
  - split; [auto|]. intros l H. congruence.
  - split.
    + intros _ (e & He & N). now elim (chainages_defined _ _ Hmap e He).
    + intros l' H. rewrite E in H. injection H as <-.
      split; [exact Hne|]. split; [exact (chainages_defined _ _ Hmap)|].
      rewrite V. destruct ds as [|d r]; [apply Qle_refl|apply deltas_nonneg].
Qed.

Lemma computeLengthKm_outcomes_witness :
  ServiceOps.computeLengthKm
    [Inputs.event_at "DADAR" "08:00"; Inputs.event_at "THANE" "08:40"]
  = Raise KeyError /\
  (0 <= 19)%Q.
Proof.
  split.
  - apply (proj1 (computeLengthKm_outcomes
             [Inputs.event_at "DADAR" "08:00";
              Inputs.event_at "THANE" "08:40"])).
    + discriminate.
    + exists (Inputs.event_at "THANE" "08:40"). split; [right; now left|].
      reflexivity.
  - apply (proj2 (computeLengthKm_outcomes Inputs.short_run) (19 # 1)%Q).
    reflexivity.
Defined.

(** The length of a service is at least the distance between the
    stations of its first and last event, and equals it when the
    chainages of the events only grow or only fall. *)
Theorem computeLengthKm_between_ends :
  forall events d0 ds,
    map Aux.chainage events = map Some (d0 :: ds) ->
    exists l,
      ServiceOps.computeLengthKm events = Ok l /\
      (Qabs (last ds d0 - d0) <= l)%Q /\
      (Sorted Qle (d0 :: ds) \/ Sorted Qle (rev (d0 :: ds)) ->
       (l == Qabs (last ds d0 - d0))%Q).
Proof.
  intros events d0 ds Hmap.
  destruct (computeLengthKm_cases events)
    as [[-> E]|[[(e & He & N) E]|(ds' & l & Hne & Hmap' & E & V)]].
  - discriminate.
  - now elim (chainages_defined _ _ Hmap e He).
  - rewrite Hmap in Hmap'. apply map_Some_inj in Hmap'. subst ds'. exists l. split; [exact E|]. cbn [Stmt.way] in V.
    split; [rewrite V; apply deltas_triangle|].
    intros [S|S].
    + destruct (deltas_ascending ds d0 S) as [D L].
      rewrite V, D, Qabs_pos by lra. reflexivity.
    + assert (R : (Stmt.way (rev (d0 :: ds)) == Stmt.deltas d0 ds)%Q)
        by exact (way_rev (d0 :: ds)).
      rewrite V, <- R.
      destruct (rev (d0 :: ds)) as [|x r] eqn:Er.
      { apply (f_equal (@List.length Q)) in Er. rewrite length_rev in Er.
        discriminate. }
      cbn [Stmt.way]. destruct (deltas_ascending r x S) as [D L].
      assert (Hx : x = last ds d0).
      { rewrite <- (last_cons_default d0 ds d0), <- hd_rev_last, Er.
        reflexivity. }
      assert (Hl : last r x = d0).
      { rewrite <- (last_cons_default x r d0), <- Er. apply last_rev_hd. }
      rewrite D, Hl, <- Hx. rewrite Hl in L.
      setoid_replace (x - d0)%Q with (- (d0 - x))%Q by ring.
      rewrite Qabs_opp, Qabs_pos by lra. reflexivity.
Qed.

Lemma computeLengthKm_between_ends_witness :
  exists l,
    ServiceOps.computeLengthKm
      [Inputs.event_at "CHURCHGATE" "08:00"; Inputs.event_at "DADAR" "08:15";
       Inputs.event_at "BANDRA" "08:22"] = Ok l /\
    (Qabs (15 - 0) <= l)%Q /\
    (Sorted Qle [0; 11; 15]%Q \/ Sorted Qle (rev [0; 11; 15]%Q) ->
     (l == Qabs (15 - 0))%Q).
Proof.
  apply (computeLengthKm_between_ends
           [Inputs.event_at "CHURCHGATE" "08:00";
            Inputs.event_at "DADAR" "08:15";
            Inputs.event_at "BANDRA" "08:22"] 0%Q [11; 15]%Q).
  reflexivity.
Defined.

(** A service has the same length as the service that calls at the same
    stations in the opposite order. *)
Theorem computeLengthKm_reverse :
  forall events l,
    ServiceOps.computeLengthKm events = Ok l ->
    exists l',
      ServiceOps.computeLengthKm (rev events) = Ok l' /\ (l' == l)%Q.
Proof.
  intros events l H.
  destruct (computeLengthKm_cases events)
    as [[_ E]|[[_ E]|(ds & l0 & Hne & Hmap & E & V)]]; try congruence.
  rewrite E in H. injection H as ->.
  destruct (computeLengthKm_cases (rev events))
    as [[E' _]|[[(e & He & N) _]|(ds' & l' & _ & Hmap' & E' & V')]].
  - apply (f_equal (@rev _)) in E'. rewrite rev_involutive in E'.
    now elim Hne.
  - apply in_rev in He. now elim (chainages_defined _ _ Hmap e He).
  - exists l'. split; [exact E'|].
    rewrite map_rev, Hmap, <- map_rev in Hmap'.
    apply map_Some_inj in Hmap'. subst ds'.
    rewrite V', V. apply way_rev.
Qed.

Lemma computeLengthKm_reverse_witness :
  exists l',
    ServiceOps.computeLengthKm (rev Inputs.short_run) = Ok l' /\
    (l' == 19)%Q.
Proof.
  apply (computeLengthKm_reverse Inputs.short_run (19 # 1)%Q). reflexivity.
Defined.

(* ================================================================== *)
(** * More on the validation of the rake cycles *)
(* ================================================================== *)

Section ConflictShapes.

Import Reconciler.

Lemma drop_last_snoc_inv {A} (s w : list A) :
  s <> [] -> drop_last 1 s = w -> exists z, s = w ++ [z].
Proof.
  intros Hne E. destruct (exists_last Hne) as (l & z & ->).
  rewrite drop_last_1 in E. subst l. now exists z.
Qed.

Lemma drop_last_two_inv {A} (s w : list A) :
  (2 <= List.length s)%nat -> drop_last 2 s = w ->
  exists x y, s = w ++ [x; y].
Proof.
  intros Hlen E.
  assert (Hne : s <> []) by (intros ->; cbn in Hlen; lia).
  destruct (exists_last Hne) as (l & y & ->).
  rewrite length_app in Hlen. cbn in Hlen.
  assert (Hne' : l <> []) by (intros ->; cbn in Hlen; lia).
  destruct (exists_last Hne') as (l' & x & ->).
  rewrite <- app_assoc in E. cbn [app] in E.
  rewrite drop_last_2 in E. subst l'. exists x, y.
  now rewrite <- app_assoc.
Qed.

(** The shapes that the pass tells apart. *)
Lemma conflicts_shape s w :
  w = s \/
  (exists z, s = w ++ [z]) \/
  (exists x y, s = w ++ [x; y]) \/
  conflicts s w = Ok true.
Proof.
  unfold conflicts.
  destruct (ids_eqb w s) eqn:E0; [left; now apply ids_eqb_eq|].
  right. cbn [negb].
  destruct (ids_eqb (drop_last 1 s) w) eqn:E1.
  - left. apply ids_eqb_eq in E1. apply drop_last_snoc_inv; [|exact E1].
    intros ->. cbn in E1. subst w. cbn in E0. discriminate.
  - right. destruct (ids_eqb (drop_last 2 s) w) eqn:E2; [|now right].
    left. apply ids_eqb_eq in E2. apply drop_last_two_inv; [|exact E2].
    destruct s as [|a [|b s]]; cbn [List.length]; [| |lia].
    + cbn in E2. subst w. cbn in E0. discriminate.
    + cbn in E2. subst w. cbn in E1. discriminate.
Qed.

End ConflictShapes.

(** The decision of the validation pass for one rake cycle, in full.  The
    declared sequence [s] and the chain [w] agree when they are equal,
    when [s] is [w] and one trailing placeholder, or when [s] is [w] and
    two trailing entries of which the last is a placeholder and [w]
    itself ends in a placeholder.  The decision fails, with [IndexError],
    exactly for an empty chain against two declared entries.  In every
    other case the rake cycle is a conflict. *)
Theorem conflicts_decision :
  forall s w,
    (Reconciler.conflicts s w = Ok false <->
       w = s \/
       (exists z, s = w ++ [z] /\ Reconciler.is_ety z = true) \/
       (exists w' z x y, w = w' ++ [z] /\ s = w ++ [x; y] /\
          Reconciler.is_ety z = true /\ Reconciler.is_ety y = true)) /\
    (forall e, Reconciler.conflicts s w = Raise e <->
       e = IndexError /\ w = [] /\ exists x y, s = [x; y]).
Proof.
  intros s w. split; [split|intros e; split].
  - intros H.
    destruct (conflicts_shape s w) as [->|[[z ->]|[(x & y & ->)|E]]].
    + now left.
    + right. left. exists z. split; [reflexivity|].
      rewrite conflicts_one_trailing in H. injection H as H.
      now apply negb_false_iff.
    + right. right.
      destruct w as [|a w0]; [discriminate H|].
      destruct (@exists_last _ (a :: w0)) as (w' & z & Ew); [discriminate|].
      rewrite Ew in *. rewrite conflicts_two_trailing in H.
      injection H as H. apply negb_false_iff, andb_true_iff in H.
      exists w', z, x, y. tauto.
    + congruence.
  - intros [->|[(z & -> & Hz)|(w' & z & x & y & -> & -> & Hz & Hy)]].
    + apply conflicts_exact.
    + now rewrite conflicts_one_trailing, Hz.
    + now rewrite conflicts_two_trailing, Hz, Hy.
  - intros H.
    destruct (conflicts_shape s w) as [->|[[z ->]|[(x & y & ->)|E]]].
    + rewrite conflicts_exact in H. discriminate.
    + rewrite conflicts_one_trailing in H. discriminate.
    + destruct w as [|a w0].
      * cbn in H. injection H as <-. split; [reflexivity|].
        split; [reflexivity|]. now exists x, y.
      * destruct (@exists_last _ (a :: w0)) as (w' & z & Ew); [discriminate|].
        rewrite Ew in *. rewrite conflicts_two_trailing in H. discriminate.
    + congruence.
  - intros (-> & -> & x & y & ->). reflexivity.
Qed.

Lemma conflicts_decision_witness :
  Reconciler.conflicts [IdInt 93001; IdStr "ETY 9"] [IdInt 93001] = Ok false.
Proof.
  apply (proj2 (proj1 (conflicts_decision
                         [IdInt 93001; IdStr "ETY 9"] [IdInt 93001]))).
  right. left. exists (IdStr "ETY 9"). split; reflexivity.
Defined.

Section ValidationPass.

Import Reconciler.

Lemma remove_first_absent x l :
  ~ In x l -> remove_first Nat.eqb x l = Raise ValueError.
Proof.
  induction l as [|y r IH]; intros H; [reflexivity|]. cbn [remove_first].
  destruct (Nat.eqb_spec y x) as [->|N]; [elim H; now left|].
  rewrite IH; [reflexivity|]. intros Hin. apply H. now right.
Qed.

Lemma remove_first_NoDup x l :
  NoDup l -> In x l ->
  remove_first Nat.eqb x l = Ok (filter (fun y => negb (Nat.eqb y x)) l).
Proof.
  induction l as [|y r IH]; intros ND Hin; [contradiction|].
  apply NoDup_cons_iff in ND as [Hy ND]. cbn [remove_first filter].
  destruct (Nat.eqb_spec y x) as [->|N]; cbn [negb].
  - f_equal. symmetry. apply forallb_filter_id. apply forallb_forall.
    intros z Hz. apply negb_true_iff, Nat.eqb_neq. intros ->. contradiction.
  - destruct Hin as [->|Hin]; [congruence|]. now rewrite (IH ND Hin).
Qed.

Lemma filter_both {A} (f g : A -> bool) l :
  filter f (filter g l) = filter (fun x => f x && g x) l.
Proof.
  induction l as [|x l IH]; [reflexivity|]. cbn [filter].
  destruct (g x); cbn [filter]; rewrite ?andb_true_r, ?andb_false_r;
    [destruct (f x)|]; now rewrite IH.
Qed.

Lemma remove_all_cons x xs wtt :
  remove_all (x :: xs) wtt
  = (l <- remove_first Nat.eqb x (rakecycles wtt) ;;
     remove_all xs (with_rakecycles l wtt)).
Proof.
  unfold remove_all. cbn [for_each].
  destruct (remove_first Nat.eqb x (rakecycles wtt)); reflexivity.
Qed.

(** Removing distinct listed rake cycles leaves the others, in order. *)
Lemma remove_all_spec xs :
  forall wtt,
    NoDup (rakecycles wtt) -> NoDup xs -> incl xs (rakecycles wtt) ->
    remove_all xs wtt
    = Ok (with_rakecycles
            (filter (fun y => negb (existsb (Nat.eqb y) xs)) (rakecycles wtt))
            wtt).
Proof.
  induction xs as [|x xs IH]; intros wtt ND NDx Hincl.
  - unfold remove_all. cbn [for_each existsb negb].
    rewrite forallb_filter_id by (apply forallb_forall; reflexivity).
    now destruct wtt.
  - apply NoDup_cons_iff in NDx as [Hx NDx].
    rewrite remove_all_cons,
      (remove_first_NoDup x _ ND (Hincl x (or_introl eq_refl))).
    cbn [bind]. rewrite IH; cbn [rakecycles with_rakecycles].
    + f_equal. unfold with_rakecycles. cbn. f_equal.
      rewrite filter_both. apply filter_ext. intros y. cbn [existsb].
      rewrite negb_orb. apply andb_comm.
    + now apply NoDup_filter.
    + exact NDx.
    + intros y Hy. apply filter_In. split; [apply Hincl; now right|].
      apply negb_true_iff, Nat.eqb_neq. intros ->. contradiction.
Qed.

(** One round of the loop, by the decision. *)
Lemma validate_one_decided rc wtt :
  Stmt.decided wtt rc ->
  exists w,
    wttPathOf wtt (rcAt (links wtt) rc) = Ok w /\
    validate_one rc wtt
    = Ok (if Stmt.disagrees wtt rc
          then with_conflictingLinks (conflictingLinks wtt ++ [(rc, w)]) wtt
          else wtt).
Proof.
  intros (w & c & Hw & Hc). exists w. split; [exact Hw|].
  unfold validate_one, Stmt.disagrees. rewrite Hw. cbn [bind].
  rewrite Hc. cbn [bind]. now destruct c.
Qed.

(** The loop records the conflicts, in order, and changes nothing else. *)
Lemma validate_loop l :
  forall wtt,
    (forall rc, In rc l -> Stmt.decided wtt rc) ->
    exists cl,
      for_each l validate_one wtt
      = Ok (with_conflictingLinks (conflictingLinks wtt ++ cl) wtt) /\
      map fst cl = filter (Stmt.disagrees wtt) l.
Proof.
  induction l as [|rc l IH]; intros wtt H.
  - exists []. split; [|reflexivity]. cbn [for_each].
    rewrite app_nil_r. now destruct wtt.
  - destruct (validate_one_decided rc wtt (H rc (or_introl eq_refl)))
      as (w & Hw & E).
    cbn [for_each filter]. rewrite E. cbn [bind].
    destruct (Stmt.disagrees wtt rc) eqn:D.
    + destruct (IH (with_conflictingLinks (conflictingLinks wtt ++ [(rc, w)])
                      wtt)) as (cl & E' & M).
      { intros rc' Hin. exact (H rc' (or_intror Hin)). }
      exists ((rc, w) :: cl). rewrite E'. split.
      * cbn [conflictingLinks with_conflictingLinks].
        rewrite <- app_assoc. reflexivity.
      * cbn [map fst]. f_equal. exact M.
    + destruct (IH wtt) as (cl & E' & M).
      { intros rc' Hin. exact (H rc' (or_intror Hin)). }
      exists cl. now split.
Qed.

End ValidationPass.

(** The table after the pass. *)
Lemma validateRakeCycles_pass :
  forall wtt,
    NoDup (rakecycles wtt) ->
    conflictingLinks wtt = [] ->
    (forall rc, In rc (rakecycles wtt) -> Stmt.decided wtt rc) ->
    exists cl,
      Reconciler.validateRakeCycles wtt
      = Ok (with_rakecycles
              (filter (fun rc => negb (Stmt.disagrees wtt rc))
                      (rakecycles wtt))
              (with_conflictingLinks cl wtt)) /\
      map fst cl = filter (Stmt.disagrees wtt) (rakecycles wtt).
Proof.
  intros wtt ND Hnil Hdec.
  destruct (validate_loop (rakecycles wtt) wtt Hdec) as (cl & E & M).
  exists cl. split; [|exact M].
  unfold Reconciler.validateRakeCycles. rewrite E. cbn [bind].
  rewrite Hnil in *. cbn [app conflictingLinks with_conflictingLinks].
  rewrite remove_all_spec; cbn [rakecycles with_conflictingLinks].
  - do 2 f_equal.
    rewrite M. apply filter_ext_in. intros y Hy. f_equal.
    destruct (Stmt.disagrees wtt y) eqn:D.
    + apply existsb_exists. exists y. split; [|apply Nat.eqb_refl].
      apply filter_In. now split.
    + destruct (existsb (Nat.eqb y) (filter (Stmt.disagrees wtt)
                                       (rakecycles wtt))) eqn:X;
        [|reflexivity].
      apply existsb_exists in X as (z & Hz & Ez).
      apply Nat.eqb_eq in Ez. subst z. apply filter_In in Hz as [_ Hz].
      congruence.
  - exact ND.
  - rewrite M. now apply NoDup_filter.
  - rewrite M. intros y Hy. now apply filter_In in Hy as [Hy _].
Qed.

(** The validation pass as a whole.  On a table whose listed rake cycles
    are distinct and all reach a decision, and with no conflict recorded
    before, the pass returns; the active set keeps exactly the rake
    cycles that agree with their chains, in their order; the others are
    recorded as conflicts, in their order; services and rake cycles
    themselves are not touched. *)
Theorem validateRakeCycles_partition :
  forall wtt,
    NoDup (rakecycles wtt) ->
    conflictingLinks wtt = [] ->
    (forall rc, In rc (rakecycles wtt) -> Stmt.decided wtt rc) ->
    exists wtt',
      Reconciler.validateRakeCycles wtt = Ok wtt' /\
      services wtt' = services wtt /\
      links wtt' = links wtt /\
      rakecycles wtt'
      = filter (fun rc => negb (Stmt.disagrees wtt rc)) (rakecycles wtt) /\
      map fst (conflictingLinks wtt')
      = filter (Stmt.disagrees wtt) (rakecycles wtt).
Proof.
  intros wtt ND Hnil Hdec.
  destruct (validateRakeCycles_pass wtt ND Hnil Hdec) as (cl & E & M).
  eexists. split; [exact E|].
  cbn [services links rakecycles conflictingLinks with_rakecycles
       with_conflictingLinks].
  split; [reflexivity|]. split; [reflexivity|]. split; [reflexivity|].
  exact M.
Qed.

Lemma validateRakeCycles_partition_witness :
  exists wtt',
    Reconciler.validateRakeCycles Inputs.mixed_table = Ok wtt' /\
    services wtt' = services Inputs.mixed_table /\
    links wtt' = links Inputs.mixed_table /\
    rakecycles wtt'
    = filter (fun rc => negb (Stmt.disagrees Inputs.mixed_table rc))
        (rakecycles Inputs.mixed_table) /\
    map fst (conflictingLinks wtt')
    = filter (Stmt.disagrees Inputs.mixed_table)
        (rakecycles Inputs.mixed_table).
Proof.
  apply (validateRakeCycles_partition Inputs.mixed_table).
  - constructor; [intros []|constructor].
  - reflexivity.
  - intros rc [<-|[]]. do 2 eexists. split; reflexivity.
Defined.

Section ValidationAgain.

Import Reconciler.

Lemma decided_same a b rc :
  services a = services b -> links a = links b ->
  Stmt.decided a rc -> Stmt.decided b rc.
Proof.
  unfold Stmt.decided, wttPathOf. intros <- <-. exact (fun H => H).
Qed.

Lemma disagrees_same a b rc :
  services a = services b -> links a = links b ->
  Stmt.disagrees a rc = Stmt.disagrees b rc.
Proof. unfold Stmt.disagrees, wttPathOf. now intros <- <-. Qed.

Lemma validate_one_keeps rc wtt wtt' :
  validate_one rc wtt = Ok wtt' ->
  services wtt' = services wtt /\ links wtt' = links wtt /\
  rakecycles wtt' = rakecycles wtt.
Proof.
  unfold validate_one.
  destruct (wttPathOf wtt (rcAt (links wtt) rc)) as [w|]; [|discriminate].
  cbn [bind].
  destruct (conflicts _ w) as [[]|]; cbn [bind]; [| |discriminate];
    intros [= <-]; repeat split.
Qed.

(** The loop does not get past a rake cycle without a path. *)
Lemma validate_loop_without_path l :
  forall wtt rc,
    In rc l -> RakeCycle.servicePath (rcAt (links wtt) rc) = None ->
    exists e, for_each l validate_one wtt = Raise e.
Proof.
  induction l as [|rc' l IH]; intros wtt rc Hin Hp; [contradiction|].
  cbn [for_each].
  destruct (validate_one rc' wtt) as [wtt1|e] eqn:E; [|now exists e].
  cbn [bind]. destruct Hin as [->|Hin].
  - unfold validate_one, wttPathOf in E. rewrite Hp in E. discriminate.
  - apply validate_one_keeps in E as (_ & El & _).
    apply (IH wtt1 rc Hin). now rewrite El.
Qed.

End ValidationAgain.

(** The validation pass needs a chain for every listed rake cycle: with a
    listed rake cycle whose path is [None] it raises, and it raises
    [TypeError] when that rake cycle is the first of the list. *)
Theorem validateRakeCycles_without_path :
  forall wtt rc,
    In rc (rakecycles wtt) ->
    RakeCycle.servicePath (rcAt (links wtt) rc) = None ->
    (exists e, Reconciler.validateRakeCycles wtt = Raise e) /\
    (forall rcs, rakecycles wtt = rc :: rcs ->
       Reconciler.validateRakeCycles wtt = Raise TypeError).
Proof.
  intros wtt rc Hin Hp. split.
  - destruct (validate_loop_without_path _ wtt rc Hin Hp) as [e E].
    exists e. unfold Reconciler.validateRakeCycles. now rewrite E.
  - intros rcs Hl. unfold Reconciler.validateRakeCycles. rewrite Hl.
    cbn [for_each]. unfold Reconciler.validate_one at 1.
    unfold Reconciler.wttPathOf. now rewrite Hp.
Qed.

(** A second validation pass over the result of the first returns the
    same table when the first found no conflict, and raises [ValueError]
    when it found one: the recorded conflicts are removed again from an
    active set that no longer lists them. *)
Theorem validateRakeCycles_again :
  forall wtt wtt',
    NoDup (rakecycles wtt) ->
    conflictingLinks wtt = [] ->
    (forall rc, In rc (rakecycles wtt) -> Stmt.decided wtt rc) ->
    Reconciler.validateRakeCycles wtt = Ok wtt' ->
    (conflictingLinks wtt' = [] ->
       Reconciler.validateRakeCycles wtt' = Ok wtt') /\
    (conflictingLinks wtt' <> [] ->
       Reconciler.validateRakeCycles wtt' = Raise ValueError).
Proof.
  intros wtt wtt' ND Hnil Hdec E.
  destruct (validateRakeCycles_pass wtt ND Hnil Hdec) as (cl0 & E' & Hc).
  rewrite E in E'. injection E' as ->.
  assert (Hs : services
                 (with_rakecycles
                    (filter (fun rc => negb (Stmt.disagrees wtt rc))
                       (rakecycles wtt)) (with_conflictingLinks cl0 wtt))
               = services wtt) by reflexivity.
  assert (Hl : links
                 (with_rakecycles
                    (filter (fun rc => negb (Stmt.disagrees wtt rc))
                       (rakecycles wtt)) (with_conflictingLinks cl0 wtt))
               = links wtt) by reflexivity.
  assert (Hr : rakecycles
                 (with_rakecycles
                    (filter (fun rc => negb (Stmt.disagrees wtt rc))
                       (rakecycles wtt)) (with_conflictingLinks cl0 wtt))
               = filter (fun rc => negb (Stmt.disagrees wtt rc))
                   (rakecycles wtt)) by reflexivity.
  change (map fst cl0)
    with (map fst
            (conflictingLinks
               (with_rakecycles
                  (filter (fun rc => negb (Stmt.disagrees wtt rc))
                     (rakecycles wtt)) (with_conflictingLinks cl0 wtt))))
    in Hc.
  clear E. revert Hs Hl Hr Hc.
  generalize (with_rakecycles
                (filter (fun rc => negb (Stmt.disagrees wtt rc))
                   (rakecycles wtt)) (with_conflictingLinks cl0 wtt)).
  clear cl0. intros wtt' Hs Hl Hr Hc.
  assert (Hloop : for_each (rakecycles wtt') Reconciler.validate_one wtt'
                  = Ok wtt').
  { destruct (validate_loop (rakecycles wtt') wtt') as (cl & Ec & M).
    - intros rc Hin. rewrite Hr in Hin. apply filter_In in Hin as [Hin _].
      apply (decided_same wtt wtt'); auto.
    - rewrite Ec. assert (cl = []) as ->.
      { destruct cl as [|[x w] cl]; [reflexivity|]. exfalso.
        assert (Hx : In x (filter (Stmt.disagrees wtt') (rakecycles wtt')))
          by (rewrite <- M; now left).
        apply filter_In in Hx as [Hx D]. rewrite Hr in Hx.
        apply filter_In in Hx as [_ D'].
        rewrite (disagrees_same wtt' wtt) in D by auto.
        rewrite D in D'. discriminate. }
      rewrite app_nil_r. now destruct wtt'. }
  unfold Reconciler.validateRakeCycles. rewrite Hloop. cbn [bind].
  split.
  - intros ->. reflexivity.
  - intros Hne. destruct (conflictingLinks wtt') as [|[x w] cl] eqn:Ecl;
      [now elim Hne|].
    cbn [map fst]. rewrite remove_all_cons, remove_first_absent;
      [reflexivity|].
    rewrite Hr. intros Hin. apply filter_In in Hin as [_ D].
    assert (Hx : In x (filter (Stmt.disagrees wtt) (rakecycles wtt)))
      by (rewrite <- Hc; cbn [map fst]; now left).
    apply filter_In in Hx as [_ D']. rewrite D' in D. discriminate.
Qed.

Lemma validateRakeCycles_without_path_witness :
  Reconciler.validateRakeCycles Cases.pathless = Raise TypeError.
Proof.
  apply (proj2 (validateRakeCycles_without_path Cases.pathless 0%nat
                  (or_introl eq_refl) eq_refl) []).
  reflexivity.
Defined.

Lemma validateRakeCycles_again_witness :
  exists wtt',
    Reconciler.validateRakeCycles Cases.linked_conflict = Ok wtt' /\
    Reconciler.validateRakeCycles wtt' = Raise ValueError.
Proof.
  eexists. split; [reflexivity|].
  refine (proj2 (validateRakeCycles_again Cases.linked_conflict _ _ _ _
                   eq_refl) _).
  - constructor; [intros []|constructor].
  - reflexivity.
  - intros rc [<-|[]]. do 2 eexists. split; reflexivity.
  - discriminate.
Defined.

(* ================================================================== *)
(** * Repair of the unmatched rake cycles *)
(* ================================================================== *)

Section FixPath.

Import Reconciler.

Variable wtt : TimeTable.


Lemma allServices_loop l :
  forall acc d,
    (forall r, In r l -> In r (suburbanServices wtt)) ->
    (forall key r, In (key, r) acc -> Stmt.keyed_by_first_id wtt key r) ->
    for_each l
      (fun r d =>
         k <- firstId (svcAt (services wtt) r) ;;
         Ok (dict_set String.eqb (str k) r d)) acc = Ok d ->
    (forall key r, In (key, r) d -> Stmt.keyed_by_first_id wtt key r) /\
    (forall key, dict_get String.eqb key acc <> None ->
                 dict_get String.eqb key d <> None) /\
    (forall r k, In r l -> firstId (svcAt (services wtt) r) = Ok k ->
                 dict_get String.eqb (str k) d <> None).
Proof.
  induction l as [|r l IH]; intros acc d Hl Hacc E.
  - cbn [for_each] in E. injection E as <-.
    split; [exact Hacc|]. split; [auto|]. intros r k [].
  - cbn [for_each] in E.
    destruct (firstId (svcAt (services wtt) r)) as [k|] eqn:F;
      [|discriminate].
    cbn [bind] in E.
    apply IH in E as (H1 & H2 & H3).
    + split; [exact H1|]. split.
      * intros key Hk. apply H2.
        destruct (String.eqb_spec key (str k)) as [->|N].
        -- now rewrite (dict_get_set_same String.eqb String.eqb_eq).
        -- now rewrite (dict_get_set_other String.eqb String.eqb_eq).
      * intros r' k' [<-|Hin] F'.
        -- rewrite F in F'. injection F' as <-. apply H2.
           now rewrite (dict_get_set_same String.eqb String.eqb_eq).
        -- now apply (H3 r').
    + intros r' Hin. apply Hl. now right.
    + intros key r' Hin.
      apply (dict_set_in String.eqb String.eqb_eq) in Hin as [Hin|[= -> ->]].
      * now apply Hacc.
      * split; [apply Hl; now left|]. now exists k.
Qed.

(** The entries of [allServices] are suburban services under the text
    of their first identifier, and every suburban service with an
    identifier has its key there. *)
Lemma build_allServices_spec d :
  build_allServices wtt = Ok d ->
  (forall key r, In (key, r) d -> Stmt.keyed_by_first_id wtt key r) /\
  (forall r k, In r (suburbanServices wtt) ->
     firstId (svcAt (services wtt) r) = Ok k ->
     dict_get String.eqb (str k) d <> None).
Proof.
  intros E. unfold build_allServices in E.
  apply allServices_loop in E as (H1 & _ & H3); [now split|auto|].
  intros key r [].
Qed.

Lemma build_allServices_returns :
  (forall r, In r (suburbanServices wtt) ->
     Service.serviceId (svcAt (services wtt) r) <> []) ->
  exists d, build_allServices wtt = Ok d.
Proof.
  unfold build_allServices. generalize (@nil (string * ServiceRef)).
  induction (suburbanServices wtt) as [|r l IH]; intros acc H.
  - now exists acc.
  - cbn [for_each]. unfold firstId at 1.
    destruct (Service.serviceId (svcAt (services wtt) r)) as [|k ks] eqn:Ek.
    + now elim (H r (or_introl eq_refl)).
    + rewrite index_0_cons. cbn [bind]. apply IH.
      intros r' Hin. apply H. now right.
Qed.

(** The path that is rebuilt from the declared identifiers. *)
Lemma rebuilt_path d ids :
  forall path,
    comprehension (fun id => get_asserted d (str id)) ids = Ok path ->
    Forall2 (fun s id => dict_get String.eqb (str id) d = Some s) path ids.
Proof.
  induction ids as [|id ids IH]; intros path E; cbn [comprehension] in E.
  - injection E as <-. constructor.
  - unfold get_asserted at 1 in E.
    destruct (dict_get String.eqb (str id) d) as [s|] eqn:G; [|discriminate].
    cbn [bind] in E.
    destruct (comprehension _ ids) as [ys|]; [|discriminate].
    cbn [bind] in E. injection E as <-. constructor; [exact G|now apply IH].
Qed.

End FixPath.

(** What [fixPath] returns.  With undefined identifiers the rake cycle
    is marked invalid and gets the empty path.  Without, the table is
    left as it is, and the result is either no path at all or a path
    with one suburban service for each declared identifier, in order,
    whose first identifier reads like the declared one. *)
Theorem fixPath_outcomes :
  forall wtt rc wtt' p,
    Reconciler.fixPath wtt rc = Ok (wtt', p) ->
    (RakeCycle.undefinedIds (rcAt (links wtt) rc) <> [] /\
     p = Some [] /\
     wtt' = with_links
              (update rc (RakeCycle.set_status INVALID) (links wtt)) wtt) \/
    (RakeCycle.undefinedIds (rcAt (links wtt) rc) = [] /\
     wtt' = wtt /\
     (p = None \/
      exists path,
        p = Some path /\
        Forall2 (fun s id => Stmt.keyed_by_first_id wtt (str id) s)
                path (RakeCycle.serviceIds (rcAt (links wtt) rc)))).
Proof.
  intros wtt rc wtt' p. unfold Reconciler.fixPath.
  destruct (index (RakeCycle.serviceIds (rcAt (links wtt) rc)) 0)
    as [sid|]; [|discriminate].
  cbn [bind].
  destruct (RakeCycle.undefinedIds (rcAt (links wtt) rc)) as [|u us];
    cbn [Reconciler.nonempty].
  - destruct (Reconciler.build_allServices wtt) as [d|] eqn:B;
      [|discriminate].
    cbn [bind].
    destruct (Reconciler.get_asserted d (str sid)); [|discriminate].
    cbn [bind]. destruct (existsb _ _).
    + destruct (comprehension _ _) as [path|] eqn:C; [|discriminate].
      cbn [bind]. intros [= <- <-]. right.
      split; [reflexivity|]. split; [reflexivity|]. right.
      exists path. split; [reflexivity|].
      apply rebuilt_path in C.
      destruct (build_allServices_spec wtt d B) as [H _].
      clear -C H. induction C as [|s id path ids G C IH]; constructor; auto.
      apply H. now apply (dict_get_in String.eqb String.eqb_eq).
    + intros [= <- <-]. right. auto.
  - intros [= <- <-]. left. split; [discriminate|]. now split.
Qed.

(* ================================================================== *)
(** * The order of the suburban services *)
(* ================================================================== *)

Section SortServices.

Import Reconciler.

Variable h : list Service.t.

Lemma key_le_total a b : key_le a b = true \/ key_le b a = true.
Proof.
  destruct a as [x|x], b as [y|y]; cbn [key_le]; auto.
  - destruct (Z.leb_spec x y); [now left|right; apply Z.leb_le; lia].
  - apply String.leb_total.
Qed.

Lemma insert_keyed_perm x l : Permutation (x :: l) (insert_keyed x l).
Proof.
  induction l as [|y r IH]; cbn [insert_keyed]; [reflexivity|].
  destruct (key_le (fst x) (fst y)); [reflexivity|].
  rewrite perm_swap. now apply perm_skip.
Qed.

Lemma insert_keyed_hd x y l :
  Stmt.keyed_le y x -> HdRel Stmt.keyed_le y l -> HdRel Stmt.keyed_le y (insert_keyed x l).
Proof.
  intros Hyx Hl. destruct l as [|z r]; cbn [insert_keyed].
  - now constructor.
  - destruct (key_le (fst x) (fst z)); constructor; [exact Hyx|].
    now apply HdRel_inv in Hl.
Qed.

Lemma insert_keyed_sorted x l :
  Sorted Stmt.keyed_le l -> Sorted Stmt.keyed_le (insert_keyed x l).
Proof.
  induction l as [|y r IH]; intros S; cbn [insert_keyed].
  - repeat constructor.
  - destruct (key_le (fst x) (fst y)) eqn:E.
    + constructor; [exact S|]. now constructor.
    + apply Sorted_inv in S as [S Hy]. constructor; [now apply IH|].
      apply insert_keyed_hd; [|exact Hy].
      destruct (key_le_total (fst x) (fst y)) as [C|C]; [congruence|exact C].
Qed.

(** A list that is in order stays as it is. *)
Lemma insert_keyed_in_order l :
  Sorted Stmt.keyed_le l -> fold_right insert_keyed [] l = l.
Proof.
  induction l as [|x l IH]; intros S; [reflexivity|].
  apply Sorted_inv in S as [S Hx]. cbn [fold_right]. rewrite (IH S).
  destruct l as [|y r]; [reflexivity|]. cbn [insert_keyed].
  apply HdRel_inv in Hx. unfold Stmt.keyed_le in Hx. now rewrite Hx.
Qed.

Lemma sort_perm l : Permutation l (fold_right insert_keyed [] l).
Proof.
  induction l as [|x l IH]; [reflexivity|]. cbn [fold_right].
  rewrite <- insert_keyed_perm. now apply perm_skip.
Qed.

Lemma sort_sorted l : Sorted Stmt.keyed_le (fold_right insert_keyed [] l).
Proof.
  induction l as [|x l IH]; [constructor|]. cbn [fold_right].
  now apply insert_keyed_sorted.
Qed.

(** The keys are the first identifiers. *)
Lemma keyed_comprehension refs :
  (forall r, In r refs -> Service.serviceId (svcAt h r) <> []) ->
  exists keyed,
    comprehension (fun r => k <- firstId (svcAt h r) ;; Ok (k, r)) refs
    = Ok keyed /\
    map snd keyed = refs /\
    Forall (fun p => firstId (svcAt h (snd p)) = Ok (fst p)) keyed.
Proof.
  induction refs as [|r refs IH]; intros H.
  - exists []. repeat split. constructor.
  - destruct IH as (keyed & E & M & F).
    { intros r' Hin. apply H. now right. }
    cbn [comprehension]. unfold firstId at 1.
    destruct (Service.serviceId (svcAt h r)) as [|k ks] eqn:Ek.
    { now elim (H r (or_introl eq_refl)). }
    rewrite index_0_cons. cbn [bind]. rewrite E. cbn [bind].
    exists ((k, r) :: keyed). split; [reflexivity|].
    split; [cbn [map snd]; now rewrite M|].
    constructor; [|exact F]. cbn [fst snd]. unfold firstId.
    rewrite Ek. apply index_0_cons.
Qed.

Lemma keyed_comprehension_raises refs :
  (exists r, In r refs /\ Service.serviceId (svcAt h r) = []) ->
  comprehension (fun r => k <- firstId (svcAt h r) ;; Ok (k, r)) refs
  = Raise IndexError.
Proof.
  induction refs as [|r refs IH]; intros (r0 & Hin & E); [contradiction|].
  cbn [comprehension]. unfold firstId at 1.
  destruct (Service.serviceId (svcAt h r)) as [|k ks] eqn:Ek;
    [reflexivity|].
  rewrite index_0_cons. cbn [bind]. rewrite IH; [reflexivity|].
  destruct Hin as [->|Hin]; [congruence|]. now exists r0.
Qed.

Lemma sorted_refs keyed :
  Forall (fun p => firstId (svcAt h (snd p)) = Ok (fst p)) keyed ->
  Sorted Stmt.keyed_le keyed -> Sorted (Stmt.in_key_order h) (map snd keyed).
Proof.
  induction keyed as [|p l IH]; intros F S; [constructor|].
  apply Forall_cons_iff in F as [Fp F]. apply Sorted_inv in S as [S Hp].
  cbn [map]. constructor; [now apply IH|].
  destruct l as [|q l]; constructor.
  apply HdRel_inv in Hp. apply Forall_cons_iff in F as [Fq _].
  now exists (fst p), (fst q).
Qed.

Lemma keyed_of_sorted_refs keyed :
  Forall (fun p => firstId (svcAt h (snd p)) = Ok (fst p)) keyed ->
  Sorted (Stmt.in_key_order h) (map snd keyed) -> Sorted Stmt.keyed_le keyed.
Proof.
  induction keyed as [|p l IH]; intros F S; [constructor|].
  apply Forall_cons_iff in F as [Fp F]. cbn [map] in S.
  apply Sorted_inv in S as [S Hp]. constructor; [now apply IH|].
  destruct l as [|q l]; constructor.
  apply HdRel_inv in Hp. apply Forall_cons_iff in F as [Fq _].
  destruct Hp as (ka & kb & Ea & Eb & L).
  unfold Stmt.keyed_le. congruence.
Qed.

End SortServices.

Lemma sort_services_returns h refs :
  (forall r, In r refs -> Service.serviceId (svcAt h r) <> []) ->
  exists sorted,
    Reconciler.sort_services h refs = Ok sorted /\
    Permutation refs sorted /\
    Sorted (Stmt.in_key_order h) sorted /\
    (Sorted (Stmt.in_key_order h) refs -> sorted = refs).
Proof.
  intros H. destruct (keyed_comprehension h refs H) as (keyed & E & M & F).
  unfold Reconciler.sort_services. rewrite E. cbn [bind].
  eexists. split; [reflexivity|]. split; [|split].
  - rewrite <- M. apply Permutation_map. apply sort_perm.
  - apply sorted_refs; [|apply sort_sorted].
    eapply Permutation_Forall; [apply sort_perm|exact F].
  - intros S. rewrite <- M in S.
    apply (keyed_of_sorted_refs h keyed F) in S.
    now rewrite (insert_keyed_in_order keyed S).
Qed.

(** The sort of the suburban services.  When every service has an
    identifier the sort returns the same services, each next to one that
    may follow it by the key (texts before numbers, then by value), and
    a list that is already in that order is returned as it is.  With a
    service that has no identifier the sort raises [IndexError]. *)
Theorem sort_services_spec :
  forall h refs,
    ((forall r, In r refs -> Service.serviceId (svcAt h r) <> []) ->
     exists sorted,
       Reconciler.sort_services h refs = Ok sorted /\
       Permutation refs sorted /\
       Sorted (Stmt.in_key_order h) sorted /\
       (Sorted (Stmt.in_key_order h) refs -> sorted = refs)) /\
    ((exists r, In r refs /\ Service.serviceId (svcAt h r) = []) ->
     Reconciler.sort_services h refs = Raise IndexError).
Proof.
  intros h refs. split; [apply sort_services_returns|].
  intros H. unfold Reconciler.sort_services.
  now rewrite (keyed_comprehension_raises h refs H).
Qed.

Lemma sort_services_spec_witness :
  (exists sorted,
     Reconciler.sort_services
       [Inputs.plain15; Inputs.ac15; Inputs.ety1] [1; 2; 0]%nat
     = Ok sorted /\
     Permutation [1; 2; 0]%nat sorted) /\
  Reconciler.sort_services [Inputs.plain15] [0; 5]%nat = Raise IndexError.
Proof.
  split.
  - destruct (proj1 (sort_services_spec
                       [Inputs.plain15; Inputs.ac15; Inputs.ety1]
                       [1; 2; 0]%nat)) as (sorted & E & P & _).
    + intros r [<-|[<-|[<-|[]]]]; discriminate.
    + exists sorted. now split.
  - apply (proj2 (sort_services_spec [Inputs.plain15] [0; 5]%nat)).
    exists 5%nat. split; [right; now left|reflexivity].
Defined.

(* ================================================================== *)
(** * Rake cycles that no chain matches *)
(* ================================================================== *)

Section Linking.

Import Reconciler.

Lemma rcAt_in_range lk rc :
  RakeCycle.serviceIds (rcAt lk rc) <> [] -> (rc < List.length lk)%nat.
Proof.
  intros H. destruct (Nat.lt_ge_cases rc (List.length lk)) as [L|L];
    [exact L|].
  unfold rcAt in H. rewrite nth_overflow in H by exact L. now elim H.
Qed.

Lemma update_fixed {A} (d : A) i (f : A -> A) l :
  f (nth i l d) = nth i l d -> update i f l = l.
Proof.
  revert i. induction l as [|x l IH]; intros [|i] H; cbn in *;
    try reflexivity; f_equal; auto.
Qed.

Lemma with_links_same wtt : with_links (links wtt) wtt = wtt.
Proof. now destruct wtt. Qed.

(** No chain starts with the first declared identifier: the search
    leaves the path as it was. *)
Lemma match_paths_none wtt r sid rest :
  RakeCycle.serviceIds r = sid :: rest ->
  (forall path, In path (allCyclesWtt wtt) ->
     exists p0 ps b,
       path = p0 :: ps /\ firstId (svcAt (services wtt) p0) = Ok b /\
       str b <> str sid) ->
  match_paths wtt r = Ok (RakeCycle.servicePath r).
Proof.
  intros Hids. unfold match_paths. rewrite Hids, index_0_cons.
  generalize (RakeCycle.servicePath r).
  induction (allCyclesWtt wtt) as [|path l IH]; intros sp H;
    [reflexivity|].
  cbn [for_each bind].
  destruct (H path (or_introl eq_refl)) as (p0 & ps & b & -> & F & N).
  rewrite index_0_cons. cbn [bind]. rewrite F. cbn [bind].
  destruct (String.eqb_spec (str sid) (str b)) as [E|_]; [now elim N|].
  apply IH. intros path' Hin. apply H. now right.
Qed.

Lemma debug_message_returns wtt r sid rest :
  RakeCycle.serviceIds r = sid :: rest ->
  allCyclesWtt wtt <> [] ->
  (forall path, In path (allCyclesWtt wtt) ->
     exists p0 ps b,
       path = p0 :: ps /\ firstId (svcAt (services wtt) p0) = Ok b /\
       str b <> str sid) ->
  debug_message wtt r = Ok Datatypes.tt.
Proof.
  intros Hids Hne H. unfold debug_message.
  destruct (rev (allCyclesWtt wtt)) as [|path l] eqn:E.
  - apply (f_equal (@rev _)) in E. rewrite rev_involutive in E.
    now elim Hne.
  - assert (Hin : In path (allCyclesWtt wtt))
      by (apply in_rev; rewrite E; now left).
    destruct (H path Hin) as (p0 & ps & b & -> & F & _).
    rewrite Hids, !index_0_cons. cbn [bind]. now rewrite F.
Qed.

(** The repair finds the first service and nothing that rolls into it:
    it returns no path. *)
Lemma fixPath_no_path wtt rc sid rest :
  RakeCycle.serviceIds (rcAt (links wtt) rc) = sid :: rest ->
  RakeCycle.undefinedIds (rcAt (links wtt) rc) = [] ->
  (forall sv, In sv (suburbanServices wtt) ->
     Service.serviceId (svcAt (services wtt) sv) <> [] /\
     str_linkedTo (svcAt (services wtt) sv) <> str sid) ->
  (exists sv k, In sv (suburbanServices wtt) /\
     firstId (svcAt (services wtt) sv) = Ok k /\ str k = str sid) ->
  fixPath wtt rc = Ok (wtt, None).
Proof.
  intros Hids Hundef Hsv (sv & k & Hin & F & Ek).
  unfold fixPath. rewrite Hids, index_0_cons, Hundef. cbn [bind nonempty].
  destruct (build_allServices_returns wtt) as [d B].
  { intros r Hr. now apply Hsv. }
  rewrite B. cbn [bind].
  destruct (build_allServices_spec wtt d B) as [H1 H2].
  unfold get_asserted. specialize (H2 sv k Hin F). rewrite Ek in H2.
  destruct (dict_get String.eqb (str sid) d) as [s|]; [|now elim H2].
  cbn [bind].
  assert (X : existsb
                (fun sv => String.eqb (str sid)
                             (str_linkedTo (svcAt (services wtt) sv)))
                (dict_values d) = false).
  { destruct (existsb _ _) eqn:X; [|reflexivity].
    apply existsb_exists in X as (r & Hr & Er).
    apply String.eqb_eq in Er. unfold dict_values in Hr.
    apply in_map_iff in Hr as ([key r'] & Es & Hr).
    cbn [snd] in Es. subst r'. apply H1 in Hr as [Hr _].
    destruct (Hsv r Hr) as [_ N]. now elim N. }
  now rewrite X.
Qed.

End Linking.

(** A rake cycle that is left without a path.  Its identifiers are all
    defined, no chain starts with a service that reads like its first
    identifier, a suburban service does, and no suburban service rolls
    into it.  Then the linking step does not mark it invalid and does
    not list it for removal: it stays in the active set with the path
    [None]. *)
Theorem link_rakecycle_leaves_no_path :
  forall wtt invalid rc sid rest,
    RakeCycle.serviceIds (rcAt (links wtt) rc) = sid :: rest ->
    RakeCycle.undefinedIds (rcAt (links wtt) rc) = [] ->
    RakeCycle.status (rcAt (links wtt) rc) = VALID ->
    Reconciler.path_falsy (RakeCycle.servicePath (rcAt (links wtt) rc))
    = true ->
    allCyclesWtt wtt <> [] ->
    (forall path, In path (allCyclesWtt wtt) ->
       exists p0 ps b,
         path = p0 :: ps /\ firstId (svcAt (services wtt) p0) = Ok b /\
         str b <> str sid) ->
    (forall sv, In sv (suburbanServices wtt) ->
       Service.serviceId (svcAt (services wtt) sv) <> [] /\
       Reconciler.str_linkedTo (svcAt (services wtt) sv) <> str sid) ->
    (exists sv k, In sv (suburbanServices wtt) /\
       firstId (svcAt (services wtt) sv) = Ok k /\ str k = str sid) ->
    exists wtt',
      Reconciler.link_rakecycle rc (wtt, invalid) = Ok (wtt', invalid) /\
      rakecycles wtt' = rakecycles wtt /\
      RakeCycle.servicePath (rcAt (links wtt') rc) = None /\
      RakeCycle.status (rcAt (links wtt') rc) = VALID.
Proof.
  intros wtt invalid rc sid rest Hids Hundef Hst Hfalsy Hne Hpaths Hsv Hfirst.
  assert (Hrange : (rc < List.length (links wtt))%nat)
    by (apply rcAt_in_range; rewrite Hids; discriminate).
  unfold Reconciler.link_rakecycle.
  rewrite (match_paths_none wtt _ sid rest Hids Hpaths). cbn [bind].
  rewrite (update_fixed nullRakeCycle)
    by (fold (rcAt (links wtt) rc); now destruct (rcAt (links wtt) rc)).
  rewrite with_links_same, Hfalsy.
  rewrite (debug_message_returns wtt _ sid rest Hids Hne Hpaths).
  cbn [bind].
  rewrite (fixPath_no_path wtt rc sid rest Hids Hundef Hsv Hfirst).
  cbn [bind]. rewrite Hst.
  eexists. split; [reflexivity|]. split; [reflexivity|].
  cbn [links with_links]. unfold rcAt in *.
  rewrite !(nth_update_same nullRakeCycle) by exact Hrange.
  cbn [RakeCycle.servicePath RakeCycle.status RakeCycle.set_servicePath].
  now split.
Qed.

Lemma link_rakecycle_leaves_no_path_witness :
  exists wtt',
    Reconciler.link_rakecycle 0%nat (Cases.lone_table, []) = Ok (wtt', []) /\
    rakecycles wtt' = rakecycles Cases.lone_table /\
    RakeCycle.servicePath (rcAt (links wtt') 0%nat) = None /\
    RakeCycle.status (rcAt (links wtt') 0%nat) = VALID.
Proof.
  apply (link_rakecycle_leaves_no_path Cases.lone_table [] 0%nat
           (IdInt 93005) []); try reflexivity.
  - discriminate.
  - intros path [<-|[]]. exists 0%nat, [1%nat], (IdInt 93001).
    split; [reflexivity|]. split; [reflexivity|]. discriminate.
  - intros sv [<-|[<-|[<-|[]]]]; split; discriminate.
  - exists 2%nat, (IdInt 93005). split; [right; right; now left|].
    split; reflexivity.
Defined.

Lemma fixPath_outcomes_witness :
  (RakeCycle.undefinedIds (rcAt (links Cases.mid_chain) 0%nat) <> [] /\
   Some [1%nat] = Some [] /\
   Cases.mid_chain
   = with_links
       (update 0%nat (RakeCycle.set_status INVALID) (links Cases.mid_chain))
       Cases.mid_chain) \/
  (RakeCycle.undefinedIds (rcAt (links Cases.mid_chain) 0%nat) = [] /\
   Cases.mid_chain = Cases.mid_chain /\
   (Some [1%nat] = None \/
    exists path,
      Some [1%nat] = Some path /\
      Forall2 (fun s id => Stmt.keyed_by_first_id Cases.mid_chain (str id) s)
        path (RakeCycle.serviceIds (rcAt (links Cases.mid_chain) 0%nat)))).
Proof.
  apply (fixPath_outcomes Cases.mid_chain 0%nat Cases.mid_chain
           (Some [1%nat])).
  reflexivity.
Defined.

Section NoChains.

Import Linkage.

Lemma link_loop_none h idMap vs :
  forall adj,
    (forall r, In r vs ->
       Service.serviceId (svcAt h r) <> [] /\
       Service.linkedTo (svcAt h r) = None) ->
    for_each vs (link_service h idMap) adj = Ok adj.
Proof.
  induction vs as [|r vs IH]; intros adj H; [reflexivity|].
  cbn [for_each]. destruct (H r (or_introl eq_refl)) as [Hid Hl].
  unfold link_service at 1, firstId.
  destruct (Service.serviceId (svcAt h r)) as [|k ks]; [now elim Hid|].
  rewrite index_0_cons, Hl. cbn [bind]. apply IH.
  intros r' Hin. apply H. now right.
Qed.

Lemma start_loop_empty depth idMap ks :
  forall st, for_each ks (start_chain depth idMap []) st = Ok st.
Proof.
  induction ks as [|k ks IH]; intros [visited cycles]; [reflexivity|].
  cbn [for_each]. unfold start_chain at 1.
  destruct (mem_id k visited); cbn [adj_get dict_get prev next bind];
    apply IH.
Qed.

(** Services that state no successor form no chain. *)
Lemma makeRakeCyclePathsSV_no_links depth h services cycles0 :
  (forall r, In r services ->
     Service.serviceId (svcAt h r) <> [] /\
     Service.linkedTo (svcAt h r) = None) ->
  makeRakeCyclePathsSV depth h services cycles0 = Ok cycles0.
Proof.
  intros H. unfold makeRakeCyclePathsSV, build_adj.
  rewrite link_loop_none.
  - cbn [bind]. now rewrite start_loop_empty.
  - intros r Hr. apply H. unfold dict_values in Hr.
    apply in_map_iff in Hr as ([k r'] & E & Hin). cbn [snd] in E. subst r'.
    now apply build_idMap_entries in Hin.
Qed.

End NoChains.

(** A table without any link between services.  When no suburban
    service states a successor, no chain is built; the linking of the
    first rake cycle of the summary then fails with [UnboundLocalError]:
    its debug message reads the loop variable [path] of loops that never
    ran. *)
Theorem linkRakeCycles_without_chains :
  forall depth wtt rc rcs,
    rakecycles wtt = rc :: rcs ->
    allCyclesWtt wtt = [] ->
    (forall r, In r (suburbanServices wtt) ->
       Service.serviceId (svcAt (services wtt) r) <> [] /\
       Service.linkedTo (svcAt (services wtt) r) = None) ->
    RakeCycle.serviceIds (rcAt (links wtt) rc) <> [] ->
    Reconciler.path_falsy (RakeCycle.servicePath (rcAt (links wtt) rc))
    = true ->
    Reconciler.linkRakeCycles depth wtt = Raise UnboundLocalError /\
    forall wttSheets,
      Reconciler.generateRakeCycles depth wttSheets wtt
      = Raise UnboundLocalError.
Proof.
  intros depth wtt rc rcs Hrcs Hcycles Hsv Hids Hfalsy.
  assert (L : Reconciler.linkRakeCycles depth wtt = Raise UnboundLocalError).
  { unfold Reconciler.linkRakeCycles.
    destruct (sort_services_returns (services wtt) (suburbanServices wtt))
      as (sorted & E & P & _).
    { intros r Hr. now apply Hsv. }
    rewrite E. cbn [bind].
    cbn [services suburbanServices allCyclesWtt with_suburbanServices].
    rewrite makeRakeCyclePathsSV_no_links.
    2:{ intros r Hr. apply Hsv. apply Permutation_sym in P.
        exact (Permutation_in r P Hr). }
    cbn [bind]. rewrite Hcycles.
    cbn [services allCyclesWtt rakecycles with_allCyclesWtt
         with_suburbanServices comprehension bind].
    rewrite Hrcs. cbn [for_each]. unfold Reconciler.link_rakecycle at 1.
    unfold Reconciler.match_paths.
    cbn [allCyclesWtt links with_allCyclesWtt with_suburbanServices
         for_each bind]. rewrite Hfalsy.
    unfold Reconciler.debug_message.
    cbn [allCyclesWtt links with_links with_allCyclesWtt
         with_suburbanServices rev].
    rewrite (update_fixed nullRakeCycle)
      by (fold (rcAt (links wtt) rc); now destruct (rcAt (links wtt) rc)).
    destruct (RakeCycle.serviceIds (rcAt (links wtt) rc)) as [|sid rest];
      [now elim Hids|].
    rewrite index_0_cons. reflexivity. }
  split; [exact L|]. intros wttSheets.
  unfold Reconciler.generateRakeCycles. now rewrite L.
Qed.

Lemma linkRakeCycles_without_chains_witness :
  Reconciler.linkRakeCycles 1000 Cases.unlinked = Raise UnboundLocalError.
Proof.
  apply (linkRakeCycles_without_chains 1000 Cases.unlinked 0%nat []);
    try reflexivity.
  - intros r [<-|[<-|[]]]; split; try discriminate; reflexivity.
  - discriminate.
Defined.

(* ================================================================== *)
(** * The rake cycle filter *)
(* ================================================================== *)

Section HeapLoopValues.

Context {A : Type}.
Variable d : A.

(** A loop that rewrites objects in place by an idempotent function
    leaves [f x] where a listed object [x] was, and the others alone. *)
Lemma fold_update_value (f : A -> A) refs :
  (forall x, f (f x) = f x) ->
  forall lk rc,
    (rc < List.length lk)%nat ->
    nth rc (fold_left (fun lk rc => update rc f lk) refs lk) d
    = if existsb (Nat.eqb rc) refs then f (nth rc lk d) else nth rc lk d.
Proof.
  intros Hf. induction refs as [|x refs IH]; intros lk rc Hrc;
    [reflexivity|].
  cbn [fold_left existsb]. rewrite IH by now rewrite length_update.
  destruct (Nat.eqb_spec rc x) as [->|N]; cbn [orb].
  - rewrite nth_update_same by exact Hrc.
    destruct (existsb _ refs); [apply Hf|reflexivity].
  - now rewrite nth_update_other by exact N.
Qed.

Lemma fold_update_length (f : A -> A) refs :
  forall lk,
    List.length (fold_left (fun lk rc => update rc f lk) refs lk)
    = List.length lk.
Proof.
  induction refs as [|x refs IH]; intros lk; [reflexivity|].
  cbn [fold_left]. now rewrite IH, length_update.
Qed.

(** The same for a loop whose body may fail. *)
Lemma for_each_update_value (g : A -> result A) refs :
  (forall x y, g x = Ok y -> g y = Ok y) ->
  forall lk lk',
    for_each refs
      (fun rc lk => x <- g (nth rc lk d) ;; Ok (update rc (fun _ => x) lk))
      lk = Ok lk' ->
    List.length lk' = List.length lk /\
    forall rc, (rc < List.length lk)%nat ->
      if existsb (Nat.eqb rc) refs
      then g (nth rc lk d) = Ok (nth rc lk' d)
      else nth rc lk' d = nth rc lk d.
Proof.
  intros Hg. induction refs as [|x refs IH]; intros lk lk' E.
  - injection E as <-. now split.
  - cbn [for_each] in E.
    destruct (g (nth x lk d)) as [y|] eqn:G; [|discriminate].
    cbn [bind] in E. apply IH in E as [Hlen Hval].
    rewrite length_update in Hlen. split; [exact Hlen|].
    intros rc Hrc. specialize (Hval rc).
    rewrite length_update in Hval. specialize (Hval Hrc).
    cbn [existsb]. destruct (Nat.eqb_spec rc x) as [->|N]; cbn [orb].
    + rewrite nth_update_same in Hval by exact Hrc.
      destruct (existsb _ refs).
      * rewrite (Hg _ _ G) in Hval. congruence.
      * congruence.
    + now rewrite nth_update_other in Hval by exact N.
Qed.

End HeapLoopValues.

Section Scan.

Import LinkFilters.

Variable selected : list string.

Lemma set_add_spec x seen :
  NoDup seen ->
  NoDup (set_add x seen) /\
  forall y, In y (set_add x seen) <-> In y seen \/ y = x.
Proof.
  intros ND. unfold set_add.
  destruct (existsb (String.eqb x) seen) eqn:E.
  - split; [exact ND|]. intros y. split; [auto|].
    intros [H| ->]; [exact H|].
    apply existsb_exists in E as (z & Hz & Ez).
    apply String.eqb_eq in Ez. now subst z.
  - split.
    + apply NoDup_app; [exact ND|repeat constructor; intros []|].
      intros y Hy [Ey|[]]. subst y.
      assert (C : existsb (String.eqb x) seen = true)
        by (apply existsb_exists; exists x; split;
            [exact Hy|apply String.eqb_refl]).
      congruence.
    + intros y. rewrite in_app_iff. cbn [In]. intuition.
Qed.

Lemma calls_at_cons e el st :
  Stmt.calls_at (e :: el) st
  = (negb (str_falsy (StationEvent.atStation e)) &&
     String.eqb (upper (strip (StationEvent.atStation e))) st)
    || Stmt.calls_at el st.
Proof. reflexivity. Qed.

(** What the scan has seen: selected stations, each once; all those
    that were seen before or that an event names. *)
Lemma scan_spec el :
  forall seen,
    NoDup seen -> incl seen selected ->
    NoDup (scan selected el seen) /\
    incl (scan selected el seen) selected /\
    (forall st, In st (scan selected el seen) ->
       In st seen \/ Stmt.calls_at el st = true) /\
    (forall st, In st selected ->
       In st seen \/ Stmt.calls_at el st = true ->
       In st (scan selected el seen)).
Proof.
  induction el as [|e rest IH]; intros seen ND Hincl.
  - cbn [scan]. split; [exact ND|]. split; [exact Hincl|].
    split; [auto|]. intros st _ [H|H]; [exact H|discriminate H].
  - cbn [scan]. destruct (str_falsy (StationEvent.atStation e)) eqn:F.
    + destruct (IH seen ND Hincl) as (H1 & H2 & H3 & H4).
      split; [exact H1|]. split; [exact H2|].
      split; intros st; rewrite calls_at_cons, F; cbn [negb andb orb];
        auto.
    + set (stName := upper (strip (StationEvent.atStation e))).
      set (seen' := if existsb (String.eqb stName) selected
                    then set_add stName seen else seen).
      assert (Hseen' : NoDup seen' /\ incl seen' selected /\
                incl seen seen' /\
                (forall st, In st seen' -> In st seen \/ st = stName) /\
                (In stName selected -> In stName seen')).
      { subst seen'. destruct (existsb (String.eqb stName) selected) eqn:X.
        - destruct (set_add_spec stName seen ND) as [N' I'].
          apply existsb_exists in X as (z & Hz & Ez).
          apply String.eqb_eq in Ez. subst z.
          split; [exact N'|]. split.
          + intros y Hy. apply I' in Hy as [Hy| ->]; auto.
          + split; [intros y Hy; apply I'; now left|].
            split; [intros y Hy; now apply I'|].
            intros _. apply I'. now right.
        - split; [exact ND|]. split; [exact Hincl|].
          split; [intros y Hy; exact Hy|]. split; [auto|].
          intros Hin.
          assert (C : existsb (String.eqb stName) selected = true)
            by (apply existsb_exists; exists stName; split;
                [exact Hin|apply String.eqb_refl]).
          congruence. }
      destruct Hseen' as (ND' & Hincl' & Hsub & Hnew & Hname).
      assert (Hcall : forall st,
                Stmt.calls_at (e :: rest) st
                = String.eqb stName st || Stmt.calls_at rest st)
        by (intros st; rewrite calls_at_cons, F; reflexivity).
      destruct (Nat.eqb_spec (List.length seen') (List.length selected))
        as [L|L].
      * split; [exact ND'|]. split; [exact Hincl'|]. split.
        -- intros st Hst. destruct (Hnew st Hst) as [H| ->]; [now left|].
           right. now rewrite Hcall, String.eqb_refl.
        -- intros st Hst _.
           refine (@NoDup_length_incl _ seen' selected ND' _ Hincl' st Hst).
           lia.
      * destruct (IH seen' ND' Hincl') as (H1 & H2 & H3 & H4).
        split; [exact H1|]. split; [exact H2|]. split.
        -- intros st Hst. rewrite Hcall.
           destruct (H3 st Hst) as [H|H].
           ++ destruct (Hnew st H) as [H'| ->]; [now left|].
              right. now rewrite String.eqb_refl.
           ++ right. rewrite H. apply orb_true_r.
        -- intros st Hst H. apply (H4 st Hst). rewrite Hcall in H.
           destruct H as [H|H]; [left; now apply Hsub|].
           apply orb_true_iff in H as [H|H]; [|now right].
           apply String.eqb_eq in H. subst st. left. now apply Hname.
Qed.

(** The scan is long enough exactly when the selected stations are
    distinct and every one of them is named by an event. *)
Lemma scan_covers el :
  Nat.ltb (List.length (scan selected el [])) (List.length selected) = false
  <->
  NoDup selected /\ forall st, In st selected -> Stmt.calls_at el st = true.
Proof.
  destruct (scan_spec el [] (NoDup_nil _)) as (H1 & H2 & H3 & H4).
  { intros y []. }
  rewrite Nat.ltb_ge. split.
  - intros L. split.
    + exact (@NoDup_incl_NoDup _ _ _ H1 L H2).
    + intros st Hst.
      destruct (H3 st (@NoDup_length_incl _ _ _ H1 L H2 st Hst)) as [[]|H].
      exact H.
  - intros [ND H]. apply (@NoDup_incl_length _ _ _ ND).
    intros st Hst. apply (H4 st Hst). right. now apply H.
Qed.

End Scan.

Section LinkPasses.

Import LinkFilters.

Variable h : list Service.t.
Variable qq : FilterQuery.

Lemma set_render_same r : RakeCycle.set_render (RakeCycle.render r) r = r.
Proof. now destruct r. Qed.

Lemma In_existsb rc refs : In rc refs -> existsb (Nat.eqb rc) refs = true.
Proof.
  intros H. apply existsb_exists. exists rc. split; [exact H|].
  apply Nat.eqb_refl.
Qed.

(** ** The terminal stations *)

Lemma terminal_rakecycle_spec start end_ r y :
  terminal_rakecycle h start end_ r = Ok y ->
  y = RakeCycle.set_render (RakeCycle.render y) r /\
  (RakeCycle.render y = true <->
   exists path first last,
     RakeCycle.servicePath r = Some path /\ path <> [] /\
     first_station h path = Ok first /\ last_station h path = Ok last /\
     misses start first = false /\ misses end_ last = false).
Proof.
  unfold terminal_rakecycle.
  cbn [RakeCycle.servicePath RakeCycle.set_render RakeCycle.render].
  destruct (RakeCycle.servicePath r) as [[|s p]|] eqn:P.
  - intros [= <-]. split; [reflexivity|]. cbn [RakeCycle.render].
    split; [discriminate|]. intros (path & _ & _ & [= <-] & N & _).
    now elim N.
  - destruct (first_station h (s :: p)) as [first|] eqn:F; [|discriminate].
    destruct (last_station h (s :: p)) as [last|] eqn:L; [|discriminate].
    cbn [bind]. intros [= <-].
    destruct (misses start first) eqn:M1, (misses end_ last) eqn:M2;
      cbn [RakeCycle.render RakeCycle.set_render andb];
      (split; [reflexivity|]);
      (split;
       [intros H; try discriminate H;
        exists (s :: p), first, last; repeat split; auto; discriminate
       |intros (path & f & l & [= <-] & _ & F' & L' & M1' & M2');
        rewrite F in F'; rewrite L in L';
        injection F' as <-; injection L' as <-; congruence]).
  - intros [= <-]. split; [reflexivity|]. cbn [RakeCycle.render].
    split; [discriminate|]. intros (path & _ & _ & [=] & _).
Qed.

Lemma terminal_rakecycle_idempotent start end_ x y :
  terminal_rakecycle h start end_ x = Ok y ->
  terminal_rakecycle h start end_ y = Ok y.
Proof.
  intros E. destruct (terminal_rakecycle_spec _ _ _ _ E) as [Ey _].
  rewrite Ey at 1. rewrite <- E. reflexivity.
Qed.

(** ** The stations passed through *)

Lemma passing_rakecycle_spec selected r :
  passing_rakecycle h qq selected r
  = RakeCycle.set_render
      (RakeCycle.render (passing_rakecycle h qq selected r)) r /\
  (RakeCycle.render (passing_rakecycle h qq selected r) = true <->
   RakeCycle.render r = true /\
   exists path,
     RakeCycle.servicePath r = Some path /\ path <> [] /\
     NoDup selected /\
     forall st, In st selected ->
       Stmt.calls_at (windowed (inTimePeriod qq) (path_events h path)) st
       = true).
Proof.
  unfold passing_rakecycle.
  cbn [RakeCycle.servicePath RakeCycle.set_render RakeCycle.render].
  destruct (RakeCycle.servicePath r) as [[|s p]|] eqn:P.
  - cbn [RakeCycle.render]. split; [reflexivity|].
    rewrite andb_false_r. split; [discriminate|].
    intros (_ & path & [= <-] & N & _). now elim N.
  - destruct (Nat.ltb _ _) eqn:L;
      cbn [RakeCycle.render RakeCycle.set_render];
      (split; [reflexivity|]).
    + split; [discriminate|]. intros (_ & path & [= <-] & _ & C).
      apply scan_covers in C. congruence.
    + rewrite andb_true_r. apply scan_covers in L.
      split.
      * intros R. split; [exact R|]. exists (s :: p).
        split; [reflexivity|]. split; [discriminate|exact L].
      * now intros [R _].
  - cbn [RakeCycle.render]. split; [reflexivity|].
    rewrite andb_false_r. split; [discriminate|].
    intros (_ & path & [=] & _).
Qed.

Lemma passing_rakecycle_idempotent selected r :
  passing_rakecycle h qq selected (passing_rakecycle h qq selected r)
  = passing_rakecycle h qq selected r.
Proof.
  destruct r as [name st ids undef [[|s p]|] rk rend len];
    unfold passing_rakecycle;
    cbn [RakeCycle.servicePath RakeCycle.set_render RakeCycle.render
         RakeCycle.linkName RakeCycle.status RakeCycle.serviceIds
         RakeCycle.undefinedIds RakeCycle.rake RakeCycle.lengthKm];
    rewrite ?andb_false_r, ?andb_true_r; try reflexivity.
  destruct (Nat.ltb _ _) eqn:L;
    cbn [RakeCycle.servicePath RakeCycle.set_render RakeCycle.render
         RakeCycle.linkName RakeCycle.status RakeCycle.serviceIds
         RakeCycle.undefinedIds RakeCycle.rake RakeCycle.lengthKm];
    rewrite ?L, ?andb_true_r; reflexivity.
Qed.

(** ** The kind of rake *)

Lemma ac_rakecycle_spec mode r :
  ac_rakecycle mode r
  = RakeCycle.set_render (RakeCycle.render (ac_rakecycle mode r)) r /\
  (RakeCycle.render (ac_rakecycle mode r) = true <->
   RakeCycle.render r = true /\
   exists k, RakeCycle.rake r = Some k /\
     (mode = "ac"%string -> Rake.isAC k = true) /\
     (mode = "nonac"%string -> Rake.isAC k = false)).
Proof.
  unfold ac_rakecycle. destruct (RakeCycle.rake r) as [k|] eqn:K.
  - destruct (String.eqb_spec mode "ac") as [->|Nac];
      destruct (Rake.isAC k) eqn:I; cbn [negb andb String.eqb Ascii.eqb
        Bool.eqb].
    + split; [now rewrite set_render_same|].
      split; [|tauto]. intros R. split; [exact R|]. exists k.
      repeat split; auto. discriminate.
    + cbn [RakeCycle.render RakeCycle.set_render].
      split; [reflexivity|]. split; [discriminate|].
      intros (_ & k' & [= <-] & A & _). specialize (A eq_refl). congruence.
    + destruct (String.eqb_spec mode "nonac") as [->|Nn]; cbn [andb].
      * cbn [RakeCycle.render RakeCycle.set_render].
        split; [reflexivity|]. split; [discriminate|].
        intros (_ & k' & [= <-] & _ & A). specialize (A eq_refl).
        congruence.
      * split; [now rewrite set_render_same|].
        split; [|tauto]. intros R. split; [exact R|]. exists k.
        repeat split; auto; intros; contradiction.
    + rewrite andb_false_r.
      split; [now rewrite set_render_same|].
      split; [|tauto]. intros R. split; [exact R|]. exists k.
      repeat split; auto; intros; contradiction.
  - cbn [RakeCycle.render RakeCycle.set_render].
    split; [reflexivity|]. split; [discriminate|].
    intros (_ & k & [=] & _).
Qed.

Lemma ac_rakecycle_idempotent mode r :
  ac_rakecycle mode (ac_rakecycle mode r) = ac_rakecycle mode r.
Proof.
  destruct r as [name st ids undef path [k|] rend len];
    unfold ac_rakecycle;
    cbn [RakeCycle.servicePath RakeCycle.set_render RakeCycle.render
         RakeCycle.linkName RakeCycle.status RakeCycle.serviceIds
         RakeCycle.undefinedIds RakeCycle.rake RakeCycle.lengthKm];
    [|reflexivity].
  destruct (String.eqb mode "ac" && negb (Rake.isAC k)) eqn:A;
    cbn [RakeCycle.rake RakeCycle.set_render]; rewrite ?A; [reflexivity|].
  destruct (String.eqb mode "nonac" && Rake.isAC k) eqn:B;
    cbn [RakeCycle.rake RakeCycle.set_render]; rewrite ?A, ?B; reflexivity.
Qed.

End LinkPasses.

Section LinkFilterValue.

Import LinkFilters.

(** The three passes, seen from one listed rake cycle. *)
Lemma applyLinkFilters_value qq wtt wtt' rc :
  applyLinkFilters qq wtt = Ok wtt' ->
  In rc (rakecycles wtt) -> (rc < List.length (links wtt))%nat ->
  services wtt' = services wtt /\
  exists y1,
    terminal_rakecycle (services wtt) (startStation qq) (endStation qq)
      (rcAt (links wtt) rc) = Ok y1 /\
    rcAt (links wtt') rc
    = match ac qq with
      | None => fun x => x
      | Some mode =>
          if String.eqb mode "all" then fun x => x else ac_rakecycle mode
      end
        (match passingThrough qq with
         | [] => fun x => x
         | _ => passing_rakecycle (services wtt) qq
                  (map upper (passingThrough qq))
         end y1).
Proof.
  intros E Hin Hrc. unfold applyLinkFilters in E.
  destruct (applyTerminalStationFilters _ _ _ _ _) as [lk1|] eqn:E1;
    [|discriminate].
  cbn [bind] in E. injection E as <-.
  cbn [services links with_links]. split; [reflexivity|].
  apply (for_each_update_value nullRakeCycle
           (terminal_rakecycle (services wtt) (startStation qq)
              (endStation qq))) in E1 as [Hlen Hval];
    [|apply terminal_rakecycle_idempotent].
  specialize (Hval rc Hrc). rewrite (In_existsb rc _ Hin) in Hval.
  exists (nth rc lk1 nullRakeCycle). split; [exact Hval|].
  assert (Hp : (rc < List.length
                  (applyPassingThroughFilter (services wtt) qq
                     (rakecycles wtt) lk1))%nat).
  { unfold applyPassingThroughFilter. destruct (passingThrough qq);
      [|rewrite fold_update_length]; lia. }
  assert (Vp : nth rc (applyPassingThroughFilter (services wtt) qq
                         (rakecycles wtt) lk1) nullRakeCycle
               = match passingThrough qq with
                 | [] => fun x => x
                 | _ => passing_rakecycle (services wtt) qq
                          (map upper (passingThrough qq))
                 end (nth rc lk1 nullRakeCycle)).
  { unfold applyPassingThroughFilter. destruct (passingThrough qq) as [|p ps];
      [reflexivity|].
    rewrite fold_update_value, (In_existsb rc _ Hin); [reflexivity| |lia].
    apply passing_rakecycle_idempotent. }
  unfold rcAt, applyACFilter. destruct (ac qq) as [mode|]; [|exact Vp].
  destruct (String.eqb mode "all"); [exact Vp|].
  rewrite fold_update_value, (In_existsb rc _ Hin), Vp;
    [reflexivity| |exact Hp].
  apply ac_rakecycle_idempotent.
Qed.

End LinkFilterValue.

(** The rake cycle filter, for a listed rake cycle.  The filter writes
    its visibility flag and nothing else, and the flag is set exactly
    when the rake cycle has a path whose first and last events are at
    the queried terminals, when every queried station is named by an
    event (inside the time window, if the query has one) and named once
    in the query, and when the rake is of the queried kind.  The flag the
    rake cycle had before plays no part. *)
Theorem applyLinkFilters_visible :
  forall qq wtt wtt' rc,
    LinkFilters.applyLinkFilters qq wtt = Ok wtt' ->
    In rc (rakecycles wtt) -> (rc < List.length (links wtt))%nat ->
    services wtt' = services wtt /\
    rcAt (links wtt') rc
    = RakeCycle.set_render (RakeCycle.render (rcAt (links wtt') rc))
        (rcAt (links wtt) rc) /\
    (RakeCycle.render (rcAt (links wtt') rc) = true <->
     Stmt.link_shown (services wtt) qq (rcAt (links wtt) rc)).
Proof.
  intros qq wtt wtt' rc E Hin Hrc.
  destruct (applyLinkFilters_value qq wtt wtt' rc E Hin Hrc)
    as (Hs & y1 & E1 & V).
  split; [exact Hs|]. rewrite V. clear V E Hs.
  destruct (terminal_rakecycle_spec _ _ _ _ _ E1) as [Y1 T1].
  set (r := rcAt (links wtt) rc) in *.
  set (y2 := match passingThrough qq with
             | [] => fun x => x
             | _ => LinkFilters.passing_rakecycle (services wtt) qq
                      (map upper (passingThrough qq))
             end y1).
  assert (P2 : y2 = RakeCycle.set_render (RakeCycle.render y2) r /\
               (RakeCycle.render y2 = true <->
                RakeCycle.render y1 = true /\
                (passingThrough qq = [] \/
                 exists path,
                   RakeCycle.servicePath r = Some path /\ path <> [] /\
                   NoDup (map upper (passingThrough qq)) /\
                   forall st, In st (map upper (passingThrough qq)) ->
                     Stmt.calls_at
                       (LinkFilters.windowed (inTimePeriod qq)
                          (LinkFilters.path_events (services wtt) path)) st
                     = true))).
  { subst y2. destruct (passingThrough qq) as [|p ps] eqn:PT.
    - split; [exact Y1|]. split; [auto|tauto].
    - destruct (passing_rakecycle_spec (services wtt) qq
                  (map upper (p :: ps)) y1) as [Y2 T2].
      split.
      + rewrite Y2 at 1. rewrite Y1. reflexivity.
      + rewrite T2.
        replace (RakeCycle.servicePath y1) with (RakeCycle.servicePath r)
          by (rewrite Y1; reflexivity).
        split.
        * intros [R H]. split; [exact R|]. now right.
        * intros [R [H|H]]; [discriminate H|]. now split. }
  destruct P2 as [Y2 T2].
  set (y3 := match ac qq with
             | None => fun x => x
             | Some mode =>
                 if String.eqb mode "all" then fun x => x
                 else LinkFilters.ac_rakecycle mode
             end y2).
  assert (P3 : y3 = RakeCycle.set_render (RakeCycle.render y3) r /\
               (RakeCycle.render y3 = true <->
                RakeCycle.render y2 = true /\ Stmt.ac_shown qq r)).
  { subst y3. unfold Stmt.ac_shown. destruct (ac qq) as [mode|].
    - destruct (String.eqb mode "all") eqn:A.
      + split; [exact Y2|]. split; [auto|tauto].
      + destruct (ac_rakecycle_spec mode y2) as [Y3 T3].
        split.
        * rewrite Y3 at 1. rewrite Y2. reflexivity.
        * rewrite T3.
          replace (RakeCycle.rake y2) with (RakeCycle.rake r)
            by (rewrite Y2; reflexivity).
          split.
          -- intros [R H]. split; [exact R|]. now right.
          -- intros [R [H|H]]; [discriminate H|]. now split.
    - split; [exact Y2|]. split; [auto|tauto]. }
  destruct P3 as [Y3 T3]. split; [exact Y3|].
  rewrite T3, T2, T1. unfold Stmt.link_shown, Stmt.passing_shown.
  split.
  - intros [[(path & first & last & P & N & F & L & M1 & M2) H2] H3].
    exists path, first, last. repeat (split; [assumption|]).
    split; [|exact H3].
    destruct H2 as [H2|(path' & P' & _ & H2)]; [now left|right].
    rewrite P in P'. injection P' as <-. exact H2.
  - intros (path & first & last & P & N & F & L & M1 & M2 & H2 & H3).
    split; [split|exact H3].
    + exists path, first, last. repeat (split; [assumption|]). exact M2.
    + destruct H2 as [H2|H2]; [now left|right]. exists path. tauto.
Qed.

(** A station that the query names twice (after upper-casing) hides
    every listed rake cycle. *)
Theorem applyLinkFilters_repeated_station :
  forall qq wtt wtt' rc,
    ~ NoDup (map upper (passingThrough qq)) ->
    LinkFilters.applyLinkFilters qq wtt = Ok wtt' ->
    In rc (rakecycles wtt) -> (rc < List.length (links wtt))%nat ->
    RakeCycle.render (rcAt (links wtt') rc) = false.
Proof.
  intros qq wtt wtt' rc Hdup E Hin Hrc.
  destruct (applyLinkFilters_value qq wtt wtt' rc E Hin Hrc)
    as (_ & y1 & _ & V).
  rewrite V. clear V.
  destruct (passingThrough qq) as [|p ps] eqn:PT;
    [elim Hdup; constructor|].
  destruct (passing_rakecycle_spec (services wtt) qq (map upper (p :: ps)) y1)
    as [_ T2].
  assert (R2 : RakeCycle.render
                 (LinkFilters.passing_rakecycle (services wtt) qq
                    (map upper (p :: ps)) y1) = false).
  { apply not_true_is_false. intros R.
    apply T2 in R as (_ & path & _ & _ & ND & _). now elim Hdup. }
  destruct (ac qq) as [mode|]; [|exact R2].
  destruct (String.eqb mode "all"); [exact R2|].
  destruct (ac_rakecycle_spec mode
              (LinkFilters.passing_rakecycle (services wtt) qq
                 (map upper (p :: ps)) y1)) as [_ T3].
  apply not_true_is_false. intros R.
  apply T3 in R as [R _]. congruence.
Qed.

Lemma applyLinkFilters_repeated_station_witness :
  exists wtt',
    LinkFilters.applyLinkFilters Cases.dadar_twice Inputs.sequenced_table
    = Ok wtt' /\
    RakeCycle.render (rcAt (links wtt') 0%nat) = false.
Proof.
  eexists. split; [reflexivity|].
  apply (applyLinkFilters_repeated_station Cases.dadar_twice
           Inputs.sequenced_table).
  - intros ND. apply NoDup_cons_iff in ND as [N _]. apply N. now left.
  - reflexivity.
  - now left.
  - cbn. lia.
Defined.

Lemma applyLinkFilters_visible_witness :
  exists wtt',
    LinkFilters.applyLinkFilters Cases.through_bandra Inputs.sequenced_table
    = Ok wtt' /\
    (RakeCycle.render (rcAt (links wtt') 0%nat) = true <->
     Stmt.link_shown (services Inputs.sequenced_table) Cases.through_bandra
       (rcAt (links Inputs.sequenced_table) 0%nat)).
Proof.
  eexists. split; [reflexivity|].
  apply (applyLinkFilters_visible Cases.through_bandra
           Inputs.sequenced_table).
  - reflexivity.
  - now left.
  - cbn. lia.
Defined.

(* ================================================================== *)
(** * The station filter *)
(* ================================================================== *)

Section StationFilter.

Import StationFilters.

Lemma station_event_idempotent p e :
  station_event p (station_event p e) = station_event p e.
Proof. destruct e. reflexivity. Qed.

Lemma checkACConstraint_reads_ac a b qq render :
  Service.needsACRake a = Service.needsACRake b ->
  ServiceOps.checkACConstraint a qq render
  = ServiceOps.checkACConstraint b qq render.
Proof. unfold ServiceOps.checkACConstraint. now intros ->. Qed.

(** One round of the loop, written out. *)
Lemma station_service_eq qq p svc :
  station_service qq p svc
  = match Service.events svc with
    | [] => Service.set_render false svc
    | _ =>
        Service.set_render (ServiceOps.checkACConstraint svc qq true)
          (Service.set_events (map (station_event p) (Service.events svc))
             svc)
    end.
Proof.
  unfold station_service.
  cbn [Service.events Service.set_render Service.render].
  destruct (Service.events svc) as [|e es] eqn:E; [reflexivity|].
  rewrite (checkACConstraint_reads_ac _ svc) by reflexivity.
  reflexivity.
Qed.

Lemma station_service_idempotent qq p svc :
  station_service qq p (station_service qq p svc) = station_service qq p svc.
Proof.
  rewrite (station_service_eq qq p svc).
  destruct (Service.events svc) as [|e es] eqn:E.
  - rewrite station_service_eq. cbn [Service.events Service.set_render].
    now rewrite E.
  - rewrite station_service_eq.
    cbn [Service.events Service.set_render Service.set_events map].
    rewrite (checkACConstraint_reads_ac _ svc) by reflexivity.
    rewrite !station_event_idempotent, map_map.
    rewrite (map_ext _ _ (station_event_idempotent p)).
    reflexivity.
Qed.

(** The flags that one round of the loop leaves on a service. *)
Lemma station_service_flags qq p svc :
  Forall2
    (fun e' e =>
       StationEvent.atStation e' = StationEvent.atStation e /\
       StationEvent.atTime e' = StationEvent.atTime e /\
       StationEvent.render e' = shown_at p (StationEvent.atTime e))
    (Service.events (station_service qq p svc)) (Service.events svc) /\
  Service.render (station_service qq p svc)
  = Reconciler.nonempty (Service.events svc) &&
    ServiceOps.checkACConstraint svc qq true.
Proof.
  rewrite station_service_eq.
  destruct (Service.events svc) as [|e es] eqn:E.
  - cbn [Service.events Service.render Service.set_render
         Reconciler.nonempty andb]. rewrite E. split; [constructor|].
    reflexivity.
  - cbn [Service.events Service.render Service.set_render Service.set_events
         Reconciler.nonempty andb].
    split; [|reflexivity].
    generalize (e :: es). intros l. induction l as [|x l IH];
      cbn [map]; constructor; auto.
Qed.

End StationFilter.

(** The station filter.  Without a time window it raises [TypeError].
    With one it returns, whatever the events are: every listed rake
    cycle is shown; an event of a listed service is shown exactly when
    it has a time and the time lies in the window; a listed service is
    shown exactly when it has events and is of the queried kind.  The
    stations and the times of the events are left as they were. *)
Theorem applyStationFilters_flags :
  forall qq wtt,
    (inTimePeriod qq = None ->
     StationFilters.applyStationFilters qq wtt = Raise TypeError) /\
    (forall p, inTimePeriod qq = Some p ->
     exists wtt',
       StationFilters.applyStationFilters qq wtt = Ok wtt' /\
       (forall rc, In rc (rakecycles wtt) ->
          (rc < List.length (links wtt))%nat ->
          RakeCycle.render (rcAt (links wtt') rc) = true) /\
       (forall s, In s (suburbanServices wtt) ->
          (s < List.length (services wtt))%nat ->
          Forall2
            (fun e' e =>
               StationEvent.atStation e' = StationEvent.atStation e /\
               StationEvent.atTime e' = StationEvent.atTime e /\
               StationEvent.render e'
               = StationFilters.shown_at p (StationEvent.atTime e))
            (Service.events (svcAt (services wtt') s))
            (Service.events (svcAt (services wtt) s)) /\
          Service.render (svcAt (services wtt') s)
          = Reconciler.nonempty (Service.events (svcAt (services wtt) s)) &&
            ServiceOps.checkACConstraint (svcAt (services wtt) s) qq true)).
Proof.
  intros qq wtt. unfold StationFilters.applyStationFilters,
    ServiceOps.unpack_period. split.
  - now intros ->.
  - intros p ->. cbn [bind]. eexists. split; [reflexivity|].
    cbn [links services with_links with_services]. split.
    + intros rc Hin Hrc. unfold rcAt.
      rewrite fold_update_value, (In_existsb rc _ Hin);
        [reflexivity|reflexivity|exact Hrc].
    + intros s Hin Hs. unfold svcAt.
      rewrite fold_update_value, (In_existsb s _ Hin);
        [apply station_service_flags
        |apply station_service_idempotent|exact Hs].
Qed.

Lemma applyStationFilters_flags_witness :
  exists wtt',
    StationFilters.applyStationFilters Cases.morning Cases.dated_table
    = Ok wtt' /\
    map StationEvent.render (Service.events (svcAt (services wtt') 0%nat))
    = [false; true; false] /\
    map Service.render (services wtt') = [true; false].
Proof.
  destruct (proj2 (applyStationFilters_flags Cases.morning Cases.dated_table)
              (420, 600) eq_refl) as (wtt' & E & _).
  exists wtt'. split; [exact E|].
  injection E as <-. split; reflexivity.
Defined.

(* ================================================================== *)
(** * The AC states *)
(* ================================================================== *)

Section ACRecords.

Import ACStates.

Lemma set_needsACRake_same s :
  set_needsACRake (Service.needsACRake s) s = s.
Proof. now destruct s. Qed.

Lemma service_but_ac_refl s : Stmt.service_but_ac s s.
Proof. apply set_needsACRake_same. Qed.

Lemma service_but_ac_ids a b :
  Stmt.service_but_ac a b -> Service.serviceId a = Service.serviceId b.
Proof. intros H. now apply (f_equal Service.serviceId) in H. Qed.

Lemma service_but_ac_set b' a b :
  Stmt.service_but_ac a b -> Stmt.service_but_ac (set_needsACRake b' a) b.
Proof. exact (fun H => H). Qed.

Lemma link_but_ac_refl r : Stmt.link_but_ac r r.
Proof.
  split; [|now destruct r]. unfold Stmt.rake_but_ac.
  destruct (RakeCycle.rake r) as [k|]; [now destruct k|exact I].
Qed.

Lemma svc_key_inj a b : svc_key a = svc_key b -> str a = str b.
Proof. unfold svc_key. cbn. now intros [= H]. Qed.

Lemma svc_key_prefix id : String.prefix "svc_" (svc_key id) = true.
Proof.
  unfold svc_key. cbn. now destruct (str id).
Qed.

(** A service with an identifier is an object of the heap. *)
Lemma firstId_in_range h s id :
  firstId (svcAt h s) = Ok id -> (s < List.length h)%nat.
Proof.
  intros F. destruct (Nat.lt_ge_cases s (List.length h)) as [L|L];
    [exact L|].
  unfold svcAt in F. rewrite nth_overflow in F by exact L. discriminate F.
Qed.

Lemma nth_update_fix {A} (d : A) (f : A -> A) i l :
  f d = d -> nth i (update i f l) d = f (nth i l d).
Proof.
  intros Hd. destruct (Nat.lt_ge_cases i (List.length l)) as [L|L].
  - now apply nth_update_same.
  - rewrite update_out_of_range by exact L.
    now rewrite nth_overflow by exact L.
Qed.

End ACRecords.

Section StoreStates.

Import ACStates.

Variable wtt : TimeTable.
Hypothesis consistent : Stmt.ac_keys_consistent wtt.

Lemma right_link rc k :
  In rc (rakecycles wtt) ->
  RakeCycle.rake (rcAt (links wtt) rc) = Some k ->
  Stmt.right_state wtt (RakeCycle.linkName (rcAt (links wtt) rc))
    (Rake.isAC k).
Proof using consistent.
  destruct consistent as (C1 & _ & C3). intros Hin K. split.
  - intros rc' k' Hin' K' E. symmetry. now apply (C1 rc rc' k k').
  - intros s id _ _ E. exfalso.
    assert (N : RakeCycle.rake (rcAt (links wtt) rc) <> None)
      by (rewrite K; discriminate).
    pose proof (C3 rc Hin N) as P. rewrite <- E, svc_key_prefix in P.
    discriminate P.
Qed.

Lemma right_service s id :
  Stmt.on_listed_path wtt s ->
  firstId (svcAt (services wtt) s) = Ok id ->
  Stmt.right_state wtt (svc_key id)
    (Service.needsACRake (svcAt (services wtt) s)).
Proof using consistent.
  destruct consistent as (_ & C2 & C3). intros Hs F. split.
  - intros rc k Hin K E. exfalso.
    assert (N : RakeCycle.rake (rcAt (links wtt) rc) <> None)
      by (rewrite K; discriminate).
    pose proof (C3 rc Hin N) as P. rewrite E, svc_key_prefix in P.
    discriminate P.
  - intros s' id' Hs' F' E. apply svc_key_inj in E.
    now apply (C2 s' s id' id).
Qed.

Lemma all_right_set st key v :
  Stmt.all_right wtt st -> Stmt.right_state wtt key v ->
  Stmt.all_right wtt (dict_set String.eqb key v st).
Proof using Type.
  intros H R key' v'. destruct (String.eqb_spec key' key) as [->|N].
  - rewrite (dict_get_set_same String.eqb String.eqb_eq).
    now intros [= <-].
  - rewrite (dict_get_set_other String.eqb String.eqb_eq) by exact N.
    apply H.
Qed.

Lemma stored_set (st : States) key v key' :
  dict_get String.eqb key' st <> None \/ key' = key ->
  dict_get String.eqb key' (dict_set String.eqb key v st) <> None.
Proof using Type.
  intros H. destruct (String.eqb_spec key' key) as [->|N].
  - now rewrite (dict_get_set_same String.eqb String.eqb_eq).
  - rewrite (dict_get_set_other String.eqb String.eqb_eq) by exact N.
    now destruct H.
Qed.

Lemma store_services_loop path :
  forall st st',
    (forall s, In s path -> Stmt.on_listed_path wtt s) ->
    for_each path (store_service (services wtt)) st = Ok st' ->
    Stmt.all_right wtt st ->
    Stmt.all_right wtt st' /\
    (forall key, dict_get String.eqb key st <> None ->
                 dict_get String.eqb key st' <> None) /\
    (forall s, In s path ->
       exists id, firstId (svcAt (services wtt) s) = Ok id /\
                  dict_get String.eqb (svc_key id) st' <> None).
Proof using consistent.
  induction path as [|s path IH]; intros st st' Hp E R.
  - injection E as <-. split; [exact R|]. split; [auto|]. intros s [].
  - cbn [for_each] in E. unfold store_service at 1 in E.
    destruct (firstId (svcAt (services wtt) s)) as [id|] eqn:F;
      [|discriminate].
    cbn [bind] in E.
    apply IH in E as (R' & M & S).
    + split; [exact R'|]. split.
      * intros key H. apply M, stored_set. now left.
      * intros s' [<-|Hin]; [|now apply S].
        exists id. split; [exact F|]. apply M, stored_set. now right.
    + intros s' Hin. apply Hp. now right.
    + apply all_right_set; [exact R|].
      apply right_service; [|exact F]. apply Hp. now left.
Qed.

Lemma store_loop refs :
  forall st st',
    incl refs (rakecycles wtt) ->
    for_each refs (store_step wtt) st = Ok st' ->
    Stmt.all_right wtt st ->
    Stmt.all_right wtt st' /\
    (forall key, dict_get String.eqb key st <> None ->
                 dict_get String.eqb key st' <> None) /\
    (forall rc, In rc refs ->
       (forall k, RakeCycle.rake (rcAt (links wtt) rc) = Some k ->
          dict_get String.eqb (RakeCycle.linkName (rcAt (links wtt) rc)) st'
          <> None) /\
       (forall s, In s (path_or_empty (rcAt (links wtt) rc)) ->
          exists id, firstId (svcAt (services wtt) s) = Ok id /\
                     dict_get String.eqb (svc_key id) st' <> None)).
Proof using consistent.
  induction refs as [|rc refs IH]; intros st st' Hincl E R.
  - injection E as <-. split; [exact R|]. split; [auto|]. intros rc [].
  - cbn [for_each] in E. unfold store_step at 1, store_rakecycle in E.
    assert (Hrc : In rc (rakecycles wtt)) by (apply Hincl; now left).
    match type of E with
    | bind (for_each _ _ ?st0) _ = _ => set (st1 := st0) in E
    end.
    assert (R1 : Stmt.all_right wtt st1 /\
                 (forall key, dict_get String.eqb key st <> None ->
                              dict_get String.eqb key st1 <> None) /\
                 (forall k, RakeCycle.rake (rcAt (links wtt) rc) = Some k ->
                    dict_get String.eqb
                      (RakeCycle.linkName (rcAt (links wtt) rc)) st1
                    <> None)).
    { subst st1. destruct (RakeCycle.rake (rcAt (links wtt) rc)) as [k|]
        eqn:K.
      - split; [apply all_right_set; [exact R|now apply right_link]|].
        split; [intros key H; apply stored_set; now left|].
        intros k' _. apply stored_set. now right.
      - split; [exact R|]. split; [auto|]. discriminate. }
    destruct R1 as (R1 & M1 & S1).
    destruct (for_each (path_or_empty (rcAt (links wtt) rc))
                (store_service (services wtt)) st1) as [st2|] eqn:E2;
      [|discriminate].
    cbn [bind] in E.
    apply store_services_loop in E2 as (R2 & M2 & S2); [|..|exact R1].
    2:{ intros s Hs. now exists rc. }
    apply IH in E as (R3 & M3 & S3); [|intros x Hx; apply Hincl; now right
                                      |exact R2].
    split; [exact R3|]. split; [intros key H; now apply M3, M2, M1|].
    intros rc' [<-|Hin]; [|now apply S3]. split.
    + intros k K. apply M3, M2. now apply (S1 k).
    + intros s Hs. destruct (S2 s Hs) as (id & F & P).
      exists id. split; [exact F|now apply M3].
Qed.

(** What [storeOriginalACStates] has stored. *)
Lemma storeOriginalACStates_spec st :
  storeOriginalACStates wtt = Ok st ->
  (forall rc k, In rc (rakecycles wtt) ->
     RakeCycle.rake (rcAt (links wtt) rc) = Some k ->
     dict_get String.eqb (RakeCycle.linkName (rcAt (links wtt) rc)) st
     = Some (Rake.isAC k)) /\
  (forall s, Stmt.on_listed_path wtt s ->
     exists id, firstId (svcAt (services wtt) s) = Ok id /\
       dict_get String.eqb (svc_key id) st
       = Some (Service.needsACRake (svcAt (services wtt) s))).
Proof using consistent.
  intros E. unfold storeOriginalACStates in E.
  apply store_loop in E as (R & _ & S);
    [|intros x Hx; exact Hx|intros key v H; discriminate H].
  split.
  - intros rc k Hin K. destruct (S rc Hin) as [P _]. specialize (P k K).
    destruct (dict_get String.eqb _ st) as [v|] eqn:G; [|now elim P].
    f_equal. symmetry. exact (proj1 (R _ _ G) rc k Hin K eq_refl).
  - intros s (rc & Hin & Hs). destruct (S rc Hin) as [_ P].
    destruct (P s Hs) as (id & F & G'). exists id. split; [exact F|].
    destruct (dict_get String.eqb _ st) as [v|] eqn:G; [|now elim G'].
    f_equal. symmetry.
    refine (proj2 (R _ _ G) s id _ F eq_refl). now exists rc.
Qed.

End StoreStates.

Section ResetStates.

Import ACStates.

Variable wtt : TimeTable.
Variable st : States.

Hypothesis stored_links :
  forall rc k, In rc (rakecycles wtt) ->
    RakeCycle.rake (rcAt (links wtt) rc) = Some k ->
    dict_get String.eqb (RakeCycle.linkName (rcAt (links wtt) rc)) st
    = Some (Rake.isAC k).

Hypothesis stored_services :
  forall s, Stmt.on_listed_path wtt s ->
    exists id, firstId (svcAt (services wtt) s) = Ok id /\
      dict_get String.eqb (svc_key id) st
      = Some (Service.needsACRake (svcAt (services wtt) s)).

(** The reset gives a listed rake cycle its rake back. *)
Lemma reset_rake_restores rc r1 :
  In rc (rakecycles wtt) ->
  Stmt.link_but_ac r1 (rcAt (links wtt) rc) ->
  reset_rake st r1 = rcAt (links wtt) rc.
Proof using stored_links.
  intros Hin [RB EQ]. unfold reset_rake. unfold Stmt.rake_but_ac in RB.
  destruct (RakeCycle.rake r1) as [k1|] eqn:K1;
    destruct (RakeCycle.rake (rcAt (links wtt) rc)) as [k0|] eqn:K0;
    try contradiction.
  - assert (N : RakeCycle.linkName r1
                = RakeCycle.linkName (rcAt (links wtt) rc))
      by (rewrite <- EQ; reflexivity).
    rewrite N, (stored_links rc k0 Hin K0), RB.
    exact EQ.
  - rewrite <- EQ. destruct r1. cbn in *. now subst.
Qed.

Lemma on_listed_path_dec s :
  Stmt.on_listed_path wtt s \/ ~ Stmt.on_listed_path wtt s.
Proof using Type.
  clear stored_links stored_services. unfold Stmt.on_listed_path.
  induction (rakecycles wtt) as [|rc refs IH].
  - right. intros (rc & [] & _).
  - destruct (in_dec Nat.eq_dec s (path_or_empty (rcAt (links wtt) rc)))
      as [Hs|Hs].
    + left. exists rc. split; [now left|exact Hs].
    + destruct IH as [(rc' & Hin & Hs')|N].
      * left. exists rc'. split; [now right|exact Hs'].
      * right. intros (rc' & [<-|Hin] & Hs'); [contradiction|].
        apply N. now exists rc'.
Qed.

Lemma reset_services_loop path :
  forall h1,
    List.length h1 = List.length (services wtt) ->
    (forall s, Stmt.service_but_ac (svcAt h1 s) (svcAt (services wtt) s)) ->
    (forall s, In s path -> Stmt.on_listed_path wtt s) ->
    exists h2,
      for_each path (reset_service st) h1 = Ok h2 /\
      List.length h2 = List.length (services wtt) /\
      (forall s, Stmt.service_but_ac (svcAt h2 s) (svcAt (services wtt) s)) /\
      (forall s, In s path -> svcAt h2 s = svcAt (services wtt) s) /\
      (forall s, svcAt h1 s = svcAt (services wtt) s ->
                 svcAt h2 s = svcAt (services wtt) s).
Proof using stored_services.
  induction path as [|s path IH]; intros h1 Hlen Hv Hp.
  - exists h1. split; [reflexivity|]. split; [exact Hlen|].
    split; [exact Hv|]. split; [intros s []|auto].
  - destruct (stored_services s (Hp s (or_introl eq_refl))) as (id & F & G).
    assert (F1 : firstId (svcAt h1 s) = Ok id).
    { unfold firstId in *. now rewrite (service_but_ac_ids _ _ (Hv s)). }
    assert (Hs : (s < List.length h1)%nat)
      by (rewrite Hlen; exact (firstId_in_range _ _ _ F)).
    cbn [for_each]. unfold reset_service at 1. rewrite F1. cbn [bind].
    rewrite G. cbn [bind].
    set (h1' := update s
                  (set_needsACRake
                     (Service.needsACRake (svcAt (services wtt) s))) h1).
    assert (Rs : svcAt h1' s = svcAt (services wtt) s).
    { subst h1'. unfold svcAt at 1.
      rewrite nth_update_same by exact Hs. exact (Hv s). }
    assert (Ro : forall s', s' <> s -> svcAt h1' s' = svcAt h1 s').
    { intros s' N. subst h1'. unfold svcAt.
      now rewrite nth_update_other by exact N. }
    destruct (IH h1') as (h2 & E & L2 & V2 & P2 & K2).
    + subst h1'. now rewrite length_update.
    + intros s'. destruct (Nat.eq_dec s' s) as [->|N].
      * rewrite Rs. apply service_but_ac_refl.
      * rewrite (Ro s' N). apply Hv.
    + intros s' Hin. apply Hp. now right.
    + exists h2. split; [exact E|]. split; [exact L2|].
      split; [exact V2|]. split.
      * intros s' [<-|Hin]; [now apply K2|now apply P2].
      * intros s' Es'. apply K2. destruct (Nat.eq_dec s' s) as [->|N];
          [exact Rs|]. now rewrite (Ro s' N).
Qed.

(** One round of the loop of [resetACStates]. *)
Lemma reset_rakecycle_step rc wtt1 :
  Stmt.ac_variant wtt wtt1 -> In rc (rakecycles wtt) ->
  exists wtt2,
    reset_rakecycle st rc wtt1 = Ok wtt2 /\
    Stmt.ac_variant wtt wtt2 /\
    rcAt (links wtt2) rc = rcAt (links wtt) rc /\
    (forall rc', rcAt (links wtt1) rc' = rcAt (links wtt) rc' ->
                 rcAt (links wtt2) rc' = rcAt (links wtt) rc') /\
    (forall s, In s (path_or_empty (rcAt (links wtt) rc)) ->
               svcAt (services wtt2) s = svcAt (services wtt) s) /\
    (forall s, svcAt (services wtt1) s = svcAt (services wtt) s ->
               svcAt (services wtt2) s = svcAt (services wtt) s).
Proof using stored_links stored_services.
  intros (V1 & V2 & V3 & V4 & V5 & V6 & V7 & V8 & V9 & V10 & V11) Hin.
  unfold reset_rakecycle.
  set (lk := update rc (reset_rake st) (links wtt1)).
  assert (Rrc : rcAt lk rc = rcAt (links wtt) rc).
  { subst lk. unfold rcAt at 1.
    rewrite nth_update_fix by reflexivity.
    apply reset_rake_restores; [exact Hin|apply V8]. }
  assert (Ro : forall rc', rc' <> rc -> rcAt lk rc' = rcAt (links wtt1) rc').
  { intros rc' N. subst lk. unfold rcAt.
    now rewrite nth_update_other by exact N. }
  assert (Kl : forall rc', rcAt (links wtt1) rc' = rcAt (links wtt) rc' ->
                           rcAt lk rc' = rcAt (links wtt) rc').
  { intros rc' E. destruct (Nat.eq_dec rc' rc) as [->|N]; [exact Rrc|].
    now rewrite (Ro rc' N). }
  assert (Vl : forall rc', Stmt.link_but_ac (rcAt lk rc')
                             (rcAt (links wtt) rc')).
  { intros rc'. destruct (Nat.eq_dec rc' rc) as [->|N].
    - rewrite Rrc. apply link_but_ac_refl.
    - rewrite (Ro rc' N). apply V8. }
  assert (Ll : List.length lk = List.length (links wtt))
    by (subst lk; now rewrite length_update).
  assert (Ul : forall rc', ~ In rc' (rakecycles wtt) ->
                           rcAt lk rc' = rcAt (links wtt) rc')
    by (intros rc' H; now apply Kl, V9).
  cbn [links with_links]. rewrite Rrc.
  assert (Plain :
    exists wtt2,
      Ok (with_links lk wtt1) = Ok wtt2 /\
      Stmt.ac_variant wtt wtt2 /\
      rcAt (links wtt2) rc = rcAt (links wtt) rc /\
      (forall rc', rcAt (links wtt1) rc' = rcAt (links wtt) rc' ->
                   rcAt (links wtt2) rc' = rcAt (links wtt) rc') /\
      (forall s, svcAt (services wtt1) s = svcAt (services wtt) s ->
                 svcAt (services wtt2) s = svcAt (services wtt) s)).
  { eexists. split; [reflexivity|].
    split; [exact (conj V1 (conj V2 (conj V3 (conj V4 (conj V5 (conj Ll
              (conj V7 (conj Vl (conj Ul (conj V10 V11))))))))))|].
    split; [exact Rrc|]. split; [exact Kl|]. auto. }
  destruct (RakeCycle.servicePath (rcAt (links wtt) rc)) as [[|s p]|] eqn:P.
  - destruct Plain as (wtt2 & E & W & R & K & Ks). exists wtt2.
    split; [exact E|]. split; [exact W|]. split; [exact R|].
    split; [exact K|]. split; [|exact Ks].
    unfold path_or_empty. rewrite P. intros s [].
  - destruct (reset_services_loop (s :: p) (services wtt1) V7 V10)
      as (h2 & E & L2 & W2 & P2 & K2).
    { intros s' Hs'. exists rc. split; [exact Hin|].
      unfold path_or_empty. now rewrite P. }
    cbn [services with_links]. rewrite E. cbn [bind].
    eexists. split; [reflexivity|].
    assert (Us : forall s', ~ Stmt.on_listed_path wtt s' ->
                            svcAt h2 s' = svcAt (services wtt) s')
      by (intros s' H; now apply K2, V11).
    split; [exact (conj V1 (conj V2 (conj V3 (conj V4 (conj V5 (conj Ll
              (conj L2 (conj Vl (conj Ul (conj W2 Us))))))))))|].
    split; [exact Rrc|]. split; [exact Kl|].
    split; [|exact K2]. unfold path_or_empty. rewrite P. exact P2.
  - destruct Plain as (wtt2 & E & W & R & K & Ks). exists wtt2.
    split; [exact E|]. split; [exact W|]. split; [exact R|].
    split; [exact K|]. split; [|exact Ks].
    unfold path_or_empty. rewrite P. intros s [].
Qed.

Lemma reset_loop refs :
  forall wtt1,
    incl refs (rakecycles wtt) -> Stmt.ac_variant wtt wtt1 ->
    exists wtt2,
      for_each refs (reset_rakecycle st) wtt1 = Ok wtt2 /\
      Stmt.ac_variant wtt wtt2 /\
      (forall rc, In rc refs -> rcAt (links wtt2) rc = rcAt (links wtt) rc) /\
      (forall rc, rcAt (links wtt1) rc = rcAt (links wtt) rc ->
                  rcAt (links wtt2) rc = rcAt (links wtt) rc) /\
      (forall rc s, In rc refs ->
         In s (path_or_empty (rcAt (links wtt) rc)) ->
         svcAt (services wtt2) s = svcAt (services wtt) s) /\
      (forall s, svcAt (services wtt1) s = svcAt (services wtt) s ->
                 svcAt (services wtt2) s = svcAt (services wtt) s).
Proof using stored_links stored_services.
  induction refs as [|rc refs IH]; intros wtt1 Hincl V.
  - exists wtt1. split; [reflexivity|]. split; [exact V|].
    split; [intros rc []|]. split; [auto|]. split; [intros rc s []|auto].
  - destruct (reset_rakecycle_step rc wtt1 V (Hincl rc (or_introl eq_refl)))
      as (wtt1' & E & V' & R & Kl & P & Ks).
    destruct (IH wtt1') as (wtt2 & E2 & V2 & R2 & Kl2 & P2 & Ks2);
      [intros x Hx; apply Hincl; now right|exact V'|].
    exists wtt2. cbn [for_each]. rewrite E. cbn [bind].
    split; [exact E2|]. split; [exact V2|]. split.
    + intros rc' [<-|Hin]; [now apply Kl2|now apply R2].
    + split; [intros rc' H; now apply Kl2, Kl|]. split.
      * intros rc' s [<-|Hin] Hs; [now apply Ks2, P|now apply (P2 rc')].
      * intros s H. now apply Ks2, Ks.
Qed.

(** The reset undoes every change of AC flags. *)
Lemma resetACStates_of_variant wtt1 :
  Stmt.ac_variant wtt wtt1 -> resetACStates (Some st) wtt1 = Ok wtt.
Proof using stored_links stored_services.
  intros V. pose proof V as (V1 & V2 & V3 & V4 & V5 & V6 & V7 & V8 & V9 &
                             V10 & V11).
  unfold resetACStates. rewrite V3.
  destruct (reset_loop (rakecycles wtt) wtt1 (fun x H => H) V)
    as (wtt2 & E & W & R & Kl & P & Ks).
  rewrite E. f_equal.
  destruct W as (W1 & W2 & W3 & W4 & W5 & W6 & W7 & _).
  assert (El : links wtt2 = links wtt).
  { apply (nth_ext _ _ nullRakeCycle nullRakeCycle); [exact W6|].
    intros rc _. destruct (in_dec Nat.eq_dec rc (rakecycles wtt)) as [H|H].
    - now apply R.
    - now apply Kl, V9. }
  assert (Es : services wtt2 = services wtt).
  { apply (nth_ext _ _ nullService nullService); [exact W7|].
    intros s _. destruct (on_listed_path_dec s) as [(rc & Hin & Hs)|H].
    - now apply (P rc).
    - now apply Ks, V11. }
  destruct wtt2, wtt. cbn in *. congruence.
Qed.

End ResetStates.

Section ConvertStates.

Import ACStates.

Variable wtt : TimeTable.

Lemma ac_variant_refl : Stmt.ac_variant wtt wtt.
Proof.
  repeat (split; [reflexivity|]).
  split; [intros rc; apply link_but_ac_refl|]. split; [reflexivity|].
  split; [intros s; apply service_but_ac_refl|reflexivity].
Qed.

(** A service is left alone or, when it is on the path, made to need an
    AC rake. *)
Lemma convert_services_value path :
  forall h s,
    nth s (convert_services path h) nullService = nth s h nullService \/
    (In s path /\
     nth s (convert_services path h) nullService
     = set_needsACRake true (nth s h nullService)).
Proof.
  unfold convert_services.
  induction path as [|x path IH]; intros h s; [now left|].
  cbn [fold_left].
  destruct (Nat.eq_dec s x) as [->|N].
  - destruct (Nat.lt_ge_cases x (List.length h)) as [L|L].
    + right. split; [now left|].
      destruct (IH (update x (set_needsACRake true) h) x) as [E|[_ E]];
        rewrite E, nth_update_same by exact L; reflexivity.
    + rewrite update_out_of_range by exact L.
      destruct (IH h x) as [E|[Hin E]]; [now left|right].
      split; [now right|exact E].
  - destruct (IH (update x (set_needsACRake true) h) s) as [E|[Hin E]];
      rewrite E, nth_update_other by exact N; [now left|right].
    split; [now right|reflexivity].
Qed.

Lemma convert_rakecycle_variant names rc wtt1 conv wtt2 conv2 :
  Stmt.ac_variant wtt wtt1 -> In rc (rakecycles wtt) ->
  convert_rakecycle names rc (wtt1, conv) = Ok (wtt2, conv2) ->
  Stmt.ac_variant wtt wtt2.
Proof.
  intros V Hin. pose proof V as (V1 & V2 & V3 & V4 & V5 & V6 & V7 & V8 &
                                 V9 & V10 & V11).
  unfold convert_rakecycle.
  destruct (existsb _ names); [|now intros [= <- <-]].
  destruct (match RakeCycle.rake (rcAt (links wtt1) rc) with
            | Some k => Rake.isAC k
            | None => false
            end); [now intros [= <- <-]|].
  destruct (RakeCycle.servicePath (rcAt (links wtt1) rc)) as [path|] eqn:P;
    [|discriminate].
  intros [= <- <-].
  set (lk := match RakeCycle.rake (rcAt (links wtt1) rc) with
             | Some k =>
                 update rc (RakeCycle.set_rake (set_isAC true k)) (links wtt1)
             | None => links wtt1
             end).
  assert (Ll : List.length lk = List.length (links wtt)).
  { subst lk. destruct (RakeCycle.rake _); [rewrite length_update|];
      exact V6. }
  assert (Ro : forall rc', rc' <> rc -> rcAt lk rc' = rcAt (links wtt1) rc').
  { intros rc' N. subst lk. destruct (RakeCycle.rake _); [|reflexivity].
    unfold rcAt. now rewrite nth_update_other by exact N. }
  assert (Vl : forall rc', Stmt.link_but_ac (rcAt lk rc')
                             (rcAt (links wtt) rc')).
  { intros rc'. destruct (Nat.eq_dec rc' rc) as [->|N];
      [|rewrite (Ro rc' N); apply V8].
    subst lk. pose proof (V8 rc) as [RB EQ].
    destruct (RakeCycle.rake (rcAt (links wtt1) rc)) as [k|] eqn:K;
      [|now split; [rewrite K|]].
    destruct (Nat.lt_ge_cases rc (List.length (links wtt1))) as [L|L].
    - unfold rcAt at 1. rewrite nth_update_same by exact L.
      fold (rcAt (links wtt1) rc). split; [|exact EQ].
      unfold Stmt.rake_but_ac in *. cbn [RakeCycle.rake RakeCycle.set_rake].
      destruct (RakeCycle.rake (rcAt (links wtt) rc)) as [k0|];
        [exact RB|contradiction].
    - rewrite update_out_of_range by exact L. split; [now rewrite K|exact EQ].
  }
  assert (Ul : forall rc', ~ In rc' (rakecycles wtt) ->
                           rcAt lk rc' = rcAt (links wtt) rc').
  { intros rc' H. rewrite Ro; [now apply V9|]. intros ->. contradiction. }
  assert (Hpath : forall s, In s path -> Stmt.on_listed_path wtt s).
  { intros s Hs. exists rc. split; [exact Hin|]. unfold path_or_empty.
    destruct (V8 rc) as [_ EQ]. rewrite <- EQ.
    cbn [RakeCycle.servicePath]. now rewrite P. }
  assert (Vs : forall s, Stmt.service_but_ac
                 (svcAt (convert_services path (services wtt1)) s)
                 (svcAt (services wtt) s)).
  { intros s. unfold svcAt at 1.
    destruct (convert_services_value path (services wtt1) s) as [E|[_ E]];
      rewrite E; [apply V10|apply service_but_ac_set, V10]. }
  assert (Us : forall s, ~ Stmt.on_listed_path wtt s ->
                 svcAt (convert_services path (services wtt1)) s
                 = svcAt (services wtt) s).
  { intros s H. unfold svcAt at 1.
    destruct (convert_services_value path (services wtt1) s) as [E|[Hs _]];
      [rewrite E; now apply V11|]. elim H. now apply Hpath. }
  assert (Ls : List.length (convert_services path (services wtt1))
               = List.length (services wtt))
    by (unfold convert_services; now rewrite fold_update_length).
  exact (conj V1 (conj V2 (conj V3 (conj V4 (conj V5 (conj Ll
           (conj Ls (conj Vl (conj Ul (conj Vs Us)))))))))).
Qed.

Lemma convert_loop names refs :
  forall wtt1 conv wtt2 conv2,
    incl refs (rakecycles wtt) -> Stmt.ac_variant wtt wtt1 ->
    for_each refs (convert_rakecycle names) (wtt1, conv) = Ok (wtt2, conv2) ->
    Stmt.ac_variant wtt wtt2.
Proof.
  induction refs as [|rc refs IH]; intros wtt1 conv wtt2 conv2 Hincl V E.
  - now injection E as <- <-.
  - cbn [for_each] in E.
    destruct (convert_rakecycle names rc (wtt1, conv)) as [[wtt1' conv']|]
      eqn:E1; [|discriminate].
    cbn [bind] in E. apply (IH wtt1' conv' wtt2 conv2); [|  |exact E].
    + intros x Hx. apply Hincl. now right.
    + apply (convert_rakecycle_variant names rc wtt1 conv wtt1' conv');
        [exact V|apply Hincl; now left|exact E1].
Qed.

(** The conversion changes AC flags only, of listed rake cycles and of
    services on their paths. *)
Lemma convertRakeLinksToAC_variant names wtt1 conv :
  convertRakeLinksToAC names wtt = Ok (wtt1, conv) ->
  Stmt.ac_variant wtt wtt1.
Proof.
  unfold convertRakeLinksToAC. destruct names as [|n names].
  - intros [= <- <-]. apply ac_variant_refl.
  - apply convert_loop; [intros x Hx; exact Hx|apply ac_variant_refl].
Qed.

End ConvertStates.

(** Reset after conversion.  When the keys under which the AC states are
    stored tell the stored values apart, resetting after any conversion
    of rake links to AC gives back the table as it was when the states
    were stored: every rake and every service has its original AC
    flag. *)
Theorem resetACStates_after_convert :
  forall wtt st link_names wtt1 converted,
    Stmt.ac_keys_consistent wtt ->
    ACStates.storeOriginalACStates wtt = Ok st ->
    ACStates.convertRakeLinksToAC link_names wtt = Ok (wtt1, converted) ->
    ACStates.resetACStates (Some st) wtt1 = Ok wtt.
Proof.
  intros wtt st names wtt1 conv C S E.
  destruct (storeOriginalACStates_spec wtt C st S) as [SL SS].
  apply (resetACStates_of_variant wtt st SL SS).
  exact (convertRakeLinksToAC_variant wtt names wtt1 conv E).
Qed.

Lemma resetACStates_after_convert_witness :
  exists st wtt1,
    ACStates.storeOriginalACStates Cases.raked = Ok st /\
    ACStates.convertRakeLinksToAC ["A"%string] Cases.raked
    = Ok (wtt1, ["A"%string]) /\
    map Service.needsACRake (services wtt1) = [true; true] /\
    ACStates.resetACStates (Some st) wtt1 = Ok Cases.raked.
Proof.
  do 2 eexists. split; [reflexivity|]. split; [reflexivity|].
  split; [reflexivity|].
  refine (resetACStates_after_convert Cases.raked _ ["A"%string] _
            ["A"%string] _ eq_refl eq_refl).
  split; [|split].
  - intros rc rc' k k' [<-|[]] [<-|[]] K K'. rewrite K in K'.
    now injection K' as <-.
  - intros s s' id id' (rc & [<-|[]] & Hs) (rc' & [<-|[]] & Hs') F F' E.
    destruct Hs as [<-|[<-|[]]], Hs' as [<-|[<-|[]]];
      try reflexivity;
      injection F as <-; injection F' as <-; discriminate E.
  - intros rc [<-|[]] _. reflexivity.
Defined.

(* ================================================================== *)
(** * The suburban services and the identifiers of the summary *)
(* ================================================================== *)

Section SuburbanServices.

Import Suburban.


End SuburbanServices.


Section DefinedIds.








End DefinedIds.



(* ================================================================== *)
(** * Stations passed through, in the service filter *)
(* ================================================================== *)

Section PassingThrough.

Import ServiceOps.

(** [stnMapTimes] groups the times by station, in the order of the
    events. *)
Lemma record_loop st events :
  forall m,
    dict_get String.eqb st (fold_left record_time events m)
    = match dict_get String.eqb st m, Stmt.calls_of events st with
      | None, [] => None
      | None, l => Some (map StationEvent.atTime l)
      | Some old, l => Some (old ++ map StationEvent.atTime l)
      end.
Proof.
  induction events as [|e events IH]; intros m.
  - cbn [fold_left Stmt.calls_of filter map].
    destruct (dict_get String.eqb st m); [now rewrite app_nil_r|reflexivity].
  - cbn [fold_left]. rewrite IH. unfold record_time, Stmt.calls_of.
    cbn [filter].
    destruct (String.eqb_spec (StationEvent.atStation e) st) as [->|N].
    + rewrite (dict_get_set_same String.eqb String.eqb_eq).
      destruct (dict_get String.eqb st m) as [old|]; cbn [map app];
        [now rewrite <- app_assoc|reflexivity].
    + rewrite (dict_get_set_other String.eqb String.eqb_eq) by congruence.
      reflexivity.
Qed.

Lemma stnMapTimes_get events st :
  dict_get String.eqb st (stnMapTimes events)
  = match Stmt.calls_of events st with
    | [] => None
    | l => Some (map StationEvent.atTime l)
    end.
Proof. unfold stnMapTimes. now rewrite record_loop. Qed.

Variable qq : FilterQuery.
Variable p : Z * Z.
Hypothesis has_period : inTimePeriod qq = Some p.

(** The test of one queried station. *)
Lemma passing_station events st :
  Forall Aux.has_time events ->
  match dict_get String.eqb st (stnMapTimes events) with
  | None => Stmt.last_call_within p events st = false
  | Some times =>
      exists t,
        index times (-1) = Ok (Some t) /\
        in_period p (Some t) = Ok (Stmt.last_call_within p events st)
  end.
Proof using Type.
  intros Ht. rewrite stnMapTimes_get. unfold Stmt.last_call_within,
    Stmt.last_call.
  destruct (Stmt.calls_of events st) as [|c cs] eqn:C; [reflexivity|].
  destruct (@exists_last _ (c :: cs)) as (l & e & E); [discriminate|].
  rewrite E, rev_app_distr, map_app. cbn [rev app map].
  assert (He : Aux.has_time e).
  { rewrite Forall_forall in Ht. apply Ht.
    assert (Hin : In e (Stmt.calls_of events st))
      by (rewrite C, E; apply in_or_app; right; now left).
    unfold Stmt.calls_of in Hin. now apply filter_In in Hin. }
  unfold Aux.has_time in He.
  destruct (StationEvent.atTime e) as [t|] eqn:T; [|now elim He].
  exists t. split; [apply index_last_snoc|reflexivity].
Qed.

Lemma passing_loop_spec events stns render :
  Forall Aux.has_time events ->
  passing_loop (stnMapTimes events) qq stns render
  = Ok (render && forallb (Stmt.last_call_within p events) stns).
Proof using has_period.
  intros Ht. induction stns as [|st stns IH]; cbn [passing_loop forallb].
  - now rewrite andb_true_r.
  - pose proof (passing_station events st Ht) as H.
    destruct (dict_get String.eqb st (stnMapTimes events)) as [times|].
    + destruct H as (t & E & W). rewrite E. cbn [bind].
      unfold unpack_period. rewrite has_period. cbn [bind]. rewrite W.
      cbn [bind].
      destruct (Stmt.last_call_within p events st); cbn [negb andb];
        [exact IH|reflexivity].
    + rewrite H. reflexivity.
Qed.

End PassingThrough.

(** The stations passed through, in the service filter.  With a time
    window, and every event timed, the check returns, and keeps the flag
    of the service exactly when the service calls at every queried
    station and its last call there lies in the window; earlier calls at
    the station are not looked at. *)
Theorem checkPassingThroughConstraint_last_call :
  forall svc qq p render,
    inTimePeriod qq = Some p ->
    Forall Aux.has_time (Service.events svc) ->
    ServiceOps.checkPassingThroughConstraint svc qq render
    = Ok (render &&
          forallb (Stmt.last_call_within p (Service.events svc))
                  (map upper (passingThrough qq))).
Proof.
  intros svc qq p render Hp Ht.
  unfold ServiceOps.checkPassingThroughConstraint.
  destruct (map upper (passingThrough qq)) as [|st stns] eqn:E.
  - cbn [forallb]. now rewrite andb_true_r.
  - now apply passing_loop_spec.
Qed.

Lemma checkPassingThroughConstraint_last_call_witness :
  ServiceOps.checkPassingThroughConstraint Cases.there_and_back
    Cases.via_dadar_morning true = Ok false /\
  Stmt.calls_at (Service.events Cases.there_and_back) "DADAR" = true.
Proof.
  split; [|reflexivity].
  apply (checkPassingThroughConstraint_last_call Cases.there_and_back
           Cases.via_dadar_morning (420, 600) true); [reflexivity|].
  repeat constructor; discriminate.
Defined.

(* ================================================================== *)
(** * What the service filter leaves on the objects *)
(* ================================================================== *)

Section ServiceFilterValue.

Import Simulator.

Lemma not_In_existsb rc refs :
  ~ In rc refs -> existsb (Nat.eqb rc) refs = false.
Proof.
  intros H. destruct (existsb (Nat.eqb rc) refs) eqn:E; [|reflexivity].
  apply existsb_exists in E as (x & Hx & Ex). apply Nat.eqb_eq in Ex.
  now subst x.
Qed.

Lemma filter_rakecycle_spec h r :
  filter_rakecycle h r
  = RakeCycle.set_render (RakeCycle.render (filter_rakecycle h r)) r /\
  (RakeCycle.render (filter_rakecycle h r) = true <->
   exists path s,
     RakeCycle.servicePath r = Some path /\ In s path /\
     Service.render (svcAt h s) = true).
Proof.
  unfold filter_rakecycle.
  cbn [RakeCycle.servicePath RakeCycle.set_render].
  destruct (RakeCycle.servicePath r) as [[|s0 p]|] eqn:P.
  - split; [reflexivity|]. cbn [RakeCycle.render].
    split; [discriminate|]. intros (path & s & [= <-] & [] & _).
  - destruct (existsb _ _) eqn:X;
      cbn [RakeCycle.render RakeCycle.set_render];
      (split; [reflexivity|]).
    + split; [|reflexivity]. intros _.
      apply existsb_exists in X as (s & Hs & R). now exists (s0 :: p), s.
    + split; [discriminate|]. intros (path & s & [= <-] & Hs & R).
      assert (C : existsb (fun s => Service.render (svcAt h s)) (s0 :: p)
                  = true)
        by (apply existsb_exists; now exists s).
      congruence.
  - split; [reflexivity|]. cbn [RakeCycle.render].
    split; [discriminate|]. intros (path & s & [=] & _).
Qed.

End ServiceFilterValue.

(** The service filter, object by object.  Every listed service gets the
    flags that the five checks give it, whatever its flags were; every
    other service is left alone; and a listed rake cycle is shown
    exactly when some service on its path is shown after the pass. *)
Theorem applyServiceFilters_visible :
  forall qq wtt wtt',
    Simulator.applyServiceFilters qq wtt = Ok wtt' ->
    (forall s, In s (suburbanServices wtt) ->
       (s < List.length (services wtt))%nat ->
       Simulator.filter_service qq (svcAt (services wtt) s)
       = Ok (svcAt (services wtt') s)) /\
    (forall s, ~ In s (suburbanServices wtt) ->
       svcAt (services wtt') s = svcAt (services wtt) s) /\
    (forall rc, In rc (rakecycles wtt) ->
       (rc < List.length (links wtt))%nat ->
       rcAt (links wtt') rc
       = RakeCycle.set_render (RakeCycle.render (rcAt (links wtt') rc))
           (rcAt (links wtt) rc) /\
       (RakeCycle.render (rcAt (links wtt') rc) = true <->
        exists path s,
          RakeCycle.servicePath (rcAt (links wtt) rc) = Some path /\
          In s path /\ Service.render (svcAt (services wtt') s) = true)).
Proof.
  intros qq wtt wtt'. unfold Simulator.applyServiceFilters.
  destruct (Simulator.filter_services qq (suburbanServices wtt)
              (services wtt)) as [h|] eqn:E; [|discriminate].
  cbn [bind]. intros [= <-].
  cbn [services links rakecycles with_links with_services].
  apply (for_each_update_value nullService (Simulator.filter_service qq)
           (suburbanServices wtt) (filter_service_idempotent qq)) in E
    as [Hlen Hval].
  split; [|split].
  - intros s Hin Hs. specialize (Hval s Hs).
    now rewrite (In_existsb s _ Hin) in Hval.
  - intros s Hin. unfold svcAt.
    destruct (Nat.lt_ge_cases s (List.length (services wtt))) as [L|L].
    + specialize (Hval s L). now rewrite (not_In_existsb s _ Hin) in Hval.
    + rewrite !nth_overflow by lia. reflexivity.
  - intros rc Hin Hrc. unfold rcAt, Simulator.filter_rakecycles.
    rewrite fold_update_value, (In_existsb rc _ Hin);
      [apply filter_rakecycle_spec|apply filter_rakecycle_idempotent
      |exact Hrc].
Qed.

Lemma applyServiceFilters_visible_witness :
  exists wtt',
    Simulator.applyServiceFilters Inputs.up_from_dadar Inputs.sequenced_table
    = Ok wtt' /\
    Simulator.filter_service Inputs.up_from_dadar
      (svcAt (services Inputs.sequenced_table) 1%nat)
    = Ok (svcAt (services wtt') 1%nat).
Proof.
  eexists. split; [reflexivity|].
  apply (proj1 (applyServiceFilters_visible Inputs.up_from_dadar
                  Inputs.sequenced_table _ eq_refl)).
  - right. now left.
  - cbn. lia.
Defined.

(* ================================================================== *)
(** * The events that sequencing adds *)
(* ================================================================== *)

Section AddedEvents.

Import ServiceOps.

Lemma init_flags st time type :
  StationEvent.eType (StationEvent.init st time type) = None /\
  StationEvent.render (StationEvent.init st time type) = true.
Proof. now split. Qed.

(** A row adds nothing, one event or two, after the events that are
    there. *)
Lemma sequence_row_appends stations sheet serviceCol row events events' :
  sequence_row stations sheet serviceCol row events = Ok events' ->
  exists added,
    events' = events ++ added /\ (List.length added <= 2)%nat /\
    Forall (fun e => StationEvent.eType e = None /\
                     StationEvent.render e = true) added.
Proof.
  destruct row as [rowIdx cell]. unfold sequence_row.
  destruct (TimeTableParser.rTimePattern_search cell) as [tCell|].
  2:{ intros [= <-]. exists []. rewrite app_nil_r. repeat split; auto. }
  destruct (resolve_station stations sheet events rowIdx) as [stName|];
    [|discriminate].
  cbn [bind]. destruct (indicator sheet rowIdx) as [ind|]; [|discriminate].
  cbn [bind]. destruct (cell_is ind "A").
  - destruct (indicator sheet (rowIdx + 1)) as [ind'|]; [|discriminate].
    cbn [bind]. destruct (cell_is ind' "D").
    + destruct (index serviceCol (rowIdx + 1)) as [below|]; [|discriminate].
      cbn [bind]. destruct (TimeTableParser.rTimePattern_match _);
        intros [= <-].
      * eexists. rewrite <- app_assoc. split; [reflexivity|].
        split; [cbn; lia|]. repeat constructor.
      * eexists. split; [reflexivity|]. split; [cbn; lia|].
        repeat constructor.
    + intros [= <-]. eexists. split; [reflexivity|]. split; [cbn; lia|].
      repeat constructor.
  - intros [= <-]. eexists. split; [reflexivity|]. split; [cbn; lia|].
    repeat constructor.
Qed.

Lemma sequence_rows_append stations sheet serviceCol rows :
  forall events events',
    for_each rows (sequence_row stations sheet serviceCol) events
    = Ok events' ->
    exists added,
      events' = events ++ added /\
      (List.length added <= 2 * List.length rows)%nat /\
      Forall (fun e => StationEvent.eType e = None /\
                       StationEvent.render e = true) added.
Proof.
  induction rows as [|row rows IH]; intros events events' E.
  - injection E as <-. exists []. rewrite app_nil_r. repeat split; auto.
  - cbn [for_each] in E.
    destruct (sequence_row stations sheet serviceCol row events)
      as [events1|] eqn:E1; [|discriminate].
    cbn [bind] in E.
    apply sequence_row_appends in E1 as (a1 & -> & L1 & F1).
    apply IH in E as (a2 & -> & L2 & F2).
    exists (a1 ++ a2). rewrite app_assoc. split; [reflexivity|].
    split; [rewrite length_app; cbn [List.length]; lia|].
    apply Forall_app. now split.
Qed.

End AddedEvents.

(** Event sequencing only adds.  The events that a service has stay, in
    their order, in front; at most two events are added for each cell of
    the column; and every added event is shown and has no event type:
    the constructor drops the type it is given, so that arrivals and
    departures cannot be told apart afterwards. *)
Theorem generateStationEvents_appends :
  forall wttSheets stations s events',
    ServiceOps.generateStationEvents wttSheets stations s = Ok events' ->
    exists added,
      events' = Service.events s ++ added /\
      (List.length added <= 2 * List.length (Service.rawServiceCol s))%nat /\
      Forall (fun e => StationEvent.eType e = None /\
                       StationEvent.render e = true) added.
Proof.
  intros wttSheets stations s events'.
  unfold ServiceOps.generateStationEvents.
  destruct (index wttSheets _) as [sheet|]; [|discriminate].
  cbn [bind]. intros E.
  apply sequence_rows_append in E as (added & -> & L & F).
  exists added. split; [reflexivity|]. split; [|exact F].
  unfold ServiceOps.items in L.
  rewrite length_combine, length_map, length_seq, Nat.min_id in L.
  exact L.
Qed.

Lemma generateStationEvents_appends_witness :
  exists events' added,
    ServiceOps.generateStationEvents [Inputs.dwell_sheet] Inputs.network
      Cases.sequenced_once = Ok events' /\
    events' = Service.events Cases.sequenced_once ++ added /\
    List.length added = 4%nat /\
    Forall (fun e => StationEvent.eType e = None /\
                     StationEvent.render e = true) added.
Proof.
  destruct (generateStationEvents_appends [Inputs.dwell_sheet] Inputs.network
              Cases.sequenced_once _ eq_refl) as (added & E & _ & F).
  eexists. exists added. split; [reflexivity|]. split; [exact E|].
  split; [|exact F].
  rewrite <- !app_assoc in E. apply app_inv_head in E. now subst added.
Defined.

(* ================================================================== *)
(** * What [generateRakeCycles] leaves for the later passes *)
(* ================================================================== *)

Section Pipeline.

Import Reconciler.

(** ** Validation reads every path *)

Lemma comprehension_all {A B} (f : A -> result B) l ys :
  comprehension f l = Ok ys -> forall x, In x l -> exists y, f x = Ok y.
Proof.
  revert ys. induction l as [|a l IH]; intros ys E x Hin; [contradiction|].
  cbn [comprehension] in E. destruct (f a) as [y|] eqn:Fa; [|discriminate].
  cbn [bind] in E. destruct (comprehension f l) as [ys'|]; [|discriminate].
  destruct Hin as [<-|Hin]; [now exists y|]. now apply (IH ys').
Qed.

Lemma validate_loop_reads l :
  forall wtt wtt',
    for_each l validate_one wtt = Ok wtt' ->
    services wtt' = services wtt /\ links wtt' = links wtt /\
    rakecycles wtt' = rakecycles wtt /\
    forall rc, In rc l ->
      exists path,
        RakeCycle.servicePath (rcAt (links wtt) rc) = Some path /\
        forall s, In s path ->
          exists id, firstId (svcAt (services wtt) s) = Ok id.
Proof.
  induction l as [|rc l IH]; intros wtt wtt' E.
  - injection E as <-. repeat split. intros rc [].
  - cbn [for_each] in E.
    destruct (validate_one rc wtt) as [wtt1|] eqn:E1; [|discriminate].
    cbn [bind] in E. pose proof (validate_one_keeps _ _ _ E1) as (S1 & L1 & R1).
    apply IH in E as (S2 & L2 & R2 & H).
    split; [congruence|]. split; [congruence|]. split; [congruence|].
    intros rc' [<-|Hin].
    + unfold validate_one, wttPathOf in E1.
      destruct (RakeCycle.servicePath (rcAt (links wtt) rc)) as [path|];
        [|discriminate].
      exists path. split; [reflexivity|].
      destruct (comprehension _ path) as [ids|] eqn:C; [|discriminate].
      exact (comprehension_all _ _ _ C).
    + destruct (H rc' Hin) as (path & P & F). rewrite L1, S1 in *.
      now exists path.
Qed.

Lemma remove_first_incl x l l' :
  remove_first Nat.eqb x l = Ok l' -> incl l' l.
Proof.
  revert l'. induction l as [|y l IH]; intros l' E; [discriminate|].
  cbn [remove_first] in E. destruct (Nat.eqb y x).
  - injection E as <-. intros z Hz. now right.
  - destruct (remove_first Nat.eqb x l) as [r|]; [|discriminate].
    injection E as <-. intros z [<-|Hz]; [now left|].
    right. now apply (IH r).
Qed.

Lemma remove_all_keeps xs :
  forall wtt wtt',
    remove_all xs wtt = Ok wtt' ->
    services wtt' = services wtt /\ links wtt' = links wtt /\
    incl (rakecycles wtt') (rakecycles wtt).
Proof.
  induction xs as [|x xs IH]; intros wtt wtt' E.
  - injection E as <-. repeat split. intros z Hz; exact Hz.
  - rewrite remove_all_cons in E.
    destruct (remove_first Nat.eqb x (rakecycles wtt)) as [l|] eqn:E1;
      [|discriminate].
    cbn [bind] in E. apply IH in E as (S & L & I).
    cbn [services links rakecycles with_rakecycles] in *.
    split; [exact S|]. split; [exact L|].
    intros z Hz. apply (remove_first_incl _ _ _ E1). now apply I.
Qed.

Lemma validateRakeCycles_reads wtt wtt' :
  validateRakeCycles wtt = Ok wtt' ->
  services wtt' = services wtt /\ links wtt' = links wtt /\
  forall rc, In rc (rakecycles wtt') ->
    exists path,
      RakeCycle.servicePath (rcAt (links wtt') rc) = Some path /\
      forall s, In s path ->
        exists id, firstId (svcAt (services wtt') s) = Ok id.
Proof.
  unfold validateRakeCycles. intros E.
  destruct (for_each (rakecycles wtt) validate_one wtt) as [wtt1|] eqn:E1;
    [|discriminate].
  cbn [bind] in E. apply validate_loop_reads in E1 as (S1 & L1 & R1 & H).
  apply remove_all_keeps in E as (S2 & L2 & I).
  split; [congruence|]. split; [congruence|].
  intros rc Hin. rewrite L2, L1, S2, S1. apply H.
  rewrite <- R1. now apply I.
Qed.

(** ** Sequencing makes the services ready *)

Lemma sequence_service_step sheets rc s wtt wtt' :
  sequence_service sheets rc s wtt = Ok wtt' ->
  rakecycles wtt' = rakecycles wtt /\
  (forall rc', RakeCycle.servicePath (rcAt (links wtt') rc')
               = RakeCycle.servicePath (rcAt (links wtt) rc')) /\
  (forall rc', RakeCycle.rake (rcAt (links wtt') rc')
               = RakeCycle.rake (rcAt (links wtt) rc')) /\
  (forall s', Service.serviceId (svcAt (services wtt') s')
              = Service.serviceId (svcAt (services wtt) s')) /\
  Stmt.sequenced (svcAt (services wtt') s) /\
  (forall s', Stmt.sequenced (svcAt (services wtt) s') ->
              Stmt.sequenced (svcAt (services wtt') s')).
Proof.
  unfold sequence_service.
  destruct (ServiceOps.generateStationEvents sheets (stations wtt)
              (svcAt (services wtt) s)) as [events|] eqn:G; [|discriminate].
  cbn [bind]. destruct events as [|e0 es]; [discriminate|]. cbn [bind].
  destruct (existsb _ (stations wtt)); [|discriminate]. cbn [bind].
  destruct (index (e0 :: es) (-1)) as [en|]; [|discriminate]. cbn [bind].
  destruct (existsb _ (stations wtt)); [|discriminate]. cbn [bind].
  destruct (ServiceOps.computeLengthKm (e0 :: es)) as [l|]; [|discriminate].
  cbn [bind]. intros [= <-].
  cbn [rakecycles links services with_links with_services].
  assert (Hs : (s < List.length (services wtt))%nat).
  { destruct (Nat.lt_ge_cases s (List.length (services wtt))) as [L|L];
      [exact L|].
    exfalso. unfold svcAt in G. rewrite nth_overflow in G by exact L.
    unfold ServiceOps.generateStationEvents in G.
    destruct (index sheets _) as [sheet|]; [|discriminate].
    cbn in G. discriminate G. }
  split; [reflexivity|]. split; [|split; [|split; [|split]]].
  - intros rc'. unfold rcAt.
    destruct (Nat.eq_dec rc' rc) as [->|N];
      [|now rewrite nth_update_other by exact N].
    destruct (Nat.lt_ge_cases rc (List.length (links wtt))) as [L|L];
      [now rewrite nth_update_same by exact L
      |now rewrite update_out_of_range by exact L].
  - intros rc'. unfold rcAt.
    destruct (Nat.eq_dec rc' rc) as [->|N];
      [|now rewrite nth_update_other by exact N].
    destruct (Nat.lt_ge_cases rc (List.length (links wtt))) as [L|L];
      [now rewrite nth_update_same by exact L
      |now rewrite update_out_of_range by exact L].
  - intros s'. unfold svcAt.
    destruct (Nat.eq_dec s' s) as [->|N];
      [now rewrite nth_update_same by exact Hs
      |now rewrite nth_update_other by exact N].
  - unfold svcAt. rewrite nth_update_same by exact Hs.
    repeat split; discriminate.
  - intros s' R. unfold svcAt in *.
    destruct (Nat.eq_dec s' s) as [->|N];
      [|now rewrite nth_update_other by exact N].
    rewrite nth_update_same by exact Hs. repeat split; discriminate.
Qed.

Lemma sequence_services_loop sheets rc path :
  forall wtt wtt',
    for_each path (sequence_service sheets rc) wtt = Ok wtt' ->
    rakecycles wtt' = rakecycles wtt /\
    (forall rc', RakeCycle.servicePath (rcAt (links wtt') rc')
                 = RakeCycle.servicePath (rcAt (links wtt) rc')) /\
    (forall rc', RakeCycle.rake (rcAt (links wtt') rc')
                 = RakeCycle.rake (rcAt (links wtt) rc')) /\
    (forall s', Service.serviceId (svcAt (services wtt') s')
                = Service.serviceId (svcAt (services wtt) s')) /\
    (forall s, In s path -> Stmt.sequenced (svcAt (services wtt') s)) /\
    (forall s', Stmt.sequenced (svcAt (services wtt) s') ->
                Stmt.sequenced (svcAt (services wtt') s')).
Proof.
  induction path as [|s path IH]; intros wtt wtt' E.
  - injection E as <-. do 4 (split; [reflexivity|]).
    split; [intros s []|auto].
  - cbn [for_each] in E.
    destruct (sequence_service sheets rc s wtt) as [wtt1|] eqn:E1;
      [|discriminate].
    cbn [bind] in E.
    apply sequence_service_step in E1 as (R1 & P1 & K1 & I1 & Q1 & M1).
    apply IH in E as (R2 & P2 & K2 & I2 & Q2 & M2).
    split; [congruence|].
    split; [intros rc'; now rewrite P2|].
    split; [intros rc'; now rewrite K2|].
    split; [intros s'; now rewrite I2|]. split.
    + intros s' [<-|Hin]; [now apply M2|now apply Q2].
    + intros s' H. now apply M2, M1.
Qed.

Lemma sequence_loop sheets refs :
  forall wtt wtt',
    for_each refs (sequence_rakecycle sheets) wtt = Ok wtt' ->
    rakecycles wtt' = rakecycles wtt /\
    (forall rc', RakeCycle.servicePath (rcAt (links wtt') rc')
                 = RakeCycle.servicePath (rcAt (links wtt) rc')) /\
    (forall s', Service.serviceId (svcAt (services wtt') s')
                = Service.serviceId (svcAt (services wtt) s')) /\
    (forall rc path s, In rc refs ->
       RakeCycle.servicePath (rcAt (links wtt) rc) = Some path ->
       In s path -> Stmt.sequenced (svcAt (services wtt') s)) /\
    (forall s', Stmt.sequenced (svcAt (services wtt) s') ->
                Stmt.sequenced (svcAt (services wtt') s')).
Proof.
  induction refs as [|rc refs IH]; intros wtt wtt' E.
  - injection E as <-. do 3 (split; [reflexivity|]).
    split; [intros rc path s []|auto].
  - cbn [for_each] in E. unfold sequence_rakecycle at 1 in E.
    destruct (RakeCycle.servicePath (rcAt (links wtt) rc)) as [path|] eqn:P;
      [|discriminate].
    destruct (for_each path (sequence_service sheets rc) wtt) as [wtt1|]
      eqn:E1; [|discriminate].
    cbn [bind] in E.
    apply sequence_services_loop in E1 as (R1 & P1 & _ & I1 & Q1 & M1).
    apply IH in E as (R2 & P2 & I2 & Q2 & M2).
    split; [congruence|].
    split; [intros rc'; now rewrite P2|].
    split; [intros s'; now rewrite I2|]. split.
    + intros rc' path' s [<-|Hin] P' Hs.
      * rewrite P in P'. injection P' as <-. now apply M2, Q1.
      * apply (Q2 rc' path' s Hin); [|exact Hs]. now rewrite P1.
    + intros s' H. now apply M2, M1.
Qed.

(** ** The assignment gives every listed rake cycle a rake *)

Lemma assign_loop h l :
  forall lk lk',
    for_each l (assign_step h) lk = Ok lk' ->
    (forall rc', RakeCycle.servicePath (rcAt lk' rc')
                 = RakeCycle.servicePath (rcAt lk rc')) /\
    (forall rc', RakeCycle.rake (rcAt lk rc') <> None ->
                 RakeCycle.rake (rcAt lk' rc') <> None) /\
    (forall irc, In irc l -> RakeCycle.rake (rcAt lk' (snd irc)) <> None).
Proof.
  induction l as [|[i rc] l IH]; intros lk lk' E.
  - injection E as <-. split; [reflexivity|]. split; [auto|].
    intros irc [].
  - cbn [for_each] in E. unfold assign_step at 1, assign_one in E.
    cbn [fst snd] in E.
    destruct (RakeCycle.servicePath (rcAt lk rc)) as [path|] eqn:P;
      [|discriminate].
    cbn [bind] in E.
    assert (Hrc : (rc < List.length lk)%nat).
    { destruct (Nat.lt_ge_cases rc (List.length lk)) as [L|L]; [exact L|].
      unfold rcAt in P. rewrite nth_overflow in P by exact L.
      discriminate P. }
    apply IH in E as (P2 & K2 & Q2).
    assert (Same : forall rc', rc' <> rc ->
              rcAt (update rc (fun _ =>
                      RakeCycle.set_rake (scan_path h path (Rake.init i))
                        (rcAt lk rc)) lk) rc' = rcAt lk rc').
    { intros rc' N. unfold rcAt. now rewrite nth_update_other by exact N. }
    assert (Here : rcAt (update rc (fun _ =>
                      RakeCycle.set_rake (scan_path h path (Rake.init i))
                        (rcAt lk rc)) lk) rc
                   = RakeCycle.set_rake (scan_path h path (Rake.init i))
                       (rcAt lk rc)).
    { unfold rcAt. now rewrite nth_update_same by exact Hrc. }
    split; [|split].
    + intros rc'. rewrite P2. destruct (Nat.eq_dec rc' rc) as [->|N];
        [now rewrite Here|now rewrite Same].
    + intros rc' H. apply K2. destruct (Nat.eq_dec rc' rc) as [->|N];
        [rewrite Here; discriminate|now rewrite Same].
    + intros irc [<-|Hin]; [|now apply Q2]. cbn [snd].
      apply K2. rewrite Here. discriminate.
Qed.

Lemma assignRakes_keeps wtt wtt' :
  assignRakes wtt = Ok wtt' ->
  services wtt' = services wtt /\ rakecycles wtt' = rakecycles wtt /\
  (forall rc', RakeCycle.servicePath (rcAt (links wtt') rc')
               = RakeCycle.servicePath (rcAt (links wtt) rc')) /\
  (forall rc, In rc (rakecycles wtt) ->
     RakeCycle.rake (rcAt (links wtt') rc) <> None).
Proof.
  unfold assignRakes.
  destruct (for_each _ _ _) as [lk|] eqn:E; [|discriminate].
  cbn [bind]. intros [= <-]. cbn [services rakecycles links with_links].
  apply assign_loop in E as (P & _ & Q).
  split; [reflexivity|]. split; [reflexivity|]. split; [exact P|].
  intros rc Hin. apply In_nth_error in Hin as [j Hj].
  assert (Hc : In (j, rc)
                 (combine (seq 0 (List.length (rakecycles wtt)))
                    (rakecycles wtt))).
  { assert (Hlt : (j < List.length (rakecycles wtt))%nat)
      by (apply nth_error_Some; congruence).
    apply (nth_error_In _ j). rewrite (nth_error_nth' _ (0%nat, 0%nat))
      by (rewrite length_combine, length_seq; lia).
    rewrite combine_nth by now rewrite length_seq.
    rewrite seq_nth by exact Hlt.
    now rewrite (nth_error_nth _ _ _ Hj). }
  exact (Q (j, rc) Hc).
Qed.

(** ** The whole of [generateRakeCycles] *)

Lemma generateRakeCycles_stages depth sheets wtt wtt' :
  generateRakeCycles depth sheets wtt = Ok wtt' ->
  exists wtt1 wtt2 wtt3,
    linkRakeCycles depth wtt = Ok wtt1 /\
    validateRakeCycles wtt1 = Ok wtt2 /\
    for_each (rakecycles wtt2) (sequence_rakecycle sheets) wtt2 = Ok wtt3 /\
    assignRakes wtt3 = Ok wtt'.
Proof.
  unfold generateRakeCycles.
  destruct (linkRakeCycles depth wtt) as [wtt1|]; [|discriminate].
  cbn [bind].
  destruct (validateRakeCycles wtt1) as [wtt2|] eqn:E2; [|discriminate].
  cbn [bind].
  destruct (for_each (rakecycles wtt2) (sequence_rakecycle sheets) wtt2)
    as [wtt3|] eqn:E3; [|discriminate].
  cbn [bind]. intros E4. now exists wtt1, wtt2, wtt3.
Qed.

(** The services on the paths of the active set after the four stages:
    validation found their first identifier, sequencing kept it. *)
Lemma staged_paths wtt1 wtt2 wtt3 wtt' sheets :
  validateRakeCycles wtt1 = Ok wtt2 ->
  for_each (rakecycles wtt2) (sequence_rakecycle sheets) wtt2 = Ok wtt3 ->
  assignRakes wtt3 = Ok wtt' ->
  forall rc, In rc (rakecycles wtt') ->
    In rc (rakecycles wtt2) /\
    exists path,
      RakeCycle.servicePath (rcAt (links wtt2) rc) = Some path /\
      RakeCycle.servicePath (rcAt (links wtt') rc) = Some path /\
      forall s, In s path ->
        Service.serviceId (svcAt (services wtt') s) <> [].
Proof.
  intros E2 E3 E4 rc Hin.
  apply validateRakeCycles_reads in E2 as (_ & _ & H2).
  apply sequence_loop in E3 as (R3 & P3 & I3 & _).
  apply assignRakes_keeps in E4 as (S4 & R4 & P4 & _).
  rewrite R4, R3 in Hin. split; [exact Hin|].
  destruct (H2 rc Hin) as (path & P & F).
  exists path. split; [exact P|]. split; [now rewrite P4, P3|].
  intros s Hs. rewrite S4, I3.
  destruct (F s Hs) as [id Fid]. unfold firstId in Fid.
  intros C. rewrite C in Fid. discriminate Fid.
Qed.

End Pipeline.

(** What [generateRakeCycles] leaves behind.  When it returns, every
    rake cycle of the active set has a path and a rake, and every
    service on such a path has an identifier, events, its two terminal
    stations and a length. *)
Theorem generateRakeCycles_ready :
  forall depth wttSheets wtt wtt',
    Reconciler.generateRakeCycles depth wttSheets wtt = Ok wtt' ->
    forall rc, In rc (rakecycles wtt') ->
      exists path k,
        RakeCycle.servicePath (rcAt (links wtt') rc) = Some path /\
        RakeCycle.rake (rcAt (links wtt') rc) = Some k /\
        forall s, In s path ->
          Stmt.service_ready (svcAt (services wtt') s).
Proof.
  intros depth wttSheets wtt wtt' E rc Hin.
  apply generateRakeCycles_stages in E as (wtt1 & wtt2 & wtt3 & _ & E2 & E3 & E4).
  destruct (staged_paths _ _ _ _ _ E2 E3 E4 rc Hin)
    as (Hin2 & path & P2 & P & I).
  apply sequence_loop in E3 as (R3 & _ & _ & Q3 & _).
  apply assignRakes_keeps in E4 as (S4 & _ & _ & K4).
  assert (K : RakeCycle.rake (rcAt (links wtt') rc) <> None)
    by (apply K4; now rewrite R3).
  destruct (RakeCycle.rake (rcAt (links wtt') rc)) as [k|] eqn:Ek;
    [|now elim K].
  exists path, k. split; [exact P|]. split; [reflexivity|].
  intros s Hs. split; [exact (I s Hs)|].
  rewrite S4. exact (Q3 rc path s Hin2 P2 Hs).
Qed.

Lemma generateRakeCycles_ready_witness :
  exists wtt' path k,
    Reconciler.generateRakeCycles 1000 Cases.fresh_sheets Cases.fresh_table
    = Ok wtt' /\
    RakeCycle.servicePath (rcAt (links wtt') 0%nat) = Some path /\
    RakeCycle.rake (rcAt (links wtt') 0%nat) = Some k /\
    forall s, In s path -> Stmt.service_ready (svcAt (services wtt') s).
Proof.
  destruct (Reconciler.generateRakeCycles 1000 Cases.fresh_sheets
              Cases.fresh_table) as [wtt'|e] eqn:E.
  - assert (Hin : In 0%nat (rakecycles wtt')).
    { vm_compute in E. injection E as <-. now left. }
    destruct (generateRakeCycles_ready 1000 Cases.fresh_sheets
                Cases.fresh_table wtt' E 0%nat Hin)
      as (path & k & P & K & R).
    exists wtt', path, k. split; [reflexivity|].
    split; [exact P|]. split; [exact K|exact R].
  - vm_compute in E. discriminate E.
Defined.

Section LaterPasses.

Import LinkFilters ACStates.

Lemma terminal_rakecycle_returns h start end_ r :
  (forall path, RakeCycle.servicePath r = Some path ->
     forall s, In s path -> Service.events (svcAt h s) <> []) ->
  exists y, terminal_rakecycle h start end_ r = Ok y.
Proof.
  intros H. unfold terminal_rakecycle.
  cbn [RakeCycle.servicePath RakeCycle.set_render].
  destruct (RakeCycle.servicePath r) as [[|s0 p]|] eqn:P;
    try (now eexists).
  specialize (H (s0 :: p) eq_refl).
  unfold first_station, last_station. rewrite index_0_cons. cbn [bind].
  destruct (Service.events (svcAt h s0)) as [|e0 es] eqn:E0;
    [now elim (H s0 (or_introl eq_refl))|].
  rewrite index_0_cons. cbn [bind].
  destruct (index_last_in (s0 :: p)) as (sn & En & Hn); [discriminate|].
  rewrite En. cbn [bind].
  destruct (index_last_in (Service.events (svcAt h sn)) (H sn Hn))
    as (en & Ee & _).
  rewrite Ee. cbn [bind]. now eexists.
Qed.

Lemma terminal_loop_returns h start end_ refs :
  forall lk,
    (forall rc path, In rc refs ->
       RakeCycle.servicePath (rcAt lk rc) = Some path ->
       forall s, In s path -> Service.events (svcAt h s) <> []) ->
    exists lk', applyTerminalStationFilters h start end_ refs lk = Ok lk'.
Proof.
  unfold applyTerminalStationFilters.
  induction refs as [|rc refs IH]; intros lk H; [now eexists|].
  cbn [for_each]. unfold terminal_step at 1.
  destruct (terminal_rakecycle_returns h start end_ (rcAt lk rc)) as [y E].
  { intros path P. exact (H rc path (or_introl eq_refl) P). }
  rewrite E. cbn [bind]. apply IH.
  intros rc' path Hin P. apply (H rc' path (or_intror Hin)).
  rewrite <- P. symmetry.
  destruct (terminal_rakecycle_spec h start end_ _ _ E) as [Ey _].
  unfold rcAt. destruct (Nat.eq_dec rc' rc) as [->|N];
    [|now rewrite nth_update_other by exact N].
  destruct (Nat.lt_ge_cases rc (List.length lk)) as [L|L].
  - rewrite nth_update_same by exact L. fold (rcAt lk rc).
    rewrite Ey. reflexivity.
  - now rewrite update_out_of_range by exact L.
Qed.

Lemma applyLinkFilters_returns qq wtt :
  (forall rc path, In rc (rakecycles wtt) ->
     RakeCycle.servicePath (rcAt (links wtt) rc) = Some path ->
     forall s, In s path -> Service.events (svcAt (services wtt) s) <> []) ->
  exists w, applyLinkFilters qq wtt = Ok w.
Proof.
  intros H. unfold applyLinkFilters.
  destruct (terminal_loop_returns (services wtt) (startStation qq)
              (endStation qq) (rakecycles wtt) (links wtt) H) as [lk E].
  rewrite E. cbn [bind]. now eexists.
Qed.

Lemma store_services_return h path :
  forall st,
    (forall s, In s path -> Service.serviceId (svcAt h s) <> []) ->
    exists st', for_each path (store_service h) st = Ok st'.
Proof.
  induction path as [|s path IH]; intros st H; [now eexists|].
  cbn [for_each]. unfold store_service at 1, firstId.
  destruct (Service.serviceId (svcAt h s)) as [|id ids] eqn:E;
    [now elim (H s (or_introl eq_refl))|].
  rewrite index_0_cons. cbn [bind]. apply IH.
  intros s' Hin. apply H. now right.
Qed.

Lemma storeOriginalACStates_returns wtt :
  (forall rc s, In rc (rakecycles wtt) ->
     In s (path_or_empty (rcAt (links wtt) rc)) ->
     Service.serviceId (svcAt (services wtt) s) <> []) ->
  exists st, storeOriginalACStates wtt = Ok st.
Proof.
  unfold storeOriginalACStates. generalize (@nil (string * bool)).
  induction (rakecycles wtt) as [|rc refs IH]; intros st H; [now eexists|].
  cbn [for_each]. unfold store_step at 1, store_rakecycle.
  match goal with
  | |- context [for_each (path_or_empty ?r) ?f ?st0] =>
      destruct (store_services_return (services wtt) (path_or_empty r) st0)
        as [st1 E]
  end.
  { intros s Hs. exact (H rc s (or_introl eq_refl) Hs). }
  rewrite E. cbn [bind]. apply IH.
  intros rc' s Hin Hs. exact (H rc' s (or_intror Hin) Hs).
Qed.

Lemma convert_rakecycle_returns names rc wtt conv :
  RakeCycle.servicePath (rcAt (links wtt) rc) <> None ->
  exists wtt' conv',
    convert_rakecycle names rc (wtt, conv) = Ok (wtt', conv') /\
    forall rc', RakeCycle.servicePath (rcAt (links wtt') rc')
                = RakeCycle.servicePath (rcAt (links wtt) rc').
Proof.
  intros P. unfold convert_rakecycle.
  destruct (existsb _ names); [|now exists wtt, conv].
  destruct (match RakeCycle.rake (rcAt (links wtt) rc) with
            | Some k => Rake.isAC k
            | None => false
            end); [now exists wtt, conv|].
  destruct (RakeCycle.servicePath (rcAt (links wtt) rc)) as [path|] eqn:E;
    [|now elim P].
  do 2 eexists. split; [reflexivity|].
  cbn [links with_links with_services]. intros rc'.
  destruct (RakeCycle.rake (rcAt (links wtt) rc)) as [k|]; [|reflexivity].
  unfold rcAt. destruct (Nat.eq_dec rc' rc) as [->|N];
    [|now rewrite nth_update_other by exact N].
  destruct (Nat.lt_ge_cases rc (List.length (links wtt))) as [L|L];
    [now rewrite nth_update_same by exact L
    |now rewrite update_out_of_range by exact L].
Qed.

Lemma convert_loop_returns names refs :
  forall wtt conv,
    (forall rc, In rc refs ->
       RakeCycle.servicePath (rcAt (links wtt) rc) <> None) ->
    exists r, for_each refs (convert_rakecycle names) (wtt, conv) = Ok r.
Proof.
  induction refs as [|rc refs IH]; intros wtt conv H; [now eexists|].
  cbn [for_each].
  destruct (convert_rakecycle_returns names rc wtt conv
              (H rc (or_introl eq_refl))) as (wtt' & conv' & E & P).
  rewrite E. cbn [bind]. apply IH.
  intros rc' Hin. rewrite P. apply H. now right.
Qed.

Lemma convertRakeLinksToAC_returns names wtt :
  (forall rc, In rc (rakecycles wtt) ->
     RakeCycle.servicePath (rcAt (links wtt) rc) <> None) ->
  exists r, convertRakeLinksToAC names wtt = Ok r.
Proof.
  intros H. unfold convertRakeLinksToAC.
  destruct names as [|n names]; [now eexists|].
  now apply convert_loop_returns.
Qed.

End LaterPasses.

(** After [generateRakeCycles] the later passes do not fail: the rake
    cycle filter returns for every query, the AC states can be stored,
    and every conversion of rake links to AC returns. *)
Theorem passes_return_after_generateRakeCycles :
  forall depth wttSheets wtt wtt',
    Reconciler.generateRakeCycles depth wttSheets wtt = Ok wtt' ->
    (forall qq, exists w, LinkFilters.applyLinkFilters qq wtt' = Ok w) /\
    (exists st, ACStates.storeOriginalACStates wtt' = Ok st) /\
    (forall link_names,
       exists r, ACStates.convertRakeLinksToAC link_names wtt' = Ok r).
Proof.
  intros depth wttSheets wtt wtt' E.
  apply generateRakeCycles_stages in E as (wtt1 & wtt2 & wtt3 & _ & E2 & E3 & E4).
  pose proof (staged_paths _ _ _ _ _ E2 E3 E4) as R.
  apply sequence_loop in E3 as (_ & _ & _ & Q3 & _).
  apply assignRakes_keeps in E4 as (S4 & _).
  split; [|split].
  - intros qq. apply applyLinkFilters_returns.
    intros rc path Hin P s Hs.
    destruct (R rc Hin) as (Hin2 & path' & P2 & P' & _).
    rewrite P in P'. injection P' as <-. rewrite S4.
    now destruct (Q3 rc path s Hin2 P2 Hs) as (He & _).
  - apply storeOriginalACStates_returns. intros rc s Hin Hs.
    destruct (R rc Hin) as (_ & path & _ & P & H).
    unfold ACStates.path_or_empty in Hs. rewrite P in Hs.
    exact (H s Hs).
  - intros names. apply convertRakeLinksToAC_returns. intros rc Hin.
    destruct (R rc Hin) as (_ & path & _ & P & _). rewrite P. discriminate.
Qed.

Lemma passes_return_after_generateRakeCycles_witness :
  exists wtt',
    Reconciler.generateRakeCycles 1000 Cases.fresh_sheets Cases.fresh_table
    = Ok wtt' /\
    (exists w, LinkFilters.applyLinkFilters Cases.through_bandra wtt' = Ok w)
    /\
    (exists st, ACStates.storeOriginalACStates wtt' = Ok st).
Proof.
  destruct (Reconciler.generateRakeCycles 1000 Cases.fresh_sheets
              Cases.fresh_table) as [wtt'|e] eqn:E.
  - destruct (passes_return_after_generateRakeCycles 1000 Cases.fresh_sheets
                Cases.fresh_table wtt' E) as (L & S & _).
    exists wtt'. split; [reflexivity|]. split; [apply L|exact S].
  - vm_compute in E. discriminate E.
Defined.
